(** * Polar Hub: beat-processing pipeline

    A shallow embedding of the beat-processing code of the hub:
    - [Lipponen]: the RR artifact classifier [analyzeRR] (lipponen.js);
    - [PostProcessor]: the per-device high-water mark kept by the
      post-processor, [registerDevice] and [triggerReprocess]
      (postprocessor.js);
    - [Server]: the two ingest handlers, POST /beats and POST /beats/batch
      (server.js), with the store calls they make (influx.js);
    - [Hrv]: the HRV metrics, the RR validator and the RR buffer (hrv.js);
    - [Processing]: one processing cycle of a device, [processDevice] and
      [recomputeSummaries] (postprocessor.js);
    - [Influx]: the chunked write of the store writers (influx.js).

    JavaScript numbers are modelled by exact rationals ([Q]): every
    operation of the classifier is rational (sums, differences, products,
    quotients, floor, comparisons), so the embedding computes.  Rounding of
    binary64 arithmetic is not part of the model.  Numeric equality of the
    source ([===] on numbers) is [Qeq], written [==]. *)

From Stdlib Require Import QArith Qabs Qround Qminmax Lqa Lia List String.
From stdpp Require Import gmap strings list pretty sorting.
Import ListNotations.

(** ** JavaScript helpers *)

Module JS.

(** [a < b] on numbers. *)
Definition ltb (a b : Q) : bool := negb (Qle_bool b a).

(** [a <= b] on numbers. *)
Definition leb (a b : Q) : bool := Qle_bool a b.

Definition Math_max (a b : Q) : Q := if Qle_bool a b then b else a.
Definition Math_min (a b : Q) : Q := if Qle_bool a b then a else b.
Definition Math_abs (a : Q) : Q := Qabs a.

(** [Math.round]: the nearest integer, halves rounded up. *)
Definition Math_round (a : Q) : Q := inject_Z (Qfloor (a + (1 # 2))%Q).

(** The number of elements of an array, as a number. *)
Definition num_of_nat (n : nat) : Q := inject_Z (Z.of_nat n).

(** [arr[i]] for an array of numbers.  Every read of the modelled code is
    in range (the loops' bounds guarantee it); the default stands for the
    [undefined] of an out-of-range read and is never returned there. *)
Definition get (arr : list Q) (i : nat) : Q := nth i arr 0%Q.

(** [arr.slice(start, end)]; empty when [end <= start]. *)
Definition slice {A} (arr : list A) (start end_ : nat) : list A :=
  firstn (end_ - start) (skipn start arr).

(** [[...arr].sort((a, b) => key(a) - key(b))]: a stable sort by a
    numeric key, as insertion of each element before the first one whose
    key is not smaller. *)
Fixpoint insert_by {A} (key : A -> Q) (x : A) (l : list A) : list A :=
  match l with
  | [] => [x]
  | y :: l' =>
      if Qle_bool (key x) (key y) then x :: y :: l'
      else y :: insert_by key x l'
  end.

Definition sort_by {A} (key : A -> Q) (l : list A) : list A :=
  fold_right (insert_by key) [] l.

Definition sort_num (l : list Q) : list Q := sort_by (fun x => x) l.

(** Truthiness of a string that may be absent: [undefined], [null] and
    the empty string are falsy. *)
Definition truthy_str (s : option string) : bool :=
  match s with
  | Some s => negb (String.eqb s "")
  | None => false
  end.

(** Truthiness of a number that may be absent: [undefined], [null] and
    [0] are falsy. *)
Definition truthy_num (x : option Q) : bool :=
  match x with
  | Some x => negb (Qeq_bool x 0)
  | None => false
  end.

End JS.

(** ** lipponen.js: RR artifact detection and correction *)

Module Lipponen.
Import JS.

Definition THRESHOLD_FACTOR : Q := 5.2.
Definition QD_WINDOW : nat := 91.
Definition MEDIAN_WINDOW : nat := 11.
Definition C1 : Q := 0.13.
Definition C2 : Q := 0.17.
Definition MIN_THRESHOLD : Q := 50.

Definition median (arr : list Q) : Q :=
  if (length arr =? 0)%nat then 0%Q
  else
    let sorted := sort_num arr in
    let mid := (length sorted / 2)%nat in
    if negb (length sorted mod 2 =? 0)%nat
    then get sorted mid
    else ((get sorted (mid - 1) + get sorted mid) / 2)%Q.

Definition quantile (arr : list Q) (q : Q) : Q :=
  if (length arr =? 0)%nat then 0%Q
  else
    let sorted := sort_num arr in
    let pos := ((num_of_nat (length sorted) - 1) * q)%Q in
    let base := Qfloor pos in
    let rest := (pos - inject_Z base)%Q in
    let b := Z.to_nat base in
    if (b + 1 <? length sorted)%nat
    then (get sorted b + rest * (get sorted (b + 1) - get sorted b))%Q
    else get sorted b.

Definition quartileDeviation (arr : list Q) : Q :=
  ((quantile arr 0.75 - quantile arr 0.25) / 2)%Q.

(** A centered rolling window; at the edges the window shrinks. *)
Definition rollingCentered {B} (arr : list Q) (windowSize : nat)
    (fn : list Q -> B) : list B :=
  let half := (windowSize / 2)%nat in
  map (fun i =>
         let start := Nat.max 0 (i - half) in
         let end_ := Nat.min (length arr) (i + half + 1) in
         fn (slice arr start end_))
      (seq 0 (length arr)).

Definition adaptiveThreshold (window : list Q) : Q :=
  let qd := quartileDeviation window in
  Math_max (THRESHOLD_FACTOR * qd)%Q MIN_THRESHOLD.

(** Step 1: successive differences; the first element is the mean of the
    others. *)
Definition compute_dRR (rr : list Q) : list Q :=
  let n := length rr in
  let rest := map (fun i => (get rr i - get rr (i - 1))%Q) (seq 1 (n - 1)) in
  let drrSum := fold_left Qplus rest 0%Q in
  (drrSum / (num_of_nat n - 1))%Q :: rest.

(** Step 4: deviation from the local median, negative values doubled. *)
Definition compute_mRR (rr medrr : list Q) : list Q :=
  map (fun i =>
         let m := (get rr i - get medrr i)%Q in
         if ltb m 0 then (m * 2)%Q else m)
      (seq 0 (length rr)).

(** Step 6: [xs.map((x, i) => x / th[i])]. *)
Definition normalize (xs th : list Q) : list Q :=
  map (fun i => (get xs i / get th i)%Q) (seq 0 (length xs)).

(** Step 7: the two subspace projections. *)
Definition compute_s12 (n : nat) (drrs : list Q) : list Q :=
  map (fun i =>
         if ((1 <=? i) && (i <? n - 1))%nat then
           if ltb 0 (get drrs i)
           then Math_max (get drrs (i - 1)) (get drrs (i + 1))
           else if ltb (get drrs i) 0
                then Math_min (get drrs (i - 1)) (get drrs (i + 1))
                else 0%Q
         else 0%Q)
      (seq 0 n).

Definition compute_s22 (n : nat) (drrs : list Q) : list Q :=
  map (fun i =>
         if (i <? n - 2)%nat then
           if leb 0 (get drrs i)
           then Math_min (get drrs (i + 1)) (get drrs (i + 2))
           else Math_max (get drrs (i + 1)) (get drrs (i + 2))
         else 0%Q)
      (seq 0 n).

(** The arrays the classification walk reads. *)
Record Series := {
  sn : nat;
  srr : list Q;
  smedrr : list Q;
  sth2 : list Q;
  sdrrs : list Q;
  smrrs : list Q;
  ss12 : list Q;
  ss22 : list Q
}.

Definition compute_series (rr : list Q) : Series :=
  let n := length rr in
  let dRR := compute_dRR rr in
  let th1 := rollingCentered dRR QD_WINDOW adaptiveThreshold in
  let medrr := rollingCentered rr MEDIAN_WINDOW median in
  let mRR := compute_mRR rr medrr in
  let th2 := rollingCentered mRR QD_WINDOW adaptiveThreshold in
  let drrs := normalize dRR th1 in
  let mrrs := normalize mRR th2 in
  {| sn := n; srr := rr; smedrr := medrr; sth2 := th2;
     sdrrs := drrs; smrrs := mrrs;
     ss12 := compute_s12 n drrs; ss22 := compute_s22 n drrs |}.

(** The state of the walk: the index, the classifications array and the
    ectopic pairs pushed so far. *)
Record Walk := {
  wi : nat;
  classifications : list string;
  ectopicPairs : list (nat * nat)
}.

Definition isEctopic (s : Series) (i : nat) : bool :=
  let d := get (sdrrs s) i in
  (ltb 1 d && ltb (get (ss12 s) i) (- C1 * d - C2)%Q)
  || (ltb d (-1) && ltb (- C1 * d + C2)%Q (get (ss12 s) i)).

Definition isLongShortCandidate (s : Series) (i : nat) : bool :=
  ltb 1 (Math_abs (get (sdrrs s) i))
  || ltb 3 (Math_abs (get (smrrs s) i)).

Definition candidates (s : Series) (i : nat) : list nat :=
  i :: (if ((i + 2 <? sn s)%nat
            && ltb (Math_abs (get (sdrrs s) (i + 1)))
                   (Math_abs (get (sdrrs s) (i + 2))))
        then [(i + 1)%nat] else []).

Definition extraTest (s : Series) (j : nat) : bool :=
  (j <? sn s - 1)%nat
  && ltb (get (sdrrs s) j) (-1)
  && ltb 1 (get (ss22 s) j)
  && ltb (Math_abs (get (srr s) j + get (srr s) (j + 1) - get (smedrr s) j)%Q)
         (get (sth2 s) j).

Definition missedTest (s : Series) (j : nat) : bool :=
  ltb 1 (get (sdrrs s) j)
  && ltb (get (ss22 s) j) (-1)
  && ltb (Math_abs (get (srr s) j / 2 - get (smedrr s) j)%Q)
         (get (sth2 s) j).

(** The [for (const j of candidates)] loop: the first candidate that
    passes a test is classified and the walk resumes at [j + 2]; [None]
    is [found = false]. *)
Fixpoint tryCandidates (s : Series) (cands : list nat) (cls : list string)
    : option (nat * list string) :=
  match cands with
  | [] => None
  | j :: rest =>
      if extraTest s j
      then Some ((j + 2)%nat,
                 <[(j + 1)%nat := "extra_absorbed"]> (<[j := "extra"]> cls))
      else if missedTest s j
      then Some ((j + 2)%nat, <[j := "missed"]> cls)
      else tryCandidates s rest cls
  end.

(** One iteration of the body of [while (i < n - 2)]. *)
Definition walkStep (s : Series) (w : Walk) : Walk :=
  let i := wi w in
  if leb (Math_abs (get (sdrrs s) i)) 1 then
    {| wi := i + 1; classifications := classifications w;
       ectopicPairs := ectopicPairs w |}
  else if isEctopic s i then
    if (0 <? i)%nat then
      {| wi := i + 2; classifications := classifications w;
         ectopicPairs := ectopicPairs w ++ [((i - 1)%nat, i)] |}
    else
      {| wi := i + 2;
         classifications := <[i := "longshort"]> (classifications w);
         ectopicPairs := ectopicPairs w |}
  else if isLongShortCandidate s i then
    match tryCandidates s (candidates s i) (classifications w) with
    | Some (i', cls') =>
        {| wi := i'; classifications := cls';
           ectopicPairs := ectopicPairs w |}
    | None =>
        {| wi := i + 1;
           classifications := <[i := "longshort"]> (classifications w);
           ectopicPairs := ectopicPairs w |}
    end
  else
    {| wi := i + 1; classifications := classifications w;
       ectopicPairs := ectopicPairs w |}.

(** The [while] loop.  Each iteration advances the index, so [n]
    iterations are enough to leave the loop ([walk_exits] below). *)
Fixpoint walk (fuel : nat) (s : Series) (w : Walk) : Walk :=
  match fuel with
  | O => w
  | S fuel' =>
      if (wi w <? sn s - 2)%nat then walk fuel' s (walkStep s w) else w
  end.

(** The state before the loop: [i = 0], every beat 'none', no pair. *)
Definition walkStart (s : Series) : Walk :=
  {| wi := 0; classifications := replicate (sn s) "none";
     ectopicPairs := [] |}.

Definition classify (s : Series) : Walk := walk (sn s) s (walkStart s).

Record Result := {
  rr_clean : option Q;
  artifact_type : string
}.

Definition set_rr_clean (r : Result) (v : option Q) : Result :=
  {| rr_clean := v; artifact_type := artifact_type r |}.

(** The body of the first correction loop, the [switch] on
    [classifications[idx]]. *)
Definition correctAt (s : Series) (cls : list string)
    (results : list Result) (idx : nat) : list Result :=
  match results !! idx, cls !! idx with
  | Some r, Some c =>
      if String.eqb c "missed" then
        <[idx := set_rr_clean r (Some (get (srr s) idx / 2)%Q)]> results
      else if String.eqb c "extra" then
        if (idx + 1 <? sn s)%nat then
          <[idx := set_rr_clean r
                     (Some (get (srr s) idx + get (srr s) (idx + 1))%Q)]>
            results
        else results
      else if String.eqb c "extra_absorbed" then
        <[idx := set_rr_clean r None]> results
      else if String.eqb c "longshort" then
        <[idx := set_rr_clean r (Some (get (smedrr s) idx))]> results
      else results
  | _, _ => results
  end.

(** The body of the second correction loop, over the ectopic pairs. *)
Definition correctEctopic (s : Series) (results : list Result)
    (p : nat * nat) : list Result :=
  let '(a, b) := p in
  let avg := ((get (srr s) a + get (srr s) b) / 2)%Q in
  let ect := {| rr_clean := Some avg; artifact_type := "ectopic" |} in
  <[b := ect]> (<[a := ect]> results).

(** Step 10: what one result contributes to the clean series. *)
Definition emitClean (r : Result) : list Q :=
  match rr_clean r with
  | None => []
  | Some v =>
      if String.eqb (artifact_type r) "missed" then [v; v] else [v]
  end.

Record Stats := {
  total : nat;
  artifacts : nat;
  ectopic : nat;
  missed : nat;
  extra : nat;
  longshort : nat
}.

Definition countType (t : string) (results : list Result) : nat :=
  length (filter (fun r => artifact_type r = t) results).

Definition computeStats (n : nat) (results : list Result) : Stats :=
  let e := countType "ectopic" results in
  let m := countType "missed" results in
  let x := countType "extra" results in
  let l := countType "longshort" results in
  {| total := n; artifacts := e + m + x + l;
     ectopic := e; missed := m; extra := x; longshort := l |}.

Record Analysis := {
  results : list Result;
  cleanSeries : list Q;
  stats : Stats
}.

(** Step 9: the results before correction, the non-ectopic corrections,
    then the ectopic overrides. *)
Definition initialResults (s : Series) (cls : list string) : list Result :=
  map (fun idx => {| rr_clean := Some (get (srr s) idx);
                     artifact_type := default "none" (cls !! idx) |})
      (seq 0 (sn s)).

Definition correctedResults (s : Series) (w : Walk) : list Result :=
  let cls := classifications w in
  let results1 :=
    fold_left (correctAt s cls) (seq 0 (sn s)) (initialResults s cls) in
  fold_left (correctEctopic s) (ectopicPairs w) results1.

Definition analyzeRR (rrIntervals : list Q) : Analysis :=
  let n := length rrIntervals in
  if (n <? 4)%nat then
    {| results :=
         map (fun rr => {| rr_clean := Some rr; artifact_type := "none" |})
             rrIntervals;
       cleanSeries := rrIntervals;
       stats := {| total := n; artifacts := 0; ectopic := 0; missed := 0;
                   extra := 0; longshort := 0 |} |}
  else
    let s := compute_series rrIntervals in
    let results := correctedResults s (classify s) in
    {| results := results;
       cleanSeries := flat_map emitClean results;
       stats := computeStats n results |}.

End Lipponen.

(** ** postprocessor.js: the per-device high-water mark *)

Module PostProcessor.
Import JS.

(** Per-device state: the last timestamp processed up to. *)
Record DeviceState := { lastProcessedMs : Q }.

(** [registerDevice(device)]: a device already known is left alone;
    otherwise its state starts at what the store says was processed last
    ([lastProcessed], [null] when there is nothing or the query failed),
    or at the clock [now]. *)
Definition registerDevice (deviceState : gmap string DeviceState)
    (device : string) (lastProcessed : option Q) (now : Q)
    : gmap string DeviceState :=
  match deviceState !! device with
  | Some _ => deviceState
  | None =>
      <[device := {| lastProcessedMs := default now lastProcessed |}]>
        deviceState
  end.

(** The time values of a [Date]: [new Date(ms).toISOString()] throws a
    RangeError for a number beyond 8.64e15 in absolute value. *)
Definition MAX_TIME_VALUE : Q := 8640000000000000.

Definition isTimeValue (ms : Q) : bool := leb (Math_abs ms) MAX_TIME_VALUE.

(** [triggerReprocess(device, fromMs)]: moves [lastProcessedMs] backward
    if the batch starts before it.  The result is the new state and
    whether the log line was written.  That line comes before the
    assignment and formats [fromMs] as a date: when the formatting throws
    ([None]) nothing has been assigned. *)
Definition triggerReprocess (deviceState : gmap string DeviceState)
    (device : string) (fromMs : Q)
    : option (gmap string DeviceState * bool) :=
  match deviceState !! device with
  | None => Some (deviceState, false)
  | Some state =>
      if ltb fromMs (lastProcessedMs state) then
        if isTimeValue fromMs
        then Some (<[device := {| lastProcessedMs := fromMs |}]> deviceState,
                   true)
        else None
      else Some (deviceState, false)
  end.

End PostProcessor.

(** ** server.js: the ingest handlers *)

Module Server.
Import JS Lipponen.

Definition GAP_THRESHOLD_MS : Q := 300.
Definition REALTIME_WINDOW_SIZE : nat := 60.

Record HRV := { rmssd : option Q; sdnn : option Q; pnn50 : option Q }.

Definition nullHRV : HRV := {| rmssd := None; sdnn := None; pnn50 := None |}.

(** Per-device state of the real-time path. *)
Record DeviceState := {
  rrWindow : list Q;
  rmssdBuffer : list Q;
  totalBeats : nat;
  lastPosture : string
}.

Record BeatData := {
  bdHeartRate : option Q;
  bdRr : Q;
  bdHrv : HRV;
  bdRssi : option Q;
  bdSource : option string;
  bdTimestamp : Q
}.

Record RelayState := {
  lastSeen : Q;
  rsDevice : string;
  rsRssi : option Q;
  rsStatus : string
}.

(** The module-level maps of server.js. *)
Record State := {
  deviceState : gmap string DeviceState;
  latestBeatData : gmap string BeatData;
  relayState : gmap string RelayState
}.

(** A point of a batch, as pushed onto [incomingPoints]. *)
Record Point := {
  timestamp : Q;
  rr_interval : Q;
  heart_rate : option Q;
  source : option string;
  path : string
}.

(** A row returned by [queryRawBeats]. *)
Record ExistingBeat := {
  time : Q;
  eRrInterval : option Q;
  eRrClean : option Q
}.

Record Gap := { gStart : Q; gEnd : Q }.

(** What a handler does to the outside, in order: calls of the store
    writers and queries, the registration with the post-processor that
    [getDeviceState] starts, log lines (by kind) and the SSE broadcast.
    A raw beat is written by a call of [writeRawBeat], which sends one
    point to the store and swallows its failure.  A call of
    [writeRealtime] sends one point unless the HRV metrics and the heart
    rate are all [null], and swallows its failure too. *)
Inductive Effect :=
| WriteRawBeat (device : string) (ts rr : Q) (heartRate : option Q)
    (src : option string) (pth : string)
| WriteRealtime (device : string) (ts : Q) (hrv : HRV) (hr : option Q)
| RegisterDevice (device : string)
| QueryLastProcessedTime (device : string)
| QueryRawBeats (device : string) (startMs endMs : Q)
| WriteRawBatch (device : string) (points : list Point)
| Log (kind : string)
| BroadcastStatus.

(** The answer of a handler; [Unanswered] when the handler threw before
    it answered (the rejection of the async handler is not caught, and no
    response is sent). *)
Inductive Response :=
| Error (status : nat) (error : string)
| BeatsOk (received : nat)
| BatchOk (received new duplicates : Z)
| Unanswered.

(** *** POST /beats *)

(** The body of a /beats request.  [rrIntervals] is [None] when the field
    is missing or is not an array. *)
Record BeatsRequest := {
  rqSource : option string;
  rqDevice : option string;
  rqTimestamp : option Q;
  rqHeartRate : option Q;
  rqRrIntervals : option (list Q);
  rqPosture : option string;
  rqRssi : option Q
}.

Definition newDeviceState : DeviceState :=
  {| rrWindow := []; rmssdBuffer := []; totalBeats := 0;
     lastPosture := "unknown" |}.

(** [getDeviceState(device)]: creates the state on first use and starts
    the registration with the post-processor. *)
Definition getDeviceState (st : State) (device : string)
    : DeviceState * State * list Effect :=
  match deviceState st !! device with
  | Some d => (d, st, [])
  | None =>
      (newDeviceState,
       {| deviceState := <[device := newDeviceState]> (deviceState st);
          latestBeatData := latestBeatData st;
          relayState := relayState st |},
       [RegisterDevice device])
  end.

(** [buf.push(x); if (buf.length > size) buf.shift()]. *)
Definition pushBounded (size : nat) (buf : list Q) (x : Q) : list Q :=
  let buf' := buf ++ [x] in
  if (size <? length buf')%nat then tail buf' else buf'.

(** The variables the loop over [rrIntervals] updates. *)
Record BeatLoop := {
  cumulativeRR : Q;
  loopBeats : nat;
  loopWindow : list Q;
  loopWrites : list Effect
}.

Definition beatStep (device : string) (beatTimestamp : Q)
    (heartRate : option Q) (src : option string) (acc : BeatLoop) (rr : Q)
    : BeatLoop :=
  let rrTimestamp := (beatTimestamp + cumulativeRR acc)%Q in
  {| cumulativeRR := (cumulativeRR acc + rr)%Q;
     loopBeats := loopBeats acc + 1;
     loopWindow := pushBounded REALTIME_WINDOW_SIZE (loopWindow acc) rr;
     loopWrites :=
       loopWrites acc
       ++ [WriteRawBeat device rrTimestamp rr heartRate src "realtime"] |}.

Section Handlers.

(** [calculateHRV] of hrv.js takes square roots, which have no exact
    rational value: the handlers are parametric in it. *)
Variable calculateHRV : list Q -> HRV.

(** The clock, [Date.now()]. *)
Variable now : Q.

(** [timestamp || Date.now()]. *)
Definition beatTimestamp (req : BeatsRequest) : Q :=
  if truthy_num (rqTimestamp req) then default now (rqTimestamp req)
  else now.

(** The HRV of the real-time window and the heart rate derived from it.
    A mean clean interval of 0 makes the heart rate [Infinity] in
    JavaScript, a value the numbers of the model do not have (the
    quotient is 0 here); no property below speaks of this heart rate. *)
Definition windowHRV (window : list Q) (heartRate : option Q)
    : HRV * option Q :=
  if (4 <=? length window)%nat then
    let cleanRRs := cleanSeries (analyzeRR window) in
    if (2 <=? length cleanRRs)%nat then
      let meanCleanRR :=
        (fold_left Qplus cleanRRs 0 / num_of_nat (length cleanRRs))%Q in
      (calculateHRV cleanRRs, Some (Math_round (60000 / meanCleanRR)%Q))
    else (nullHRV, heartRate)
  else (nullHRV, heartRate).

Definition post_beats (req : BeatsRequest) (st : State)
    : Response * State * list Effect :=
  match rqDevice req, rqRrIntervals req with
  | Some device, Some rrIntervals =>
      if String.eqb device "" then
        (Error 400 "Invalid request", st, [])
      else if (length rrIntervals =? 0)%nat then
        (BeatsOk 0, st, [])
      else
        let '(state, st1, reg) := getDeviceState st device in
        let posture :=
          if truthy_str (rqPosture req) then default "unknown" (rqPosture req)
          else "unknown" in
        let beatTimestamp := beatTimestamp req in
        let loop :=
          fold_left
            (beatStep device beatTimestamp (rqHeartRate req) (rqSource req))
            rrIntervals
            {| cumulativeRR := 0; loopBeats := totalBeats state;
               loopWindow := rrWindow state; loopWrites := [] |} in
        let '(hrv, windowHR) := windowHRV (loopWindow loop) (rqHeartRate req) in
        let lastRR := List.last rrIntervals 0%Q in
        let lastRRTimestamp := (beatTimestamp + cumulativeRR loop - lastRR)%Q in
        let buffer :=
          match rmssd hrv with
          | Some r => pushBounded 30 (rmssdBuffer state) r
          | None => rmssdBuffer state
          end in
        let state' :=
          {| rrWindow := loopWindow loop; rmssdBuffer := buffer;
             totalBeats := loopBeats loop; lastPosture := posture |} in
        let beatData :=
          {| bdHeartRate := windowHR; bdRr := lastRR; bdHrv := hrv;
             bdRssi := rqRssi req; bdSource := rqSource req;
             bdTimestamp := lastRRTimestamp |} in
        let relays :=
          match rqSource req with
          | Some src =>
              if truthy_str (rqSource req) then
                <[src := {| lastSeen := now; rsDevice := device;
                            rsRssi := rqRssi req; rsStatus := "active" |}]>
                  (relayState st1)
              else relayState st1
          | None => relayState st1
          end in
        (BeatsOk (length rrIntervals),
         {| deviceState := <[device := state']> (deviceState st1);
            latestBeatData := <[device := beatData]> (latestBeatData st1);
            relayState := relays |},
         reg ++ loopWrites loop
         ++ [WriteRealtime device lastRRTimestamp hrv windowHR;
             Log "beat"; BroadcastStatus])
  | _, _ => (Error 400 "Invalid request", st, [])
  end.

End Handlers.

(** *** POST /beats/batch *)

(** A beat of a batch.  [bTimestamp] is [None] when the field is not a
    number; [bRrIntervals] is [None] when the field is missing. *)
Record BatchBeat := {
  bTimestamp : option Q;
  bHeartRate : option Q;
  bRrIntervals : option (list Q)
}.

(** The body of a /beats/batch request.  [bqBeats] is [None] when the
    field is missing or is not an array. *)
Record BatchRequest := {
  bqSource : option string;
  bqDevice : option string;
  bqBeats : option (list BatchBeat)
}.

(** What the store answers during one request: the last processed time
    asked for by [registerDevice] ([null] also when that query fails),
    the rows of [queryRawBeats] ([None] when the query throws, a timeout
    included), and whether [writeRawBatch] succeeds. *)
Record StoreAnswers := {
  lastProcessedAnswer : option Q;
  rawBeatsAnswer : option (list ExistingBeat);
  rawBatchWritten : bool
}.

(** The index of the first beat whose timestamp is not a number. *)
Fixpoint firstMissingTimestamp (i : nat) (beats : list BatchBeat)
    : option nat :=
  match beats with
  | [] => None
  | beat :: rest =>
      match bTimestamp beat with
      | None => Some i
      | Some _ => firstMissingTimestamp (S i) rest
      end
  end.

(** The inner loop of the flattening: the RR series laid head to tail
    from [ts]. *)
Fixpoint layOut (ts : Q) (heartRate : option Q) (src : option string)
    (rrs : list Q) : list Point :=
  match rrs with
  | [] => []
  | rr :: rest =>
      {| timestamp := ts; rr_interval := rr; heart_rate := heartRate;
         source := src; path := "batch" |}
      :: layOut (ts + rr)%Q heartRate src rest
  end.

(** [beat.heartRate || null]. *)
Definition heartRateOrNull (hr : option Q) : option Q :=
  if truthy_num hr then hr else None.

(** Beats without RR intervals are skipped.  The timestamps are numbers
    here, the validation has passed. *)
Definition flattenBeats (src : option string) (beats : list BatchBeat)
    : list Point :=
  flat_map
    (fun beat =>
       match bTimestamp beat, bRrIntervals beat with
       | Some ts, Some rrs =>
           layOut ts (heartRateOrNull (bHeartRate beat)) src rrs
       | _, _ => []
       end)
    beats.

(** [existing[i].time + (existing[i].rr_interval || 0)]. *)
Definition expectedNext (e : ExistingBeat) : Q :=
  (time e + default 0 (eRrInterval e))%Q.

(** The loop over consecutive existing beats. *)
Fixpoint interiorGaps (existing : list ExistingBeat) : list Gap :=
  match existing with
  | e :: ((e' :: _) as rest) =>
      (if ltb GAP_THRESHOLD_MS (time e' - expectedNext e)%Q
       then [{| gStart := expectedNext e; gEnd := time e' |}] else [])
      ++ interiorGaps rest
  | _ => []
  end.

(** The gap list of a non-empty [existing]: interior gaps, the leading
    edge put in front, the trailing edge at the end. *)
Definition detectGaps (existing : list ExistingBeat) (firstTs lastTs : Q)
    : list Gap :=
  match existing with
  | [] => []
  | e0 :: _ =>
      let lastEx := List.last existing e0 in
      let trailingStart := expectedNext lastEx in
      (if ltb firstTs (time e0 - GAP_THRESHOLD_MS)%Q
       then [{| gStart := firstTs; gEnd := time e0 |}] else [])
      ++ interiorGaps existing
      ++ (if ltb (trailingStart + GAP_THRESHOLD_MS)%Q lastTs
          then [{| gStart := trailingStart; gEnd := (lastTs + 2000)%Q |}]
          else [])
  end.

Definition inGap (p : Point) (g : Gap) : bool :=
  leb (gStart g - GAP_THRESHOLD_MS)%Q (timestamp p)
  && leb (timestamp p) (gEnd g + GAP_THRESHOLD_MS)%Q.

(** The points kept: all of them when nothing exists yet, else those that
    fall into a gap. *)
Definition selectNew (existing : list ExistingBeat) (incoming : list Point)
    (firstTs lastTs : Q) : list Point :=
  if (length existing =? 0)%nat then incoming
  else
    let gaps := detectGaps existing firstTs lastTs in
    List.filter (fun p => existsb (inGap p) gaps) incoming.

Definition post_beats_batch (now : Q) (store : StoreAnswers)
    (req : BatchRequest) (pp : gmap string PostProcessor.DeviceState)
    : Response * gmap string PostProcessor.DeviceState * list Effect :=
  match bqDevice req, bqBeats req with
  | Some device, Some beats =>
      if String.eqb device "" || (length beats =? 0)%nat then
        (Error 400 "Require device and non-empty beats array", pp, [])
      else
        match firstMissingTimestamp 0 beats with
        | Some i =>
            (Error 400 ("Beat " +:+ pretty i +:+ " missing timestamp"), pp, [])
        | None =>
            let pp1 :=
              PostProcessor.registerDevice pp device
                (lastProcessedAnswer store) now in
            let reg :=
              match pp !! device with
              | Some _ => []
              | None => [QueryLastProcessedTime device; Log "registered"]
              end in
            let unsorted := flattenBeats (bqSource req) beats in
            match sort_by timestamp unsorted with
            | [] => (BatchOk 0 0 0, pp1, reg)
            | (p0 :: _) as incomingPoints =>
                let firstTs := timestamp p0 in
                let lastTs := timestamp (List.last incomingPoints p0) in
                let query :=
                  QueryRawBeats device (firstTs - 2000)%Q (lastTs + 2000)%Q in
                let '(existing, queryLog) :=
                  match rawBeatsAnswer store with
                  | Some rows => (rows, [])
                  | None => ([], [Log "Dedup query failed, writing all"])
                  end in
                let newPoints :=
                  selectNew existing incomingPoints firstTs lastTs in
                let received := Z.of_nat (length incomingPoints) in
                let duplicateCount :=
                  (received - Z.of_nat (length newPoints))%Z in
                let ok :=
                  BatchOk received (Z.of_nat (length newPoints))
                    duplicateCount in
                if (0 <? length newPoints)%nat then
                  if rawBatchWritten store then
                    match
                      PostProcessor.triggerReprocess pp1 device firstTs
                    with
                    | Some (pp2, logged) =>
                        (ok, pp2,
                         reg ++ query :: queryLog
                         ++ WriteRawBatch device newPoints
                            :: (if logged then [Log "reprocessing"] else [])
                            ++ [Log "batch"])
                    | None =>
                        (Unanswered, pp1,
                         reg ++ query :: queryLog
                         ++ [WriteRawBatch device newPoints])
                    end
                  else
                    (Error 500 "InfluxDB write failed", pp1,
                     reg ++ query :: queryLog
                     ++ [WriteRawBatch device newPoints])
                else (ok, pp1, reg ++ query :: queryLog ++ [Log "batch"])
            end
        end
  | _, _ => (Error 400 "Require device and non-empty beats array", pp, [])
  end.

End Server.

(** ** hrv.js: HRV metrics, the RR validator and the RR buffer *)

Module Hrv.
Import JS.

Definition DEFAULT_RR_MIN_MS : Q := 300.
Definition DEFAULT_RR_MAX_MS : Q := 2000.
Definition DEFAULT_RR_MAX_DIFF_MS : Q := 200.
Definition DEFAULT_RR_MAX_DIFF_PCT : Q := 0.20.

(** [arr.reduce((a, b) => a + b, 0)]. *)
Definition sum (arr : list Q) : Q := fold_left Qplus arr 0%Q.

(** [Math.round(x * 100) / 100]. *)
Definition round2 (x : Q) : Q := (Math_round (x * 100) / 100)%Q.

(** The loop that pushes [rr[i] - rr[i - 1]] for [i] from 1. *)
Definition successiveDiffs (rrIntervals : list Q) : list Q :=
  map (fun i => (get rrIntervals i - get rrIntervals (i - 1))%Q)
      (seq 1 (length rrIntervals - 1)).

Section Metrics.

(** [Math.sqrt] has no exact rational value: the metrics are parametric
    in it. *)
Variable Math_sqrt : Q -> Q.

Definition calculateHRV (rrIntervals : list Q) : Server.HRV :=
  if (length rrIntervals <? 2)%nat then Server.nullHRV
  else
    let diffs := successiveDiffs rrIntervals in
    let squaredDiffs := map (fun d => (d * d)%Q) diffs in
    let meanSquaredDiff :=
      (sum squaredDiffs / num_of_nat (length squaredDiffs))%Q in
    let rmssd := Math_sqrt meanSquaredDiff in
    let meanRR := (sum rrIntervals / num_of_nat (length rrIntervals))%Q in
    let squaredDeviations :=
      map (fun rr => ((rr - meanRR) ^ 2)%Q) rrIntervals in
    let variance :=
      (sum squaredDeviations / num_of_nat (length rrIntervals))%Q in
    let sdnn := Math_sqrt variance in
    let nn50Count :=
      length (List.filter (fun d => ltb 50 (Math_abs d)) diffs) in
    let pnn50 :=
      (num_of_nat nn50Count / num_of_nat (length diffs) * 100)%Q in
    {| Server.rmssd := Some (round2 rmssd);
       Server.sdnn := Some (round2 sdnn);
       Server.pnn50 := Some (round2 pnn50) |}.

End Metrics.

(** *** createRRValidator *)

Record ValidatorOptions := {
  minMs : Q;
  maxMs : Q;
  maxDiffMs : Q;
  maxDiffPct : Q;
  warmupBeats : nat;
  cascadeResetCount : nat
}.

(** The defaults of the destructuring in [createRRValidator]. *)
Definition defaultOptions : ValidatorOptions :=
  {| minMs := DEFAULT_RR_MIN_MS; maxMs := DEFAULT_RR_MAX_MS;
     maxDiffMs := DEFAULT_RR_MAX_DIFF_MS;
     maxDiffPct := DEFAULT_RR_MAX_DIFF_PCT;
     warmupBeats := 0; cascadeResetCount := 3 |}.

(** The comparisons [diff / ref > limit] and [diff / ref <= limit] of a
    difference [diff = |rr - ref|] as JavaScript evaluates them.  For a
    reference of 0 the quotient is [Infinity] when [diff] is positive,
    which is greater than every limit, and [NaN] when [diff] is 0, for
    which every comparison is false.  (The numbers of the model have no
    negative zero.) *)
Definition shareExceeds (diff ref limit : Q) : bool :=
  if Qeq_bool ref 0 then ltb 0 diff else ltb limit (diff / ref)%Q.

Definition shareWithin (diff ref limit : Q) : bool :=
  if Qeq_bool ref 0 then false else leb (diff / ref)%Q limit.

(** Both parts of a difference check: the absolute difference of [rr] to
    [ref] and its share of [ref]. *)
Definition exceedsDiff (o : ValidatorOptions) (rr ref : Q) : bool :=
  let diff := Math_abs (rr - ref)%Q in
  ltb (maxDiffMs o) diff || shareExceeds diff ref (maxDiffPct o).

Definition withinDiff (o : ValidatorOptions) (rr ref : Q) : bool :=
  let rejDiff := Math_abs (rr - ref)%Q in
  leb rejDiff (maxDiffMs o) && shareWithin rejDiff ref (maxDiffPct o).

(** How a beat that failed the difference check extends [rejectedRun]. *)
Definition trackRejected (o : ValidatorOptions) (rejectedRun : list Q) (rr : Q)
    : list Q :=
  match last rejectedRun with
  | None => [rr]
  | Some prevRejected =>
      if withinDiff o rr prevRejected then rejectedRun ++ [rr] else [rr]
  end.

(** [isValidRR(rr, lastValidRR, beatCount)], with the [rejectedRun] of the
    closure passed in and returned. *)
Definition isValidRR (o : ValidatorOptions) (rejectedRun : list Q) (rr : Q)
    (lastValidRR : option Q) (beatCount : nat) : bool * list Q :=
  if ltb rr (minMs o) || ltb (maxMs o) rr then (false, [])
  else if (beatCount <=? warmupBeats o)%nat then (false, rejectedRun)
  else
    match lastValidRR with
    | Some lastValid =>
        if exceedsDiff o rr lastValid then
          let run := trackRejected o rejectedRun rr in
          if (cascadeResetCount o <=? length run)%nat then (true, [])
          else (false, run)
        else (true, [])
    | None => (true, [])
    end.

(** *** createRRBuffer *)

Record Entry := { eTimestamp : Q; eRr : Q }.

(** The binary search of [push]: the [while (left < right)] loop.  The
    interval shrinks at every iteration, so [right - left] iterations are
    enough ([searchInsert_bound] below).  [mid] is in range, as
    [left <= mid < right <= buffer.length]. *)
Fixpoint searchLoop (fuel : nat) (buffer : list Entry) (timestamp : Q)
    (left right : nat) : nat :=
  match fuel with
  | O => left
  | S fuel' =>
      if (left <? right)%nat then
        let mid := ((left + right) / 2)%nat in
        match buffer !! mid with
        | Some e =>
            if ltb (eTimestamp e) timestamp
            then searchLoop fuel' buffer timestamp (mid + 1) right
            else searchLoop fuel' buffer timestamp left mid
        | None => left
        end
      else left
  end.

Definition searchInsert (buffer : list Entry) (timestamp : Q) : nat :=
  searchLoop (length buffer) buffer timestamp 0 (length buffer).

(** [buffer.splice(left, 0, entry)]. *)
Definition splice {A} (buffer : list A) (left : nat) (entry : A) : list A :=
  take left buffer ++ entry :: drop left buffer.

(** [push(rr, timestamp)] on a buffer of at most [maxSize] entries. *)
Definition push (maxSize : nat) (buffer : list Entry) (rr timestamp : Q)
    : list Entry :=
  let entry := {| eTimestamp := timestamp; eRr := rr |} in
  let buffer' := splice buffer (searchInsert buffer timestamp) entry in
  if (maxSize <? length buffer')%nat then tail buffer' else buffer'.

Definition getAll (buffer : list Entry) : list Q := map eRr buffer.

(** [getPreviousByTimestamp(timestamp)]: the scan from the last entry
    down to the first. *)
Definition getPreviousByTimestamp (buffer : list Entry) (timestamp : Q)
    : option Q :=
  eRr <$> List.find (fun e => ltb (eTimestamp e) timestamp) (rev buffer).

Definition clear (buffer : list Entry) : list Entry := [].

End Hrv.

(** ** postprocessor.js: one processing cycle of a device *)

Module Processing.
Import JS Lipponen.

Definition PROCESS_BUFFER_MS : Q := 120000.
Definition CONTEXT_BEATS : nat := 91.

(** A row of [queryBeatsBefore] and [queryBeatsAfter]: the queries select
    rows with [rr_interval > 0], so the interval is a number. *)
Record ContextBeat := { cTime : Q; cRr : Q }.

(** A target beat that has an RR interval. *)
Record TargetBeat := { tTime : Q; tRr : Q }.

Record CleanPoint := {
  cpTimestamp : Q;
  cpRrClean : Q;
  cpHrClean : Q;
  cpArtifactType : string
}.

Record InsertedPoint := {
  ipTimestamp : Q;
  ipRrClean : Q;
  ipArtifactType : string
}.

Inductive Effect :=
| WriteCleanFields (device : string) (points : list CleanPoint)
| WriteInsertedBeat (device : string) (ts rrClean : Q) (artifactType : string)
| QueryCleanBeats (device : string) (startMs endMs : Q)
| WriteSummary (device : string) (hrv : Server.HRV) (avgHR : Q)
    (sampleCount artifactCount : nat) (ts : Q)
| Log (kind : string).

(** [targetBeats.filter(b => b.rr_interval != null && b.rr_interval > 0)]. *)
Definition withRR (targetBeats : list Server.ExistingBeat) : list TargetBeat :=
  flat_map
    (fun b =>
       match Server.eRrInterval b with
       | Some rr =>
           if ltb 0 rr then [{| tTime := Server.time b; tRr := rr |}] else []
       | None => []
       end)
    targetBeats.

(** [Math.round(60000 / rr * 100) / 100]. *)
Definition hrClean (rr : Q) : Q := (Math_round (60000 / rr * 100) / 100)%Q.

(** The body of the loop over the target range: the clean point and the
    inserted point of one beat.  A 'missed' result carries a number (the
    classifier sets it to half the interval), read here with 0 for the
    [null] that does not occur. *)
Definition pointsOf (beat : TargetBeat) (result : Result)
    : list CleanPoint * list InsertedPoint :=
  if String.eqb (artifact_type result) "missed" then
    let halfRR := default 0%Q (rr_clean result) in
    ([{| cpTimestamp := tTime beat; cpRrClean := halfRR;
         cpHrClean := hrClean halfRR; cpArtifactType := "missed" |}],
     [{| ipTimestamp := (tTime beat + halfRR)%Q; ipRrClean := halfRR;
         ipArtifactType := "missed_inserted" |}])
  else if String.eqb (artifact_type result) "extra_absorbed" then
    ([{| cpTimestamp := tTime beat; cpRrClean := 0; cpHrClean := 0;
         cpArtifactType := "extra_absorbed" |}], [])
  else
    match rr_clean result with
    | Some v =>
        ([{| cpTimestamp := tTime beat; cpRrClean := v;
             cpHrClean := hrClean v;
             cpArtifactType := artifact_type result |}], [])
    | None => ([], [])
    end.

(** The loop [for (i = targetStartIdx; i < targetEndIdx; i++)]. *)
Definition buildPoints (targetWithRR : list TargetBeat)
    (results : list Result) (targetStartIdx : nat)
    : list CleanPoint * list InsertedPoint :=
  fold_left
    (fun acc i =>
       match targetWithRR !! (i - targetStartIdx)%nat, results !! i with
       | Some beat, Some result =>
           let '(clean, inserted) := pointsOf beat result in
           (fst acc ++ clean, snd acc ++ inserted)
       | _, _ => acc
       end)
    (seq targetStartIdx (length targetWithRR)) ([], []).

(** What the store answers during one cycle: the three context queries
    ([None] when one of them throws), whether [writeCleanFields] succeeds,
    and the clean beats of a window ([None] when the query throws). *)
Record StoreAnswers := {
  contextAnswer :
    option (list ContextBeat * list Server.ExistingBeat * list ContextBeat);
  cleanFieldsWritten : bool;
  cleanBeatsAnswer : Q -> Q -> option (list Q)
}.

Section Cycle.

Variable calculateHRV : list Q -> Server.HRV.

(** [summaryIntervalMs], 300000 by default; the clock when the cycle
    starts and when the summaries are recomputed. *)
Variable SUMMARY_INTERVAL_MS : Q.
Variable now : Q.
Variable nowSummaries : Q.

(** The loop of [recomputeSummaries] from [ws]: what was done, the number
    of summaries written, and whether the loop completed ([false] when a
    query threw).  The windows are [SUMMARY_INTERVAL_MS] apart, so for a
    positive interval the loop runs once per window. *)
Fixpoint summaryLoop (fuel : nat) (store : StoreAnswers) (device : string)
    (ws windowEnd : Q) : list Effect * nat * bool :=
  match fuel with
  | O => ([], 0%nat, true)
  | S fuel' =>
      if ltb ws windowEnd then
        let we := (ws + SUMMARY_INTERVAL_MS)%Q in
        let '(effs, n, ok) := summaryLoop fuel' store device we windowEnd in
        if ltb nowSummaries we then (effs, n, ok)
        else
          let query := QueryCleanBeats device ws we in
          match cleanBeatsAnswer store ws we with
          | None => ([query], 0%nat, false)
          | Some rrValues =>
              if (length rrValues <? 10)%nat then (query :: effs, n, ok)
              else
                let hrv := calculateHRV rrValues in
                match Server.rmssd hrv with
                | None => (query :: effs, n, ok)
                | Some _ =>
                    let avgHR :=
                      Math_round
                        (60000 / (fold_left Qplus rrValues 0
                                  / num_of_nat (length rrValues)))%Q in
                    (query
                     :: WriteSummary device hrv avgHR (length rrValues) 0 we
                     :: effs, S n, ok)
                end
          end
      else ([], 0%nat, true)
  end.

Definition recomputeSummaries (store : StoreAnswers) (device : string)
    (startMs endMs : Q) : list Effect * bool :=
  let first := Qfloor (startMs / SUMMARY_INTERVAL_MS) in
  let last := Qfloor (endMs / SUMMARY_INTERVAL_MS) in
  let windowStart := (inject_Z first * SUMMARY_INTERVAL_MS)%Q in
  let windowEnd := ((inject_Z last + 1) * SUMMARY_INTERVAL_MS)%Q in
  let '(effs, summariesWritten, ok) :=
    summaryLoop (Z.to_nat (last + 1 - first)) store device windowStart
      windowEnd in
  (effs ++ (if ok && (0 <? summariesWritten)%nat
            then [Log "wrote summaries"] else []),
   ok).

(** [processDevice(device)]: the new state, what was done, and whether
    the cycle completed ([false] when it threw; [tick] catches and logs
    that). *)
Definition processDevice (store : StoreAnswers)
    (deviceState : gmap string PostProcessor.DeviceState) (device : string)
    : gmap string PostProcessor.DeviceState * list Effect * bool :=
  match deviceState !! device with
  | None => (deviceState, [], true)
  | Some state =>
      let cutoff := (now - PROCESS_BUFFER_MS)%Q in
      let lastProcessedMs := PostProcessor.lastProcessedMs state in
      if leb cutoff lastProcessedMs then (deviceState, [], true)
      else
        let targetStart := lastProcessedMs in
        let targetEnd := cutoff in
        let advanced :=
          <[device := {| PostProcessor.lastProcessedMs := targetEnd |}]>
            deviceState in
        match contextAnswer store with
        | None => (deviceState, [], false)
        | Some (leftContext, targetBeats, rightContext) =>
            let targetWithRR := withRR targetBeats in
            if (length targetWithRR =? 0)%nat then (advanced, [], true)
            else
              let leftRR := map cRr leftContext in
              let targetRR := map tRr targetWithRR in
              let rightRR :=
                List.filter (fun rr => ltb 0 rr) (map cRr rightContext) in
              let fullRR := leftRR ++ targetRR ++ rightRR in
              if (length fullRR <? 4)%nat then (advanced, [], true)
              else
                let analysis := analyzeRR fullRR in
                let targetStartIdx := length leftRR in
                let '(cleanPoints, insertedPoints) :=
                  buildPoints targetWithRR (results analysis)
                    targetStartIdx in
                let cleanWrite :=
                  if (0 <? length cleanPoints)%nat
                  then [WriteCleanFields device cleanPoints] else [] in
                if (0 <? length cleanPoints)%nat
                   && negb (cleanFieldsWritten store)
                then (deviceState, cleanWrite, false)
                else
                  let inserts :=
                    map (fun p => WriteInsertedBeat device (ipTimestamp p)
                                    (ipRrClean p) (ipArtifactType p))
                        insertedPoints in
                  let effs := cleanWrite ++ inserts ++ [Log "processed"] in
                  let '(summaries, ok) :=
                    recomputeSummaries store device targetStart targetEnd in
                  (advanced, effs ++ summaries, ok)
        end
  end.

End Cycle.

End Processing.

(** ** influx.js: the chunked write *)

Module Influx.

Definition BATCH_CHUNK_SIZE : nat := 5000.

(** The chunks [points.slice(i, i + size)] for [i = 0, size, 2 * size, ...]
    below [points.length]; each chunk takes at least one point when
    [size] is positive, so [points.length] iterations are enough. *)
Fixpoint chunksFrom {A} (fuel size : nat) (points : list A)
    : list (list A) :=
  match fuel with
  | O => []
  | S fuel' =>
      match points with
      | [] => []
      | _ => take size points :: chunksFrom fuel' size (drop size points)
      end
  end.

Definition chunks {A} (size : nat) (points : list A) : list (list A) :=
  chunksFrom (length points) size points.

(** [chunkedWrite(points, label)]: [writePoints] is called chunk by chunk
    until one fails; [written k] says whether the call for chunk [k]
    succeeds.  The result is the chunks sent and whether the write
    completed (otherwise the error is logged and thrown again). *)
Fixpoint writeChunks {A} (written : nat -> bool) (k : nat)
    (cs : list (list A)) : list (list A) * bool :=
  match cs with
  | [] => ([], true)
  | c :: rest =>
      if written k then
        let '(sent, ok) := writeChunks written (S k) rest in (c :: sent, ok)
      else ([c], false)
  end.

Definition chunkedWrite {A} (written : nat -> bool) (points : list A)
    : list (list A) * bool :=
  writeChunks written 0 (chunks BATCH_CHUNK_SIZE points).

End Influx.

(** ** Vocabulary of the properties *)

Import JS Lipponen.

Definition positive (x : Q) : Prop := (0 < x)%Q.

(** The values [classifications] can hold, and the artifact types of the
    final results. *)
Definition baseTypes : list string :=
  ["none"; "missed"; "extra"; "extra_absorbed"; "longshort"].

Definition artifactTypes : list string :=
  ["none"; "ectopic"; "missed"; "extra"; "extra_absorbed"; "longshort"].

(** What holds of the walk's state at every iteration. *)
Record WalkInv (s : Series) (w : Walk) : Prop := {
  inv_length : length (classifications w) = sn s;
  inv_types : Forall (fun c => c ∈ baseTypes) (classifications w);
  inv_pairs :
    Forall (fun p => (fst p < sn s)%nat /\ (snd p < sn s)%nat) (ectopicPairs w)
}.

(** What the first correction loop does to the result at [idx], given its
    classification [c]. *)
Definition correctOne (s : Series) (c : string) (idx : nat) (r : Result)
    : Result :=
  if String.eqb c "missed" then
    set_rr_clean r (Some (get (srr s) idx / 2)%Q)
  else if String.eqb c "extra" then
    if (idx + 1 <? sn s)%nat
    then set_rr_clean r (Some (get (srr s) idx + get (srr s) (idx + 1))%Q)
    else r
  else if String.eqb c "extra_absorbed" then set_rr_clean r None
  else if String.eqb c "longshort" then
    set_rr_clean r (Some (get (smedrr s) idx))
  else r.

(** A result has one of the six artifact types, and its [rr_clean] is
    [null] exactly when it is an absorbed extra beat. *)
Definition Shape (r : Result) : Prop :=
  artifact_type r ∈ artifactTypes
  /\ (rr_clean r = None <-> artifact_type r = "extra_absorbed").

Definition PosClean (r : Result) : Prop :=
  forall v, rr_clean r = Some v -> positive v.

(** A series with a premature beat followed by a compensatory pause, and
    the walk when it reaches the pause. *)
Definition prematureBeat : list Q :=
  [800; 810; 805; 795; 800; 500; 1100; 800; 805; 795; 800; 810]%Q.

Definition atPrematureBeat : Walk :=
  {| wi := 6; classifications := replicate 12 "none"; ectopicPairs := [] |}.

Import Server.

(** The timestamps of the raw beats a handler writes, in order. *)
Definition rawBeatTimestamps (effs : list Effect) : list Q :=
  flat_map (fun e => match e with
                     | WriteRawBeat _ ts _ _ _ _ => [ts]
                     | _ => []
                     end) effs.

(** The series [t, t + rr[0], t + rr[0] + rr[1], ...], one entry per
    interval. *)
Fixpoint beatSeries (t : Q) (rrs : list Q) : list Q :=
  match rrs with
  | [] => []
  | rr :: rest => t :: beatSeries (t + rr)%Q rest
  end.

(** The series as the loop of POST /beats computes it, from the
    cumulative offset [c]. *)
Fixpoint offsetSeries (t c : Q) (rrs : list Q) : list Q :=
  match rrs with
  | [] => []
  | rr :: rest => (t + c)%Q :: offsetSeries t (c + rr)%Q rest
  end.

Definition strictlyIncreasing (l : list Q) : Prop :=
  forall i a b, l !! i = Some a -> l !! S i = Some b -> (a < b)%Q.

Definition nonDecreasing (l : list Q) : Prop :=
  forall i a b, l !! i = Some a -> l !! S i = Some b -> (a <= b)%Q.

(** [Number.isSafeInteger]: an integer of at most [2^53 - 1] in absolute
    value.  A sum or difference of safe integers that is a safe integer
    is computed without rounding. *)
Definition isSafeInteger (x : Q) : bool :=
  Qeq_bool (inject_Z (Qfloor x)) x && leb (Math_abs x) 9007199254740991.

(** The values [cumulativeRR] takes in the loop of POST /beats, from [c]. *)
Fixpoint runningSums (c : Q) (rrs : list Q) : list Q :=
  match rrs with
  | [] => [c]
  | rr :: rest => c :: runningSums (c + rr)%Q rest
  end.

(** Every number the handler of POST /beats computes from the timestamp
    [t] and the intervals is a safe integer, so that its sums are exact. *)
Definition exactBeats (t : Q) (rrs : list Q) : bool :=
  isSafeInteger t && forallb isSafeInteger rrs
  && forallb isSafeInteger (runningSums 0 rrs)
  && forallb (fun c => isSafeInteger (t + c)) (runningSums 0 rrs).

(** [p] falls within one of the gaps, with the tolerance of 300 ms. *)
Definition fallsInGap (gaps : list Gap) (p : Point) : Prop :=
  exists g, g ∈ gaps
            /\ (gStart g - 300 <= timestamp p)%Q
            /\ (timestamp p <= gEnd g + 300)%Q.

(** [p] counts as new: nothing exists in the queried range, or [p] falls
    within a detected gap. *)
Definition countedNew (existing : list ExistingBeat) (firstTs lastTs : Q)
    (p : Point) : Prop :=
  existing = [] \/ fallsInGap (detectGaps existing firstTs lastTs) p.

(** The test [selectNew] applies to each incoming point. *)
Definition keepNew (existing : list ExistingBeat) (firstTs lastTs : Q)
    (p : Point) : bool :=
  (length existing =? 0)%nat
  || existsb (inGap p) (detectGaps existing firstTs lastTs).

(** The three kinds of gaps of the batch deduplicator. *)
Definition interiorGap (existing : list ExistingBeat) (g : Gap) : Prop :=
  exists i e e',
    existing !! i = Some e /\ existing !! S i = Some e'
    /\ (300 < time e' - expectedNext e)%Q
    /\ g = {| gStart := expectedNext e; gEnd := time e' |}.

Definition leadingGap (existing : list ExistingBeat) (firstTs : Q) (g : Gap)
    : Prop :=
  exists e0,
    head existing = Some e0 /\ (firstTs < time e0 - 300)%Q
    /\ g = {| gStart := firstTs; gEnd := time e0 |}.

Definition trailingGap (existing : list ExistingBeat) (lastTs : Q) (g : Gap)
    : Prop :=
  exists lastEx,
    last existing = Some lastEx /\ (expectedNext lastEx + 300 < lastTs)%Q
    /\ g = {| gStart := expectedNext lastEx; gEnd := (lastTs + 2000)%Q |}.

(** Concrete requests and states. *)
Definition processedUpTo5000 : gmap string PostProcessor.DeviceState :=
  {[ "H10" := {| PostProcessor.lastProcessedMs := 5000%Q |} ]}.

Definition emptyState : State :=
  {| deviceState := ∅; latestBeatData := ∅; relayState := ∅ |}.

Definition noHRV (rrs : list Q) : HRV := nullHRV.

Definition beatsRequest (device : option string) (ts : option Q)
    (rrs : option (list Q)) : BeatsRequest :=
  {| rqSource := Some "relay-1"; rqDevice := device; rqTimestamp := ts;
     rqHeartRate := Some 75%Q; rqRrIntervals := rrs;
     rqPosture := Some "sitting"; rqRssi := None |}.

Definition batchRequest (device : option string) (beats : list BatchBeat)
    : BatchRequest :=
  {| bqSource := Some "ios"; bqDevice := device; bqBeats := Some beats |}.

Definition batchBeat (ts : Q) (rrs : list Q) : BatchBeat :=
  {| bTimestamp := Some ts; bHeartRate := None; bRrIntervals := Some rrs |}.

Definition existingBeat (ts rr : Q) : ExistingBeat :=
  {| time := ts; eRrInterval := Some rr; eRrClean := None |}.

(** A store with two beats one second apart from a gap, a store whose
    dedup query times out, and a batch of three beats. *)
Definition gapStore : StoreAnswers :=
  {| lastProcessedAnswer := None;
     rawBeatsAnswer := Some [existingBeat 0 1000; existingBeat 2000 1000];
     rawBatchWritten := true |}.

Definition queryTimeoutStore (written : bool) : StoreAnswers :=
  {| lastProcessedAnswer := None; rawBeatsAnswer := None;
     rawBatchWritten := written |}.

Definition threeBeats : BatchRequest :=
  batchRequest (Some "H10")
    [batchBeat 0 [1000%Q]; batchBeat 1000 [1000%Q]; batchBeat 2000 [1000%Q]].

(** A timestamp before the first time value of a [Date], and a batch of
    one beat at that timestamp. *)
Definition beforeTimeRange : Q := -9000000000000000.

Definition ancientBatch : BatchRequest :=
  batchRequest (Some "H10") [batchBeat beforeTimeRange [800%Q]].

(** Vocabulary for lipponen.js. *)

Definition between (lo hi x : Q) : Prop := (lo <= x)%Q /\ (x <= hi)%Q.

(** Successive differences of at most [d] in absolute value. *)
Definition calm (d : Q) (rr : list Q) : Prop :=
  forall i, (1 <= i < length rr)%nat ->
    (Qabs (get rr i - get rr (i - 1)) <= d)%Q.

(** What holds of the walk's state about the end of the series: from
    index [n - 1] on, a beat is 'none' or 'extra_absorbed', and no ectopic
    pair reaches [n - 2]. *)
Record TailInv (s : Series) (w : Walk) : Prop := {
  tail_types :
    forall k c, classifications w !! k = Some c -> (sn s - 1 <= k)%nat ->
      c = "none" \/ c = "extra_absorbed";
  tail_pairs :
    Forall (fun p => (fst p < sn s - 2)%nat /\ (snd p < sn s - 2)%nat)
      (ectopicPairs w)
}.

(** Vocabulary for hrv.js. *)

(** The buffer is in timestamp order. *)
Definition byTimestamp (a b : Hrv.Entry) : Prop :=
  (Hrv.eTimestamp a <= Hrv.eTimestamp b)%Q.

Definition sortedBuffer (buffer : list Hrv.Entry) : Prop :=
  StronglySorted byTimestamp buffer.

(** [rr] passes the range check of the validator. *)
Definition inRange (o : Hrv.ValidatorOptions) (rr : Q) : Prop :=
  (Hrv.minMs o <= rr)%Q /\ (rr <= Hrv.maxMs o)%Q.

(** Each beat agrees with the one before it. *)
Fixpoint agreeingRun (o : Hrv.ValidatorOptions) (prev : Q) (rrs : list Q)
    : Prop :=
  match rrs with
  | [] => True
  | rr :: rest => Hrv.withinDiff o rr prev = true /\ agreeingRun o rr rest
  end.

(** The validator called on consecutive beats while the last valid RR
    stays [lastValidRR]: the verdicts and the final [rejectedRun]. *)
Fixpoint validateAll (o : Hrv.ValidatorOptions) (rejectedRun : list Q)
    (lastValidRR : option Q) (beatCount : nat) (rrs : list Q)
    : list bool * list Q :=
  match rrs with
  | [] => ([], rejectedRun)
  | rr :: rest =>
      let '(valid, run) :=
        Hrv.isValidRR o rejectedRun rr lastValidRR beatCount in
      let '(verdicts, run') :=
        validateAll o run lastValidRR (S beatCount) rest in
      (valid :: verdicts, run')
  end.

(** What holds of [rejectedRun] between calls: its beats passed the range
    check, each agrees with the one before it, and it is shorter than the
    cascade count unless it is empty. *)
Definition runOk (o : Hrv.ValidatorOptions) (run : list Q) : Prop :=
  Forall (inRange o) run
  /\ match run with [] => True | rr :: rest => agreeingRun o rr rest end
  /\ (run = [] \/ (length run < Hrv.cascadeResetCount o)%nat).

(** A validator as the server configures it, and three beats around
    1000 ms after a valid beat of 700 ms. *)
Definition serverValidator : Hrv.ValidatorOptions :=
  {| Hrv.minMs := 300; Hrv.maxMs := 2000; Hrv.maxDiffMs := 200;
     Hrv.maxDiffPct := 0.20; Hrv.warmupBeats := 10;
     Hrv.cascadeResetCount := 3 |}.

Definition shiftedBeats : list Q := [1000; 1010; 990]%Q.

(** Vocabulary for the ingest handlers. *)

(** The state of a device as [getDeviceState] would return it. *)
Definition deviceStateOf (st : State) (device : string) : DeviceState :=
  default newDeviceState (deviceState st !! device).

(** The timestamps of a handler's calls of [writeRealtime]. *)
Definition realtimeTimestamps (effs : list Effect) : list Q :=
  flat_map (fun e => match e with
                     | WriteRealtime _ ts _ _ => [ts]
                     | _ => []
                     end) effs.

(** The sorted incoming points of a batch request, and their first and
    last timestamps. *)
Definition incomingOf (req : BatchRequest) : list Point :=
  sort_by timestamp (flattenBeats (bqSource req) (default [] (bqBeats req))).

Definition firstTsOf (incoming : list Point) : Q :=
  default 0%Q (timestamp <$> head incoming).

Definition lastTsOf (incoming : list Point) : Q :=
  default 0%Q (timestamp <$> last incoming).

(** The points a handler sends to [writeRawBatch]. *)
Definition batchWrites (effs : list Effect) : list (list Point) :=
  flat_map (fun e => match e with
                     | WriteRawBatch _ points => [points]
                     | _ => []
                     end) effs.

(** The existing beats leave no gap for a batch from [firstTs] to
    [lastTs]. *)
Definition denselyCovered (existing : list ExistingBeat) (firstTs lastTs : Q)
    : Prop :=
  existing <> []
  /\ forall g, ~ (leadingGap existing firstTs g \/ interiorGap existing g
                  \/ trailingGap existing lastTs g).

Definition byPointTimestamp (a b : Point) : Prop :=
  (timestamp a <= timestamp b)%Q.

(** A store that already holds the three beats of [threeBeats]. *)
Definition denseStore : StoreAnswers :=
  {| lastProcessedAnswer := Some 5000%Q;
     rawBeatsAnswer :=
       Some [existingBeat 0 1000; existingBeat 1000 1000;
             existingBeat 2000 1000];
     rawBatchWritten := true |}.

Definition beatWithoutTimestamp : BatchBeat :=
  {| bTimestamp := None; bHeartRate := None; bRrIntervals := Some [1000%Q] |}.

(** Vocabulary for the processing cycle and the chunked write. *)

(** A clean point as the cycle writes it: absorbed beats carry the
    sentinel 0, every other point a positive interval and its heart
    rate. *)
Definition wellFormedClean (p : Processing.CleanPoint) : Prop :=
  Processing.cpArtifactType p ∈ artifactTypes
  /\ if String.eqb (Processing.cpArtifactType p) "extra_absorbed"
     then Processing.cpRrClean p = 0%Q /\ Processing.cpHrClean p = 0%Q
     else positive (Processing.cpRrClean p)
          /\ Processing.cpHrClean p
             = Processing.hrClean (Processing.cpRrClean p).

(** An inserted point is the second half of a 'missed' clean point. *)
Definition splitOf (clean : list Processing.CleanPoint)
    (q : Processing.InsertedPoint) : Prop :=
  Processing.ipArtifactType q = "missed_inserted"
  /\ exists p, p ∈ clean
       /\ Processing.cpArtifactType p = "missed"
       /\ Processing.ipRrClean q = Processing.cpRrClean p
       /\ Processing.ipTimestamp q
          = (Processing.cpTimestamp p + Processing.cpRrClean p)%Q.

Definition missedPoints (clean : list Processing.CleanPoint)
    : list Processing.CleanPoint :=
  List.filter (fun p => String.eqb (Processing.cpArtifactType p) "missed")
    clean.

(** What the summary loop does from window number [k] on: queries for
    [device], and summaries of windows of the grid that are complete at
    [clock], start before [windowEnd] and hold at least ten clean beats. *)
Definition loopEffect (calculateHRV : list Q -> HRV) (W clock : Q)
    (store : Processing.StoreAnswers) (device : string) (k : Z)
    (windowEnd : Q) (e : Processing.Effect) : Prop :=
  match e with
  | Processing.QueryCleanBeats d _ _ => d = device
  | Processing.WriteSummary d hrv _ sampleCount artifactCount ts =>
      d = device /\ artifactCount = 0%nat /\ (ts <= clock)%Q
      /\ exists (ws : Q) (j : Z) (rrValues : list Q),
           ts = (ws + W)%Q /\ (ws == inject_Z j * W)%Q /\ (k <= j)%Z
           /\ (ws < windowEnd)%Q
           /\ Processing.cleanBeatsAnswer store ws ts = Some rrValues
           /\ hrv = calculateHRV rrValues
           /\ sampleCount = length rrValues
           /\ (10 <= length rrValues)%nat
           /\ is_Some (rmssd hrv)
  | _ => False
  end.

(** What [recomputeSummaries] may do for the range from [startMs] to
    [endMs]: a summary is stamped with the end of a complete window of
    the grid that overlaps the range. *)
Definition summaryEffect (W clock : Q) (device : string) (startMs endMs : Q)
    (e : Processing.Effect) : Prop :=
  match e with
  | Processing.QueryCleanBeats d _ _ => d = device
  | Processing.WriteSummary d hrv _ sampleCount artifactCount ts =>
      d = device /\ artifactCount = 0%nat /\ (10 <= sampleCount)%nat
      /\ is_Some (rmssd hrv)
      /\ (ts <= clock)%Q /\ (startMs < ts)%Q /\ (ts - W <= endMs)%Q
      /\ exists j : Z, (ts == inject_Z j * W)%Q
  | Processing.Log _ => True
  | _ => False
  end.

Definition isCleanWrite (e : Processing.Effect) : Prop :=
  match e with Processing.WriteCleanFields _ _ => True | _ => False end.

(** A chunk of a write holds between one and [size] points. *)
Definition chunkOf {A} (size : nat) (c : list A) : Prop :=
  (0 < length c <= size)%nat.

(** Inputs of the examples. *)
Definition steadyHRV (rrs : list Q) : HRV :=
  {| rmssd := Some 0%Q; sdnn := Some 0%Q; pnn50 := Some 0%Q |}.

Definition tenBeatStore : Processing.StoreAnswers :=
  {| Processing.contextAnswer := None;
     Processing.cleanFieldsWritten := true;
     Processing.cleanBeatsAnswer := fun _ _ => Some (repeat 800%Q 10) |}.

Definition missedBeatTarget : list Processing.TargetBeat :=
  [ {| Processing.tTime := 1000; Processing.tRr := 605 |};
    {| Processing.tTime := 1612; Processing.tRr := 612 |};
    {| Processing.tTime := 2822; Processing.tRr := 1210 |};
    {| Processing.tTime := 3420; Processing.tRr := 598 |};
    {| Processing.tTime := 4030; Processing.tRr := 610 |} ]%Q.

Definition failingCleanStore : Processing.StoreAnswers :=
  {| Processing.contextAnswer :=
       Some ([],
             [ {| time := 1000; eRrInterval := Some 605; eRrClean := None |};
               {| time := 1612; eRrInterval := Some 612; eRrClean := None |};
               {| time := 2822; eRrInterval := Some 1210; eRrClean := None |};
               {| time := 3420; eRrInterval := Some 598; eRrClean := None |};
               {| time := 4030; eRrInterval := Some 610; eRrClean := None |}
             ]%Q,
             []);
     Processing.cleanFieldsWritten := false;
     Processing.cleanBeatsAnswer := fun _ _ => Some [] |}.

(** * Properties *)

(** ** Numbers and arrays *)

Section JSFacts.

Lemma ltb_iff (a b : Q) : ltb a b = true <-> (a < b)%Q.
Proof.
  unfold ltb. rewrite negb_true_iff, <- not_true_iff_false, Qle_bool_iff.
  split; [apply Qnot_le_lt | apply Qlt_not_le].
Qed.

Lemma leb_iff (a b : Q) : leb a b = true <-> (a <= b)%Q.
Proof. apply Qle_bool_iff. Qed.

Lemma get_lookup (l : list Q) (i : nat) (x : Q) :
  l !! i = Some x -> get l i = x.
Proof. intros H. unfold get. by rewrite nth_lookup, H. Qed.

Lemma get_Forall (P : Q -> Prop) (l : list Q) (i : nat) :
  Forall P l -> (i < length l)%nat -> P (get l i).
Proof.
  intros HP Hi. destruct (lookup_lt_is_Some_2 l i Hi) as [x Hx].
  rewrite (get_lookup _ _ _ Hx). eapply Forall_lookup_1; eauto.
Qed.

Lemma get_map_seq (f : nat -> Q) (n i : nat) :
  (i < n)%nat -> get (map f (seq 0 n)) i = f i.
Proof.
  intros Hi. apply get_lookup.
  rewrite list_lookup_fmap, lookup_seq_lt by done. done.
Qed.

Context {A : Type} (key : A -> Q).

Lemma insert_by_length (x : A) (l : list A) :
  length (insert_by key x l) = S (length l).
Proof.
  induction l as [|y l IH]; simpl; [done|].
  destruct (Qle_bool (key x) (key y)); simpl; by rewrite ?IH.
Qed.

Lemma sort_by_length (l : list A) : length (sort_by key l) = length l.
Proof.
  induction l as [|x l IH]; simpl; [done|].
  rewrite insert_by_length. by f_equal.
Qed.

Lemma insert_by_Forall (P : A -> Prop) (x : A) (l : list A) :
  P x -> Forall P l -> Forall P (insert_by key x l).
Proof.
  intros Hx. induction 1 as [|y l Hy Hl IH]; simpl.
  - by constructor.
  - destruct (Qle_bool (key x) (key y)); repeat constructor; done.
Qed.

Lemma sort_by_Forall (P : A -> Prop) (l : list A) :
  Forall P l -> Forall P (sort_by key l).
Proof.
  induction 1 as [|x l Hx Hl IH]; simpl; [constructor|].
  by apply insert_by_Forall.
Qed.

Lemma insert_by_Permutation (x : A) (l : list A) :
  insert_by key x l ≡ₚ x :: l.
Proof.
  induction l as [|y l IH]; simpl; [done|].
  destruct (Qle_bool (key x) (key y)); [done|].
  rewrite IH. apply Permutation_swap.
Qed.

Lemma sort_by_Permutation (l : list A) : sort_by key l ≡ₚ l.
Proof.
  induction l as [|x l IH]; simpl; [done|].
  rewrite insert_by_Permutation. by constructor.
Qed.

Lemma slice_Forall (P : A -> Prop) (l : list A) (a b : nat) :
  Forall P l -> Forall P (slice l a b).
Proof. intros H. unfold slice. by apply Forall_take, Forall_drop. Qed.

Lemma slice_length (l : list A) (a b : nat) :
  length (slice l a b) = Nat.min (b - a) (length l - a).
Proof. unfold slice. by rewrite length_take, length_drop. Qed.

End JSFacts.

(** ** The local median is positive on positive input *)

Lemma half_sum_positive (x y : Q) :
  positive x -> positive y -> positive ((x + y) / 2).
Proof. unfold positive. intros. apply Qlt_shift_div_l; lra. Qed.

Lemma half_positive (x : Q) : positive x -> positive (x / 2).
Proof. unfold positive. intros. apply Qlt_shift_div_l; lra. Qed.

Lemma median_positive (arr : list Q) :
  arr <> [] -> Forall positive arr -> positive (median arr).
Proof.
  intros Hne Hpos. unfold median.
  destruct arr as [|x arr']; [done|].
  set (arr := x :: arr') in *.
  change (length arr =? 0)%nat with false. cbv iota.
  assert (Hlen : length (sort_num arr) = length arr)
    by apply sort_by_length.
  assert (Hs : Forall positive (sort_num arr)) by by apply sort_by_Forall.
  assert (Hn : (0 < length arr)%nat) by (simpl; lia).
  assert (Hmid : (length (sort_num arr) / 2 < length (sort_num arr))%nat)
    by (apply Nat.div_lt; lia).
  destruct (negb _).
  - by apply get_Forall.
  - apply half_sum_positive; apply get_Forall; auto; lia.
Qed.

Lemma rollingCentered_length {B} (arr : list Q) (k : nat) (fn : list Q -> B) :
  length (rollingCentered arr k fn) = length arr.
Proof. unfold rollingCentered. by rewrite length_map, length_seq. Qed.

Lemma medrr_positive (rr : list Q) (i : nat) :
  Forall positive rr -> (i < length rr)%nat ->
  positive (get (rollingCentered rr MEDIAN_WINDOW median) i).
Proof.
  intros Hpos Hi. unfold rollingCentered.
  rewrite get_map_seq by done.
  apply median_positive.
  - intros Hnil. apply (f_equal length) in Hnil.
    rewrite slice_length in Hnil. simpl in Hnil.
    change (MEDIAN_WINDOW / 2)%nat with 5%nat in Hnil. lia.
  - by apply slice_Forall.
Qed.

(** ** The classification walk *)

Ltac solve_elem :=
  repeat first [ apply list_elem_of_here | apply list_elem_of_further ].

Lemma candidates_range (s : Series) (i j : nat) :
  j ∈ candidates s i -> j = i \/ j = (i + 1)%nat.
Proof.
  unfold candidates. rewrite elem_of_cons.
  destruct (_ && _); [rewrite list_elem_of_singleton | rewrite elem_of_nil];
    tauto.
Qed.

Lemma tryCandidates_Some (s : Series) (cands : list nat)
    (cls cls' : list string) (i' : nat) :
  tryCandidates s cands cls = Some (i', cls') ->
  (exists j, j ∈ cands /\ i' = (j + 2)%nat)
  /\ length cls' = length cls
  /\ (Forall (fun c => c ∈ baseTypes) cls ->
      Forall (fun c => c ∈ baseTypes) cls').
Proof.
  induction cands as [|j rest IH]; simpl; [done|].
  destruct (extraTest s j).
  { intros [= <- <-]. split; [exists j; split; [solve_elem|done]|].
    split; [by rewrite !length_insert|].
    intros H. repeat apply Forall_insert; auto; solve_elem. }
  destruct (missedTest s j).
  { intros [= <- <-]. split; [exists j; split; [solve_elem|done]|].
    split; [by rewrite !length_insert|].
    intros H. apply Forall_insert; auto; solve_elem. }
  intros H. destruct (IH H) as ((k & Hk & ->) & ? & ?).
  split; [exists k; split; [by apply list_elem_of_further|done]|]. done.
Qed.

Lemma walkStep_advances (s : Series) (w : Walk) :
  (wi w < wi (walkStep s w))%nat.
Proof.
  unfold walkStep.
  destruct (leb _ _); cbn [wi]; [lia|].
  destruct (isEctopic _ _); [destruct (0 <? wi w)%nat; cbn [wi]; lia|].
  destruct (isLongShortCandidate _ _); cbn [wi]; [|lia].
  destruct (tryCandidates _ _ _) as [[i' cls']|] eqn:Hc; cbn [wi]; [|lia].
  apply tryCandidates_Some in Hc as ((j & Hj & ->) & _).
  apply candidates_range in Hj. lia.
Qed.

Lemma walkStep_inv (s : Series) (w : Walk) :
  (wi w < sn s - 2)%nat -> WalkInv s w -> WalkInv s (walkStep s w).
Proof.
  intros Hi [Hlen Hty Hp]. unfold walkStep.
  destruct (leb _ _); [by constructor|].
  destruct (isEctopic _ _).
  { destruct (0 <? wi w)%nat; constructor; simpl; auto.
    - apply Forall_app; split; [done|]. repeat constructor; simpl; lia.
    - by rewrite length_insert.
    - apply Forall_insert; auto. solve_elem. }
  destruct (isLongShortCandidate _ _); [|by constructor].
  destruct (tryCandidates _ _ _) as [[i' cls']|] eqn:Hc.
  - apply tryCandidates_Some in Hc as (_ & Hl & Hf).
    constructor; simpl; auto. congruence.
  - constructor; simpl; auto.
    + by rewrite length_insert.
    + apply Forall_insert; auto. solve_elem.
Qed.

Lemma walk_inv (fuel : nat) (s : Series) (w : Walk) :
  WalkInv s w -> WalkInv s (walk fuel s w).
Proof.
  revert w. induction fuel as [|fuel IH]; intros w Hw; simpl; [done|].
  destruct (wi w <? sn s - 2)%nat eqn:Hlt; [|done].
  apply IH, walkStep_inv; [|done]. by apply Nat.ltb_lt.
Qed.

(** The loop is left with its condition false: the fuel is enough. *)
Lemma walk_exits (fuel : nat) (s : Series) (w : Walk) :
  (sn s - 2 - wi w <= fuel)%nat -> (sn s - 2 <= wi (walk fuel s w))%nat.
Proof.
  revert w. induction fuel as [|fuel IH]; intros w Hf; simpl; [lia|].
  destruct (wi w <? sn s - 2)%nat eqn:Hlt.
  - apply IH. pose proof (walkStep_advances s w). lia.
  - apply Nat.ltb_ge in Hlt. lia.
Qed.

(** More fuel changes nothing once the loop has been left. *)
Lemma walk_fuel_stable (fuel extra : nat) (s : Series) (w : Walk) :
  (sn s - 2 - wi w <= fuel)%nat -> walk (fuel + extra) s w = walk fuel s w.
Proof.
  revert w. induction fuel as [|fuel IH]; intros w Hf; simpl.
  - destruct extra; simpl; [done|].
    destruct (wi w <? sn s - 2)%nat eqn:Hlt; [|done].
    apply Nat.ltb_lt in Hlt. lia.
  - destruct (wi w <? sn s - 2)%nat eqn:Hlt; [|done].
    apply IH. pose proof (walkStep_advances s w). lia.
Qed.

Lemma classify_inv (s : Series) : WalkInv s (classify s).
Proof.
  apply walk_inv. constructor; simpl.
  - by rewrite length_replicate.
  - apply Forall_replicate. solve_elem.
  - constructor.
Qed.

Lemma classify_exits (s : Series) : (sn s - 2 <= wi (classify s))%nat.
Proof. apply walk_exits. simpl. lia. Qed.

(** ** The corrections *)

Lemma correctAt_insert (s : Series) (cls : list string) (res : list Result)
    (idx : nat) (r : Result) (c : string) :
  res !! idx = Some r -> cls !! idx = Some c ->
  correctAt s cls res idx = <[idx := correctOne s c idx r]> res.
Proof.
  intros Hr Hc. unfold correctAt, correctOne. rewrite Hr, Hc.
  repeat match goal with
         | |- context [if ?b then _ else _] => destruct b
         end; try done; by rewrite list_insert_id.
Qed.

Lemma correctAt_length (s : Series) (cls : list string) (res : list Result)
    (idx : nat) :
  length (correctAt s cls res idx) = length res.
Proof.
  unfold correctAt.
  destruct (res !! idx); [|done]. destruct (cls !! idx); [|done].
  repeat match goal with
         | |- context [if ?b then _ else _] => destruct b
         end; by rewrite ?length_insert.
Qed.

Lemma fold_correctAt_length (s : Series) (cls : list string) (idxs : list nat)
    (res : list Result) :
  length (fold_left (correctAt s cls) idxs res) = length res.
Proof.
  revert res. induction idxs as [|i idxs IH]; intros res; simpl; [done|].
  by rewrite IH, correctAt_length.
Qed.

Lemma correctAt_lookup (s : Series) (cls : list string) (res : list Result)
    (i j : nat) :
  length cls = length res ->
  correctAt s cls res i !! j =
  if decide (j = i)
  then correctOne s (default "none" (cls !! j)) j <$> res !! j
  else res !! j.
Proof.
  intros Hlen. destruct (res !! i) as [r|] eqn:Hr.
  - destruct (lookup_lt_is_Some_2 cls i) as [c Hc].
    { rewrite Hlen. by eapply lookup_lt_Some. }
    rewrite (correctAt_insert _ _ _ _ _ _ Hr Hc).
    case_decide as Hji.
    + subst j. rewrite list_lookup_insert_eq by by eapply lookup_lt_Some.
      by rewrite Hr, Hc.
    + by rewrite list_lookup_insert_ne.
  - unfold correctAt. rewrite Hr.
    case_decide as Hji; [subst j; by rewrite Hr | done].
Qed.

Lemma fold_correctAt_lookup (s : Series) (cls : list string) (idxs : list nat)
    (res : list Result) (j : nat) :
  NoDup idxs -> length cls = length res ->
  fold_left (correctAt s cls) idxs res !! j =
  if decide (j ∈ idxs)
  then correctOne s (default "none" (cls !! j)) j <$> res !! j
  else res !! j.
Proof.
  revert res.
  induction idxs as [|i idxs IH]; intros res Hnd Hlen; cbn [fold_left].
  { rewrite decide_False; [done | apply not_elem_of_nil]. }
  apply NoDup_cons in Hnd as [Hi Hnd].
  rewrite IH by (by rewrite ?correctAt_length).
  rewrite correctAt_lookup by done.
  destruct (decide (j ∈ idxs)) as [Hj|Hj].
  - rewrite decide_False by (intros ->; done).
    rewrite decide_True by (by apply list_elem_of_further). done.
  - destruct (decide (j = i)) as [->|Hji].
    + rewrite decide_True by apply list_elem_of_here. done.
    + rewrite decide_False; [done|].
      rewrite elem_of_cons. tauto.
Qed.

Lemma correctOne_Shape (s : Series) (c : string) (idx : nat) (v : Q) :
  c ∈ baseTypes ->
  Shape (correctOne s c idx {| rr_clean := Some v; artifact_type := c |}).
Proof.
  unfold baseTypes. rewrite !elem_of_cons, elem_of_nil.
  intros [->|[->|[->|[->|[->|[]]]]]]; unfold correctOne; simpl;
    try destruct (idx + 1 <? sn s)%nat;
    (split; [solve_elem | simpl; split; [done | intros [=]; done] ]).
Qed.

Lemma correctOne_PosClean (s : Series) (c : string) (idx : nat) (v : Q) :
  positive v ->
  positive (get (srr s) idx) ->
  ((idx + 1 < sn s)%nat -> positive (get (srr s) (idx + 1))) ->
  positive (get (smedrr s) idx) ->
  PosClean (correctOne s c idx {| rr_clean := Some v; artifact_type := c |}).
Proof.
  intros Hv Hrr Hnext Hmed. unfold correctOne, PosClean.
  repeat match goal with
         | |- context [if ?b then _ else _] => destruct b eqn:?
         end; simpl; intros v' [= <-]; auto.
  - by apply half_positive.
  - unfold positive in *.
    match goal with H : (_ <? _)%nat = true |- _ => apply Nat.ltb_lt in H end.
    specialize (Hnext ltac:(done)). lra.
Qed.

Lemma correctEctopic_length (s : Series) (res : list Result) (p : nat * nat) :
  length (correctEctopic s res p) = length res.
Proof. destruct p. unfold correctEctopic. by rewrite !length_insert. Qed.

Lemma fold_correctEctopic_length (s : Series) (pairs : list (nat * nat))
    (res : list Result) :
  length (fold_left (correctEctopic s) pairs res) = length res.
Proof.
  revert res. induction pairs as [|p pairs IH]; intros res; simpl; [done|].
  by rewrite IH, correctEctopic_length.
Qed.

(** An invariant of every result survives the ectopic overrides as soon as
    the overriding record satisfies it. *)
Lemma fold_correctEctopic_Forall (P : Result -> Prop) (s : Series)
    (pairs : list (nat * nat)) (res : list Result) :
  Forall (fun p =>
            P {| rr_clean := Some ((get (srr s) (fst p)
                                    + get (srr s) (snd p)) / 2)%Q;
                 artifact_type := "ectopic" |}) pairs ->
  Forall P res ->
  Forall P (fold_left (correctEctopic s) pairs res).
Proof.
  revert res. induction pairs as [|[a b] pairs IH]; intros res Hp Hres; simpl;
    [done|].
  apply Forall_cons in Hp as [Hab Hp].
  apply IH; [done|]. by repeat apply Forall_insert.
Qed.

(** ** Results of the classifier *)

Lemma initialResults_lookup (s : Series) (cls : list string) (j : nat) :
  (j < sn s)%nat ->
  initialResults s cls !! j =
  Some {| rr_clean := Some (get (srr s) j);
          artifact_type := default "none" (cls !! j) |}.
Proof.
  intros Hj. unfold initialResults.
  by rewrite list_lookup_fmap, lookup_seq_lt.
Qed.

Lemma correctedResults_length (s : Series) (w : Walk) :
  length (correctedResults s w) = sn s.
Proof.
  unfold correctedResults, initialResults.
  by rewrite fold_correctEctopic_length, fold_correctAt_length,
    length_map, length_seq.
Qed.

(** After the first loop, every result is the correction of the initial
    one at its index. *)
Lemma results1_lookup (s : Series) (cls : list string) (j : nat) (c : string) :
  length cls = sn s -> cls !! j = Some c ->
  fold_left (correctAt s cls) (seq 0 (sn s)) (initialResults s cls) !! j =
  Some (correctOne s c j {| rr_clean := Some (get (srr s) j);
                            artifact_type := c |}).
Proof.
  intros Hlen Hc.
  assert (Hj : (j < sn s)%nat) by (rewrite <- Hlen; by eapply lookup_lt_Some).
  rewrite fold_correctAt_lookup.
  - rewrite decide_True by (apply elem_of_seq; lia).
    by rewrite initialResults_lookup, Hc.
  - apply NoDup_seq.
  - unfold initialResults. by rewrite length_map, length_seq.
Qed.

Lemma results1_Forall (P : Result -> Prop) (s : Series) (cls : list string) :
  length cls = sn s ->
  (forall j c, cls !! j = Some c ->
     P (correctOne s c j {| rr_clean := Some (get (srr s) j);
                            artifact_type := c |})) ->
  Forall P (fold_left (correctAt s cls) (seq 0 (sn s)) (initialResults s cls)).
Proof.
  intros Hlen HP. apply Forall_lookup. intros j r Hr.
  assert (Hj : (j < length cls)%nat).
  { apply lookup_lt_Some in Hr.
    rewrite fold_correctAt_length in Hr. unfold initialResults in Hr.
    rewrite length_map, length_seq in Hr. lia. }
  destruct (lookup_lt_is_Some_2 _ _ Hj) as [c Hc].
  rewrite (results1_lookup _ _ _ _ Hlen Hc) in Hr.
  injection Hr as <-. by apply HP.
Qed.

Lemma ectopic_Shape (v : Q) :
  Shape {| rr_clean := Some v; artifact_type := "ectopic" |}.
Proof. split; [solve_elem | simpl; split; [done | intros [=]] ]. Qed.

Lemma correctedResults_Shape (s : Series) (w : Walk) :
  WalkInv s w -> Forall Shape (correctedResults s w).
Proof.
  intros [Hlen Hty _]. unfold correctedResults.
  apply fold_correctEctopic_Forall.
  - apply Forall_forall. intros p _. apply ectopic_Shape.
  - apply results1_Forall; [done|]. intros j c Hc.
    apply correctOne_Shape. exact (Forall_lookup_1 _ _ _ _ Hty Hc).
Qed.

Lemma correctedResults_PosClean (rr : list Q) (w : Walk) :
  Forall positive rr ->
  WalkInv (compute_series rr) w ->
  Forall PosClean (correctedResults (compute_series rr) w).
Proof.
  intros Hpos [Hlen _ Hpairs]. unfold correctedResults.
  set (s := compute_series rr) in *.
  assert (Hget : forall j, (j < sn s)%nat -> positive (get (srr s) j))
    by (intros j Hj; by apply get_Forall).
  apply fold_correctEctopic_Forall.
  - eapply Forall_impl; [exact Hpairs|]. intros [a b] [Ha Hb] v [= <-].
    apply half_sum_positive; by apply Hget.
  - apply results1_Forall; [done|]. intros j c Hc.
    assert (Hj : (j < sn s)%nat)
      by (rewrite <- Hlen; by eapply lookup_lt_Some).
    apply correctOne_PosClean; auto.
    by apply medrr_positive.
Qed.

Lemma emitClean_length (r : Result) :
  Shape r ->
  length (emitClean r) =
  if decide (artifact_type r = "extra_absorbed") then 0%nat
  else if decide (artifact_type r = "missed") then 2%nat else 1%nat.
Proof.
  intros [_ Hnull]. unfold emitClean.
  destruct (rr_clean r) as [v|].
  - rewrite decide_False by (intros H; apply Hnull in H; done).
    destruct (String.eqb_spec (artifact_type r) "missed").
    + by rewrite decide_True.
    + by rewrite decide_False.
  - rewrite decide_True; [done|]. by apply Hnull.
Qed.

Lemma countType_cons (t : string) (r : Result) (rs : list Result) :
  countType t (r :: rs) =
  ((if decide (artifact_type r = t) then 1 else 0) + countType t rs)%nat.
Proof.
  unfold countType. rewrite filter_cons. by case_decide.
Qed.

Lemma cleanSeries_length_Shape (rs : list Result) :
  Forall Shape rs ->
  length (flat_map emitClean rs) =
  (countType "none" rs + countType "ectopic" rs + countType "extra" rs
   + countType "longshort" rs + 2 * countType "missed" rs)%nat.
Proof.
  induction 1 as [|r rs Hr Hrs IH]; [done|].
  cbn [flat_map]. rewrite length_app, IH, !countType_cons.
  rewrite (emitClean_length r Hr).
  destruct Hr as [Hty _]. unfold artifactTypes in Hty.
  rewrite !elem_of_cons, elem_of_nil in Hty.
  destruct Hty as [->|[->|[->|[->|[->|[->|[]]]]]]]; simpl; lia.
Qed.

(** ** The classifier: claims C1 to C5 *)

Lemma analyzeRR_results_length (rr : list Q) :
  length (results (analyzeRR rr)) = length rr.
Proof.
  unfold analyzeRR. destruct (length rr <? 4)%nat; simpl.
  - by rewrite length_map.
  - by rewrite correctedResults_length.
Qed.

Lemma analyzeRR_Shape (rr : list Q) : Forall Shape (results (analyzeRR rr)).
Proof.
  unfold analyzeRR. destruct (length rr <? 4)%nat; simpl.
  - apply Forall_fmap, Forall_forall. intros v _.
    split; [solve_elem | simpl; split; [done | intros [=]] ].
  - apply correctedResults_Shape, classify_inv.
Qed.

Lemma analyzeRR_PosClean (rr : list Q) :
  Forall positive rr -> Forall PosClean (results (analyzeRR rr)).
Proof.
  intros Hpos. unfold analyzeRR. destruct (length rr <? 4)%nat; simpl.
  - apply Forall_fmap. eapply Forall_impl; [exact Hpos|].
    intros v Hv v' [= <-]. exact Hv.
  - apply correctedResults_PosClean; [done | apply classify_inv].
Qed.

(** C1: on fewer than four intervals, [analyzeRR] returns one result per
    input, with [rr_clean] the input value and [artifact_type] 'none', and
    a clean series equal to the input. *)
Theorem analyzeRR_short_input (rr : list Q) :
  (length rr < 4)%nat ->
  length (results (analyzeRR rr)) = length rr
  /\ (forall i v, rr !! i = Some v ->
        results (analyzeRR rr) !! i
        = Some {| rr_clean := Some v; artifact_type := "none" |})
  /\ cleanSeries (analyzeRR rr) = rr.
Proof.
  intros Hn. split; [apply analyzeRR_results_length|].
  unfold analyzeRR. apply Nat.ltb_lt in Hn. rewrite Hn. simpl.
  split; [|done]. intros i v Hv. by rewrite list_lookup_fmap, Hv.
Qed.

Lemma analyzeRR_short_input_witness :
  (length [800; 810; 790]%Q < 4)%nat
  /\ length (results (analyzeRR [800; 810; 790]%Q)) = 3%nat
  /\ (forall i v, [800; 810; 790]%Q !! i = Some v ->
        results (analyzeRR [800; 810; 790]%Q) !! i
        = Some {| rr_clean := Some v; artifact_type := "none" |})
  /\ cleanSeries (analyzeRR [800; 810; 790]%Q) = [800; 810; 790]%Q.
Proof.
  split; [simpl; lia|].
  apply (analyzeRR_short_input [800; 810; 790]%Q). simpl; lia.
Defined.

(** C2 (scenario "missed beat"): on [605, 612, 1210, 598, 610] the third
    beat is classified 'missed' with [rr_clean = 605], and the clean series
    is [605, 612, 605, 605, 598, 610]. *)
Theorem analyzeRR_missed_beat_scenario :
  let a := analyzeRR [605; 612; 1210; 598; 610]%Q in
  (artifact_type <$> results a !! 2%nat) = Some "missed"
  /\ (exists v, (rr_clean <$> results a !! 2%nat) = Some (Some v)
                /\ (v == 605)%Q)
  /\ Forall2 Qeq (cleanSeries a) [605; 612; 605; 605; 598; 610]%Q.
Proof.
  vm_compute. split; [reflexivity|]. split.
  - eexists. split; reflexivity.
  - repeat constructor.
Qed.

(** C3: on positive intervals every result has one of the six artifact
    types; its [rr_clean] is [null] when the type is 'extra_absorbed' and
    a positive number otherwise. *)
Theorem analyzeRR_results_well_formed (rr : list Q) :
  Forall positive rr ->
  length (results (analyzeRR rr)) = length rr
  /\ forall i r, results (analyzeRR rr) !! i = Some r ->
       artifact_type r ∈ artifactTypes
       /\ (artifact_type r = "extra_absorbed" -> rr_clean r = None)
       /\ (artifact_type r <> "extra_absorbed" ->
           exists v, rr_clean r = Some v /\ (0 < v)%Q).
Proof.
  intros Hpos. split; [apply analyzeRR_results_length|].
  intros i r Hr.
  destruct (Forall_lookup_1 _ _ _ _ (analyzeRR_Shape rr) Hr) as [Hty Hnull].
  pose proof (Forall_lookup_1 _ _ _ _ (analyzeRR_PosClean rr Hpos) Hr) as Hp.
  split; [done|]. split; [apply Hnull|].
  intros Hne. destruct (rr_clean r) as [v|] eqn:Hv.
  - exists v. split; [done|]. by apply Hp.
  - destruct Hne. by apply Hnull.
Qed.

Lemma analyzeRR_results_well_formed_witness :
  Forall positive [600; 300; 300; 600; 600]%Q
  /\ length (results (analyzeRR [600; 300; 300; 600; 600]%Q)) = 5%nat
  /\ forall i r,
       results (analyzeRR [600; 300; 300; 600; 600]%Q) !! i = Some r ->
       artifact_type r ∈ artifactTypes
       /\ (artifact_type r = "extra_absorbed" -> rr_clean r = None)
       /\ (artifact_type r <> "extra_absorbed" ->
           exists v, rr_clean r = Some v /\ (0 < v)%Q).
Proof.
  assert (H : Forall positive [600; 300; 300; 600; 600]%Q)
    by (repeat constructor).
  split; [exact H|].
  exact (analyzeRR_results_well_formed [600; 300; 300; 600; 600]%Q H).
Defined.

(** C4: the clean series has one entry per result of type 'none',
    'ectopic', 'extra' or 'longshort', two per 'missed' and none per
    'extra_absorbed'.  It holds of every input sequence. *)
Theorem analyzeRR_cleanSeries_length (rr : list Q) :
  let a := analyzeRR rr in
  length (cleanSeries a)
  = (countType "none" (results a) + countType "ectopic" (results a)
     + countType "extra" (results a) + countType "longshort" (results a)
     + 2 * countType "missed" (results a))%nat.
Proof.
  pose proof (analyzeRR_Shape rr) as HS. revert HS.
  unfold analyzeRR.
  destruct (length rr <? 4)%nat; cbn [results cleanSeries]; intros HS.
  - rewrite <- (cleanSeries_length_Shape _ HS).
    clear HS. induction rr as [|v rr IH]; simpl; [done|]. by rewrite <- IH.
  - by apply cleanSeries_length_Shape.
Qed.

(** When the ectopic test passes, the first test of the loop body
    ([|drrs[i]| <= 1]) has failed. *)
Lemma isEctopic_large (s : Series) (i : nat) :
  isEctopic s i = true -> leb (Math_abs (get (sdrrs s) i)) 1 = false.
Proof.
  unfold isEctopic, Math_abs. intros H.
  apply not_true_iff_false. rewrite leb_iff. intros Habs.
  apply Qabs_Qle_condition in Habs as [Hlo Hhi].
  apply orb_true_iff in H as [H|H]; apply andb_true_iff in H as [H _];
    apply ltb_iff in H; lra.
Qed.

(** The ectopic case of the loop body, on any arrays: at [i > 0] the
    pair [(i - 1, i)] is pushed, at [i = 0] the beat is marked
    'longshort', and the walk resumes at [i + 2] in both cases. *)
Lemma walkStep_ectopic (s : Series) (w : Walk) :
  isEctopic s (wi w) = true ->
  ((0 < wi w)%nat ->
     walkStep s w
     = {| wi := wi w + 2; classifications := classifications w;
          ectopicPairs := ectopicPairs w ++ [((wi w - 1)%nat, wi w)] |})
  /\ (wi w = 0%nat ->
        walkStep s w
        = {| wi := wi w + 2;
             classifications := <[wi w := "longshort"]> (classifications w);
             ectopicPairs := ectopicPairs w |}).
Proof.
  intros He. unfold walkStep. rewrite (isEctopic_large _ _ He), He.
  split; intros Hi.
  - apply Nat.ltb_lt in Hi. by rewrite Hi.
  - rewrite Hi. reflexivity.
Qed.

(** On the arrays [analyzeRR] builds the test never passes at index 0,
    where [s12[0] = 0]: the 'longshort' branch of the ectopic case is not
    reached. *)
Lemma isEctopic_at_start (rr : list Q) :
  isEctopic (compute_series rr) 0 = false.
Proof.
  unfold isEctopic.
  assert (Hs : get (ss12 (compute_series rr)) 0 = 0%Q).
  { simpl. destruct (length rr) as [|n] eqn:Hn; [done|].
    unfold compute_s12. by rewrite get_map_seq by lia. }
  rewrite Hs. set (d := get _ 0).
  apply not_true_iff_false. intros H.
  unfold C1, C2 in H.
  apply orb_true_iff in H as [H|H]; apply andb_true_iff in H as [H1 H2];
    apply ltb_iff in H1, H2; lra.
Qed.

(** C5: in the classification walk of [analyzeRR], when the ectopic test
    passes at index [i] then [i > 0], the pair [(i - 1, i)] is recorded
    and the walk advances by 2.  The test does not pass at [i = 0] on any
    input, so that marking the beat 'longshort' and advancing by 1 at
    [i = 0] holds of every run too. *)
Theorem analyzeRR_walk_ectopic (rr : list Q) (w : Walk) :
  isEctopic (compute_series rr) (wi w) = true ->
  (0 < wi w)%nat
  /\ ((0 < wi w)%nat ->
      walkStep (compute_series rr) w
      = {| wi := wi w + 2; classifications := classifications w;
           ectopicPairs := ectopicPairs w ++ [((wi w - 1)%nat, wi w)] |})
  /\ (wi w = 0%nat ->
      walkStep (compute_series rr) w
      = {| wi := wi w + 1;
           classifications := <[wi w := "longshort"]> (classifications w);
           ectopicPairs := ectopicPairs w |}).
Proof.
  intros He.
  assert (Hpos : (0 < wi w)%nat).
  { destruct (wi w) eqn:Hi; [|lia].
    rewrite isEctopic_at_start in He. discriminate. }
  split; [exact Hpos|]. split.
  - exact (proj1 (walkStep_ectopic _ _ He)).
  - intros Hi. lia.
Qed.

Lemma analyzeRR_walk_ectopic_witness :
  isEctopic (compute_series prematureBeat) (wi atPrematureBeat) = true
  /\ (0 < wi atPrematureBeat)%nat
  /\ ((0 < wi atPrematureBeat)%nat ->
      walkStep (compute_series prematureBeat) atPrematureBeat
      = {| wi := wi atPrematureBeat + 2;
           classifications := classifications atPrematureBeat;
           ectopicPairs :=
             ectopicPairs atPrematureBeat
             ++ [((wi atPrematureBeat - 1)%nat, wi atPrematureBeat)] |})
  /\ (wi atPrematureBeat = 0%nat ->
      walkStep (compute_series prematureBeat) atPrematureBeat
      = {| wi := wi atPrematureBeat + 1;
           classifications :=
             <[wi atPrematureBeat := "longshort"]>
               (classifications atPrematureBeat);
           ectopicPairs := ectopicPairs atPrematureBeat |}).
Proof.
  assert (H : isEctopic (compute_series prematureBeat) (wi atPrematureBeat)
              = true) by (vm_compute; reflexivity).
  split; [exact H|].
  exact (analyzeRR_walk_ectopic prematureBeat atPrematureBeat H).
Defined.

(** ** The post-processor: claim C9 *)

Lemma ltb_Qmin (a b : Q) : (if ltb b a then b else a) = Qmin a b.
Proof.
  unfold ltb, Qmin, GenericMinMax.gmin.
  destruct (Qle_bool a b) eqn:Hle; simpl.
  - apply Qle_bool_iff in Hle. unfold Qle in Hle. unfold Qcompare.
    destruct (Z.compare_spec (Qnum a * QDen b) (Qnum b * QDen a)); try done.
    lia.
  - apply not_true_iff_false in Hle. rewrite Qle_bool_iff in Hle.
    apply Qnot_le_lt, Qgt_alt in Hle. by rewrite Hle.
Qed.

(** Whenever [triggerReprocess(device, from)] returns, [lastProcessedMs]
    of a registered device is [min(lastProcessedMs, from)], hence not
    larger than before; nothing else changes, and an unregistered device
    stays unregistered. *)
Lemma triggerReprocess_min (st st' : gmap string PostProcessor.DeviceState)
    (device : string) (fromMs : Q) (logged : bool) :
  PostProcessor.triggerReprocess st device fromMs = Some (st', logged) ->
  (forall state, st !! device = Some state ->
     st' !! device
     = Some {| PostProcessor.lastProcessedMs :=
                 Qmin (PostProcessor.lastProcessedMs state) fromMs |}
     /\ (Qmin (PostProcessor.lastProcessedMs state) fromMs
         <= PostProcessor.lastProcessedMs state)%Q)
  /\ (st !! device = None -> st' = st)
  /\ (forall other, other <> device -> st' !! other = st !! other).
Proof.
  unfold PostProcessor.triggerReprocess. intros Hcall. repeat split.
  - revert Hcall. rewrite H, <- ltb_Qmin.
    destruct (ltb fromMs _).
    + destruct (PostProcessor.isTimeValue fromMs); [|done].
      intros [= <- _]. by rewrite lookup_insert_eq.
    + intros [= <- _]. rewrite H. by destruct state.
  - apply Q.le_min_l.
  - intros Hnone. rewrite Hnone in Hcall. by injection Hcall as <- _.
  - intros other Hne. destruct (st !! device) as [state|];
      [|by injection Hcall as <- _].
    destruct (ltb fromMs _); [|by injection Hcall as <- _].
    destruct (PostProcessor.isTimeValue fromMs); [|done].
    injection Hcall as <- _. by rewrite lookup_insert_ne.
Qed.

(** The call throws exactly when the batch starts before the mark of a
    registered device at a number that is no time value. *)
Lemma triggerReprocess_throws (st : gmap string PostProcessor.DeviceState)
    (device : string) (fromMs : Q) :
  PostProcessor.triggerReprocess st device fromMs = None
  <-> exists state,
        st !! device = Some state
        /\ (fromMs < PostProcessor.lastProcessedMs state)%Q
        /\ PostProcessor.isTimeValue fromMs = false.
Proof.
  unfold PostProcessor.triggerReprocess. split.
  - destruct (st !! device) as [state|]; [|done].
    destruct (ltb fromMs _) eqn:Hlt; [|done].
    destruct (PostProcessor.isTimeValue fromMs) eqn:Hv; [done|].
    intros _. exists state. by rewrite <- ltb_iff.
  - intros (state & -> & Hlt & ->). apply ltb_iff in Hlt. by rewrite Hlt.
Qed.

(** C9 at the failing input: the device is processed up to 5000 and the
    batch starts at -9e15, which is no time value of a [Date].  The log
    line of [triggerReprocess] throws before the assignment: the mark
    stays at 5000, where the claim has [min(5000, -9e15)], and the batch
    handler that made the call sends no response. *)
Theorem triggerReprocess_before_time_range :
  PostProcessor.triggerReprocess processedUpTo5000 "H10" beforeTimeRange
  = None
  /\ ~ (5000 == Qmin 5000 beforeTimeRange)%Q
  /\ fst (post_beats_batch 0 (queryTimeoutStore true) ancientBatch
            processedUpTo5000)
     = (Unanswered, processedUpTo5000).
Proof.
  split; [vm_compute; reflexivity|]. split; [vm_compute; discriminate|].
  vm_compute. reflexivity.
Qed.

(** ** POST /beats: claims C6 and C10 *)

Lemma rawBeatTimestamps_app (e1 e2 : list Effect) :
  rawBeatTimestamps (e1 ++ e2) = rawBeatTimestamps e1 ++ rawBeatTimestamps e2.
Proof. apply flat_map_app. Qed.

Lemma beatLoop_writes (device : string) (t : Q) (hr : option Q)
    (src : option string) (rrs : list Q) (acc : BeatLoop) :
  rawBeatTimestamps
    (loopWrites (fold_left (beatStep device t hr src) rrs acc))
  = rawBeatTimestamps (loopWrites acc) ++ offsetSeries t (cumulativeRR acc) rrs.
Proof.
  revert acc. induction rrs as [|rr rrs IH]; intros acc; simpl.
  - by rewrite app_nil_r.
  - rewrite IH. simpl. rewrite rawBeatTimestamps_app. simpl.
    by rewrite <- app_assoc.
Qed.

Lemma offsetSeries_length (t c : Q) (rrs : list Q) :
  length (offsetSeries t c rrs) = length rrs.
Proof.
  revert c. induction rrs as [|rr rrs IH]; intros c; simpl; [done|].
  by rewrite IH.
Qed.

(** The loop's timestamps are those of the series, as numbers. *)
Lemma offsetSeries_beatSeries (t c t' : Q) (rrs : list Q) :
  (t' == t + c)%Q -> Forall2 Qeq (offsetSeries t c rrs) (beatSeries t' rrs).
Proof.
  revert c t'. induction rrs as [|rr rrs IH]; intros c t' Ht; simpl;
    constructor.
  - by symmetry.
  - apply IH. rewrite Ht. ring.
Qed.

Lemma offsetSeries_increasing (t c : Q) (rrs : list Q) :
  Forall positive rrs -> strictlyIncreasing (offsetSeries t c rrs).
Proof.
  intros Hpos. revert c.
  induction Hpos as [|rr rrs Hrr Hpos IH]; intros c i a b Ha Hb;
    [done|].
  destruct i as [|i]; simpl in Ha, Hb.
  - injection Ha as <-. destruct rrs as [|rr' rrs]; [done|].
    simpl in Hb. injection Hb as <-. unfold positive in Hrr. lra.
  - exact (IH _ _ _ _ Ha Hb).
Qed.

Lemma offsetSeries_nonDecreasing (t c : Q) (rrs : list Q) :
  Forall (fun rr => (0 <= rr)%Q) rrs -> nonDecreasing (offsetSeries t c rrs).
Proof.
  intros Hpos. revert c.
  induction Hpos as [|rr rrs Hrr Hpos IH]; intros c i a b Ha Hb;
    [done|].
  destruct i as [|i]; simpl in Ha, Hb.
  - injection Ha as <-. destruct rrs as [|rr' rrs]; [done|].
    simpl in Hb. injection Hb as <-. lra.
  - exact (IH _ _ _ _ Ha Hb).
Qed.

Lemma getDeviceState_effects (st st1 : State) (device : string)
    (state : DeviceState) (reg : list Effect) :
  getDeviceState st device = (state, st1, reg) -> rawBeatTimestamps reg = [].
Proof.
  unfold getDeviceState.
  destruct (deviceState st !! device); by intros [= <- <- <-].
Qed.

(** C6, as the code has it: an accepted request with a non-empty
    [rrIntervals] writes one raw beat per interval, beat [i] at the
    timestamp [t + (rr[0] + ... + rr[i - 1])], the sum being added up in
    this order, where [t] is the request timestamp when it is a number
    other than 0 and the clock otherwise.  The series is non-decreasing
    when no interval is negative.  When the numbers of the request are
    safe integers with exact sums, it is the series
    [t, t + rr[0], t + rr[0] + rr[1], ...], and it is strictly increasing
    when every interval is positive. *)
Theorem post_beats_raw_writes (calculateHRV : list Q -> HRV) (now : Q)
    (req : BeatsRequest) (st : State) (device : string) (rrs : list Q) :
  rqDevice req = Some device -> device <> "" ->
  rqRrIntervals req = Some rrs -> rrs <> [] ->
  exists st' effs,
    post_beats calculateHRV now req st = (BeatsOk (length rrs), st', effs)
    /\ length (rawBeatTimestamps effs) = length rrs
    /\ rawBeatTimestamps effs = offsetSeries (beatTimestamp now req) 0 rrs
    /\ (Forall (fun rr => (0 <= rr)%Q) rrs ->
        nonDecreasing (rawBeatTimestamps effs))
    /\ (exactBeats (beatTimestamp now req) rrs = true ->
        Forall2 Qeq (rawBeatTimestamps effs)
          (beatSeries (beatTimestamp now req) rrs)
        /\ (Forall positive rrs ->
            strictlyIncreasing (rawBeatTimestamps effs))).
Proof.
  intros Hd Hne Hr Hrrs. unfold post_beats. rewrite Hd, Hr.
  apply String.eqb_neq in Hne. rewrite Hne.
  destruct rrs as [|rr0 rrs']; [done|].
  set (rrs := rr0 :: rrs') in *.
  change (length rrs =? 0)%nat with false. cbv iota.
  destruct (getDeviceState st device) as [[state st1] reg] eqn:Hg.
  destruct (windowHRV _ _ _) as [hrv windowHR].
  eexists _, _. split; [reflexivity|].
  rewrite !rawBeatTimestamps_app, (getDeviceState_effects _ _ _ _ _ Hg).
  rewrite beatLoop_writes. cbn [loopWrites cumulativeRR].
  change (rawBeatTimestamps [WriteRealtime _ _ _ _; Log _; BroadcastStatus])
    with (@nil Q).
  change (rawBeatTimestamps []) with (@nil Q).
  rewrite app_nil_l, app_nil_r.
  split; [apply offsetSeries_length|].
  split; [reflexivity|].
  split; [apply offsetSeries_nonDecreasing|].
  intros _. split; [apply offsetSeries_beatSeries; ring|].
  apply offsetSeries_increasing.
Qed.

Lemma post_beats_raw_writes_witness :
  rqDevice (beatsRequest (Some "H10") (Some 1000%Q) (Some [800; 810]%Q))
  = Some "H10"
  /\ "H10" <> ""
  /\ rqRrIntervals (beatsRequest (Some "H10") (Some 1000%Q) (Some [800; 810]%Q))
     = Some [800; 810]%Q
  /\ [800; 810]%Q <> []
  /\ exactBeats
       (beatTimestamp 0
          (beatsRequest (Some "H10") (Some 1000%Q) (Some [800; 810]%Q)))
       [800; 810]%Q = true
  /\ exists st' effs,
       post_beats noHRV 0
         (beatsRequest (Some "H10") (Some 1000%Q) (Some [800; 810]%Q))
         emptyState
       = (BeatsOk 2, st', effs)
       /\ length (rawBeatTimestamps effs) = 2%nat
       /\ rawBeatTimestamps effs
          = offsetSeries
              (beatTimestamp 0
                 (beatsRequest (Some "H10") (Some 1000%Q)
                    (Some [800; 810]%Q)))
              0 [800; 810]%Q
       /\ (Forall (fun rr => (0 <= rr)%Q) [800; 810]%Q ->
           nonDecreasing (rawBeatTimestamps effs))
       /\ (exactBeats
             (beatTimestamp 0
                (beatsRequest (Some "H10") (Some 1000%Q)
                   (Some [800; 810]%Q)))
             [800; 810]%Q = true ->
           Forall2 Qeq (rawBeatTimestamps effs)
             (beatSeries
                (beatTimestamp 0
                   (beatsRequest (Some "H10") (Some 1000%Q)
                      (Some [800; 810]%Q)))
                [800; 810]%Q)
           /\ (Forall positive [800; 810]%Q ->
               strictlyIncreasing (rawBeatTimestamps effs))).
Proof.
  split; [reflexivity|]. split; [discriminate|].
  split; [reflexivity|]. split; [discriminate|].
  split; [vm_compute; reflexivity|].
  apply (post_beats_raw_writes noHRV 0 _ emptyState "H10" [800; 810]%Q);
    [reflexivity | discriminate | reflexivity | discriminate].
Defined.

(** C6 as stated fails on an interval of 0 ms: the request is accepted
    and two raw beats are written at the same timestamp. *)
Lemma post_beats_zero_interval_same_timestamp :
  exists st' effs a b,
    post_beats noHRV 0
      (beatsRequest (Some "H10") (Some 1000%Q) (Some [0; 800]%Q)) emptyState
    = (BeatsOk 2, st', effs)
    /\ rawBeatTimestamps effs = [a; b]
    /\ ~ (a < b)%Q.
Proof.
  eexists _, _, _, _. split; [vm_compute; reflexivity|].
  split; [vm_compute; reflexivity|]. vm_compute. discriminate.
Qed.

(** C10, as the code has it: a request whose [rrIntervals] is an empty
    array changes no state and calls nothing; it is answered with
    [{ok: true, received: 0}] when it names a device, and with the 400
    of an invalid request when it does not. *)
Theorem post_beats_empty (calculateHRV : list Q -> HRV) (now : Q)
    (req : BeatsRequest) (st : State) :
  rqRrIntervals req = Some [] ->
  exists resp,
    post_beats calculateHRV now req st = (resp, st, [])
    /\ (truthy_str (rqDevice req) = true -> resp = BeatsOk 0)
    /\ (truthy_str (rqDevice req) = false ->
        resp = Error 400 "Invalid request").
Proof.
  intros Hr. unfold post_beats, truthy_str. rewrite Hr.
  destruct (rqDevice req) as [device|].
  - destruct (String.eqb device ""); simpl; eexists; (split; [reflexivity|]);
      split; intros; done.
  - eexists; split; [reflexivity|]. split; intros; done.
Qed.

Lemma post_beats_empty_witness :
  rqRrIntervals (beatsRequest (Some "H10") (Some 1000%Q) (Some [])) = Some []
  /\ exists resp,
       post_beats noHRV 0 (beatsRequest (Some "H10") (Some 1000%Q) (Some []))
         emptyState
       = (resp, emptyState, [])
       /\ (truthy_str
             (rqDevice (beatsRequest (Some "H10") (Some 1000%Q) (Some [])))
           = true -> resp = BeatsOk 0)
       /\ (truthy_str
             (rqDevice (beatsRequest (Some "H10") (Some 1000%Q) (Some [])))
           = false -> resp = Error 400 "Invalid request").
Proof.
  split; [reflexivity|].
  apply (post_beats_empty noHRV 0 _ emptyState). reflexivity.
Defined.

(** C10 as stated fails when the request names no device: the answer is
    a 400, not [{ok: true, received: 0}]. *)
Lemma post_beats_empty_without_device :
  rqRrIntervals (beatsRequest None (Some 1000%Q) (Some [])) = Some []
  /\ post_beats noHRV 0 (beatsRequest None (Some 1000%Q) (Some [])) emptyState
     = (Error 400 "Invalid request", emptyState, [])
  /\ Error 400 "Invalid request" <> BeatsOk 0.
Proof. split; [reflexivity|]. split; [reflexivity|]. discriminate. Qed.

(** ** POST /beats/batch: claims C7 and C8 *)

Lemma filter_all {A} (l : list A) : List.filter (fun _ => true) l = l.
Proof. induction l as [|x l IH]; simpl; [done|]. by rewrite IH. Qed.

Lemma selectNew_filter (existing : list ExistingBeat) (incoming : list Point)
    (firstTs lastTs : Q) :
  selectNew existing incoming firstTs lastTs
  = List.filter (keepNew existing firstTs lastTs) incoming.
Proof.
  unfold selectNew, keepNew. destruct (length existing =? 0)%nat; simpl.
  - by rewrite filter_all.
  - done.
Qed.

Lemma inGap_iff (p : Point) (g : Gap) :
  inGap p g = true
  <-> (gStart g - 300 <= timestamp p)%Q /\ (timestamp p <= gEnd g + 300)%Q.
Proof. unfold inGap. by rewrite andb_true_iff, !leb_iff. Qed.

Lemma keepNew_iff (existing : list ExistingBeat) (firstTs lastTs : Q)
    (p : Point) :
  keepNew existing firstTs lastTs p = true
  <-> countedNew existing firstTs lastTs p.
Proof.
  unfold keepNew, countedNew, fallsInGap.
  rewrite orb_true_iff, Nat.eqb_eq, length_zero_iff_nil, existsb_exists.
  apply or_iff_compat_l. split.
  - intros (g & Hg & Hin). exists g.
    by rewrite list_elem_of_In, <- inGap_iff.
  - intros (g & Hg & Hin). exists g.
    by rewrite <- list_elem_of_In, inGap_iff.
Qed.

Lemma last_List_last {A} (x d : A) (l : list A) :
  last (x :: l) = Some (List.last (x :: l) d).
Proof.
  revert x. induction l as [|y l IH]; intros x; [done|].
  change (last (x :: y :: l)) with (last (y :: l)).
  change (List.last (x :: y :: l) d) with (List.last (y :: l) d).
  apply IH.
Qed.

(** The gaps the handler detects are the interior, leading and trailing
    gaps of the existing beats. *)
Lemma interiorGaps_spec (existing : list ExistingBeat) (g : Gap) :
  g ∈ interiorGaps existing <-> interiorGap existing g.
Proof.
  unfold interiorGap.
  induction existing as [|e rest IH]; [|destruct rest as [|e' rest]].
  - simpl. rewrite elem_of_nil. split; [done|]. by intros (i & ? & ? & [=] & _).
  - simpl. rewrite elem_of_nil. split; [done|].
    intros ([|i] & ? & ? & _ & [=] & _).
  - cbn [interiorGaps]. rewrite elem_of_app, IH. split.
    + intros [Hg|(i & a & b & Ha & Hb & Hlt & ->)].
      * destruct (ltb _ _) eqn:Hlt; [|by apply elem_of_nil in Hg].
        apply list_elem_of_singleton in Hg as ->.
        exists 0%nat, e, e'. repeat split; try done.
        by apply ltb_iff in Hlt.
      * exists (S i), a, b. done.
    + intros ([|i] & a & b & Ha & Hb & Hlt & ->).
      * simpl in Ha, Hb. injection Ha as <-. injection Hb as <-.
        left. apply ltb_iff in Hlt. unfold GAP_THRESHOLD_MS.
        rewrite Hlt. apply list_elem_of_here.
      * right. exists i, a, b. done.
Qed.

Lemma detectGaps_spec (existing : list ExistingBeat) (firstTs lastTs : Q)
    (g : Gap) :
  g ∈ detectGaps existing firstTs lastTs
  <-> leadingGap existing firstTs g
      \/ interiorGap existing g
      \/ trailingGap existing lastTs g.
Proof.
  unfold leadingGap, trailingGap. destruct existing as [|e0 rest].
  { simpl. rewrite elem_of_nil. split; [done|].
    intros [(? & [=] & _)|[Hi|(? & [=] & _)]].
    by apply interiorGaps_spec, elem_of_nil in Hi. }
  unfold detectGaps. rewrite (last_List_last e0 e0 rest).
  rewrite !elem_of_app, interiorGaps_spec. unfold GAP_THRESHOLD_MS.
  apply Morphisms_Prop.or_iff_morphism; [|apply or_iff_compat_l].
  - destruct (ltb firstTs _) eqn:Hlt.
    + apply ltb_iff in Hlt. rewrite list_elem_of_singleton. split.
      * intros ->. by exists e0.
      * by intros (? & [= <-] & _ & ->).
    + apply not_true_iff_false in Hlt. rewrite ltb_iff in Hlt.
      rewrite elem_of_nil. split; [done|].
      by intros (? & [= <-] & ? & _).
  - destruct (ltb _ lastTs) eqn:Hlt.
    + apply ltb_iff in Hlt. rewrite list_elem_of_singleton. split.
      * intros ->. by eexists.
      * by intros (? & [= <-] & _ & ->).
    + apply not_true_iff_false in Hlt. rewrite ltb_iff in Hlt.
      rewrite elem_of_nil. split; [done|].
      by intros (? & [= <-] & ? & _).
Qed.

(** C7: when POST /beats/batch answers with counts, [received] is the
    number of incoming points and equals [new + duplicates], and [new]
    is the number of incoming points that count as new: those that fall
    within a detected gap, with the tolerance of 300 ms, or all of them
    when no existing beat was found in the queried range. *)
Theorem post_beats_batch_counts (now : Q) (store : StoreAnswers)
    (req : BatchRequest) (pp pp' : gmap string PostProcessor.DeviceState)
    (received new duplicates : Z) (effs : list Effect) :
  post_beats_batch now store req pp
  = (BatchOk received new duplicates, pp', effs) ->
  let incoming :=
    sort_by timestamp
      (flattenBeats (bqSource req) (default [] (bqBeats req))) in
  let existing := default [] (rawBeatsAnswer store) in
  let firstTs := default 0%Q (timestamp <$> head incoming) in
  let lastTs := default 0%Q (timestamp <$> last incoming) in
  received = (new + duplicates)%Z
  /\ received = Z.of_nat (length incoming)
  /\ exists keep : Point -> bool,
       (forall p, keep p = true <-> countedNew existing firstTs lastTs p)
       /\ new = Z.of_nat (length (List.filter keep incoming)).
Proof.
  unfold post_beats_batch.
  destruct (bqDevice req) as [device|]; [|done].
  destruct (bqBeats req) as [beats|]; [|done].
  destruct (_ || _); [done|].
  destruct (firstMissingTimestamp 0 beats); [done|].
  cbn [default].
  destruct (sort_by timestamp _) as [|p0 tl] eqn:Hin.
  { intros [= <- <- <- _ _]. cbn zeta. split; [done|]. split; [done|].
    eexists. split; [apply keepNew_iff | done]. }
  assert (Hex : (let '(existing, _) :=
                   match rawBeatsAnswer store with
                   | Some rows => (rows, [])
                   | None => ([], [Log "Dedup query failed, writing all"])
                   end in existing)
                = default [] (rawBeatsAnswer store))
    by by destruct (rawBeatsAnswer store).
  destruct (match rawBeatsAnswer store with
            | Some rows => _ | None => _ end) as [existing queryLog].
  subst existing. cbn zeta. cbn [head fmap option_fmap option_map default].
  rewrite (last_List_last p0 p0 tl).
  cbn [fmap option_fmap option_map default].
  set (incoming := p0 :: tl).
  rewrite selectNew_filter.
  intros H.
  assert (received = Z.of_nat (length incoming)
          /\ new = Z.of_nat (length (List.filter
                      (keepNew (default [] (rawBeatsAnswer store))
                         (timestamp p0)
                         (timestamp (List.last incoming p0))) incoming))
          /\ duplicates = (received - new)%Z) as (Hr & Hn & Hd).
  { destruct (0 <? _)%nat;
      [destruct (rawBatchWritten store);
       [destruct (PostProcessor.triggerReprocess _ _ _) as [[pp2 logged]|]|]|];
      try done; by injection H as <- <- <- _ _. }
  split; [lia|]. split; [done|].
  eexists. split; [apply keepNew_iff | done].
Qed.

Lemma post_beats_batch_counts_witness :
  post_beats_batch 0 gapStore threeBeats ∅
  = (BatchOk 3 2 1,
     snd (fst (post_beats_batch 0 gapStore threeBeats ∅)),
     snd (post_beats_batch 0 gapStore threeBeats ∅))
  /\ 3%Z = (2 + 1)%Z
  /\ 3%Z
     = Z.of_nat
         (length (sort_by timestamp
                    (flattenBeats (bqSource threeBeats)
                       (default [] (bqBeats threeBeats)))))
  /\ exists keep : Point -> bool,
       (forall p,
          keep p = true
          <-> countedNew (default [] (rawBeatsAnswer gapStore))
                (default 0%Q
                   (timestamp <$>
                    head (sort_by timestamp
                            (flattenBeats (bqSource threeBeats)
                               (default [] (bqBeats threeBeats))))))
                (default 0%Q
                   (timestamp <$>
                    last (sort_by timestamp
                            (flattenBeats (bqSource threeBeats)
                               (default [] (bqBeats threeBeats))))))
                p)
       /\ 2%Z
          = Z.of_nat
              (length
                 (List.filter keep
                    (sort_by timestamp
                       (flattenBeats (bqSource threeBeats)
                          (default [] (bqBeats threeBeats)))))).
Proof.
  assert (H : post_beats_batch 0 gapStore threeBeats ∅
              = (BatchOk 3 2 1,
                 snd (fst (post_beats_batch 0 gapStore threeBeats ∅)),
                 snd (post_beats_batch 0 gapStore threeBeats ∅)))
    by (vm_compute; reflexivity).
  split; [exact H|].
  exact (post_beats_batch_counts 0 gapStore threeBeats ∅ _ 3 2 1 _ H).
Defined.

Ltac split_elem H :=
  repeat (rewrite ?elem_of_app, ?elem_of_cons, ?elem_of_nil in H);
  intuition (try discriminate).

Lemma registration_effects (pp : gmap string PostProcessor.DeviceState)
    (device : string) (e : Effect) :
  e ∈ match pp !! device with
      | Some _ => []
      | None => [QueryLastProcessedTime device; Log "registered"]
      end ->
  e = QueryLastProcessedTime device \/ e = Log "registered".
Proof. destruct (pp !! device); intros H; split_elem H. Qed.

(** How a call of the handler can end. *)
Lemma post_beats_batch_cases (now : Q) (store : StoreAnswers)
    (req : BatchRequest) (pp : gmap string PostProcessor.DeviceState) :
  (exists error,
     post_beats_batch now store req pp = (Error 400 error, pp, []))
  \/ exists device beats reg,
       bqDevice req = Some device /\ device <> ""
       /\ bqBeats req = Some beats /\ beats <> []
       /\ firstMissingTimestamp 0 beats = None
       /\ (forall e, e ∈ reg ->
             e = QueryLastProcessedTime device \/ e = Log "registered")
       /\ let pp1 := PostProcessor.registerDevice pp device
                       (lastProcessedAnswer store) now in
          let incoming := incomingOf req in
          let firstTs := firstTsOf incoming in
          let lastTs := lastTsOf incoming in
          let existing := default [] (rawBeatsAnswer store) in
          let newPoints := selectNew existing incoming firstTs lastTs in
          let query :=
            QueryRawBeats device (firstTs - 2000)%Q (lastTs + 2000)%Q in
          let ok :=
            BatchOk (Z.of_nat (length incoming))
              (Z.of_nat (length newPoints))
              (Z.of_nat (length incoming) - Z.of_nat (length newPoints)) in
          (incoming = []
           /\ post_beats_batch now store req pp = (BatchOk 0 0 0, pp1, reg))
          \/ (incoming <> []
              /\ exists queryLog,
                   (forall e, e ∈ queryLog ->
                      e = Log "Dedup query failed, writing all"
                      /\ rawBeatsAnswer store = None)
                   /\ (rawBeatsAnswer store = None ->
                       Log "Dedup query failed, writing all" ∈ queryLog)
                   /\ ((newPoints = []
                        /\ post_beats_batch now store req pp
                           = (ok, pp1,
                              reg ++ query :: queryLog ++ [Log "batch"]))
                       \/ (newPoints <> []
                           /\ rawBatchWritten store = true
                           /\ exists pp2 logged,
                                PostProcessor.triggerReprocess pp1 device
                                  firstTs = Some (pp2, logged)
                                /\ post_beats_batch now store req pp
                                   = (ok, pp2,
                                      reg ++ query :: queryLog
                                      ++ WriteRawBatch device newPoints
                                         :: (if logged
                                             then [Log "reprocessing"]
                                             else [])
                                         ++ [Log "batch"]))
                       \/ (newPoints <> []
                           /\ rawBatchWritten store = true
                           /\ PostProcessor.triggerReprocess pp1 device
                                firstTs = None
                           /\ post_beats_batch now store req pp
                              = (Unanswered, pp1,
                                 reg ++ query :: queryLog
                                 ++ [WriteRawBatch device newPoints]))
                       \/ (newPoints <> []
                           /\ rawBatchWritten store = false
                           /\ post_beats_batch now store req pp
                              = (Error 500 "InfluxDB write failed", pp1,
                                 reg ++ query :: queryLog
                                 ++ [WriteRawBatch device newPoints])))).
Proof.
  unfold post_beats_batch, incomingOf.
  destruct (bqDevice req) as [device|]; [|left; by eexists].
  destruct (bqBeats req) as [beats|]; [|left; by eexists].
  destruct (String.eqb device "") eqn:Hd; [left; by eexists|].
  destruct (length beats =? 0)%nat eqn:Hb; [left; by eexists|].
  cbn [orb]. apply String.eqb_neq in Hd. apply Nat.eqb_neq in Hb.
  destruct (firstMissingTimestamp 0 beats) eqn:Hf; [left; by eexists|].
  right. exists device, beats. eexists.
  split; [done|]. split; [done|]. split; [done|].
  split; [by destruct beats|]. split; [done|].
  split; [apply registration_effects|].
  cbn [default]. cbv zeta.
  destruct (sort_by timestamp _) as [|p0 tl] eqn:Hin; [left; by split|].
  right. split; [done|].
  unfold firstTsOf, lastTsOf. cbn [head fmap option_fmap option_map default].
  rewrite (last_List_last p0 p0 tl).
  cbn [fmap option_fmap option_map default].
  set (incoming := p0 :: tl).
  destruct (rawBeatsAnswer store) as [rows|] eqn:Hrows; cbn [default].
  - exists []. split; [intros e He; by apply elem_of_nil in He|].
    split; [done|].
    destruct (selectNew _ _ _ _) as [|q qs] eqn:Hnew;
      cbn [length Nat.ltb Nat.leb]; [left; by split|right].
    destruct (rawBatchWritten store); [|right; right; by repeat split].
    destruct (PostProcessor.triggerReprocess _ _ _) as [[pp2 logged]|];
      [left | right; left]; repeat split; try done.
    by exists pp2, logged.
  - exists [Log "Dedup query failed, writing all"].
    split; [intros e He; apply list_elem_of_singleton in He; by split|].
    split; [intros _; apply list_elem_of_here|].
    destruct (selectNew _ _ _ _) as [|q qs] eqn:Hnew;
      cbn [length Nat.ltb Nat.leb]; [left; by split|right].
    destruct (rawBatchWritten store); [|right; right; by repeat split].
    destruct (PostProcessor.triggerReprocess _ _ _) as [[pp2 logged]|];
      [left | right; left]; repeat split; try done.
    by exists pp2, logged.
Qed.

Lemma batchWrites_nil (effs : list Effect) :
  (forall e, e ∈ effs -> forall d pts, e <> WriteRawBatch d pts) ->
  batchWrites effs = [].
Proof.
  induction effs as [|e effs IH]; intros H; [done|].
  cbn [batchWrites flat_map]. fold (batchWrites effs).
  rewrite IH by (intros e' He'; apply H; by apply list_elem_of_further).
  destruct e; try done. by destruct (H _ (list_elem_of_here _ _) device points).
Qed.

Lemma batchWrites_app (e1 e2 : list Effect) :
  batchWrites (e1 ++ e2) = batchWrites e1 ++ batchWrites e2.
Proof. apply flat_map_app. Qed.

Lemma batchWrites_reg (device : string) (reg : list Effect) :
  (forall e, e ∈ reg ->
     e = QueryLastProcessedTime device \/ e = Log "registered") ->
  batchWrites reg = [].
Proof.
  intros H. apply batchWrites_nil. intros e He d pts.
  destruct (H e He) as [-> | ->]; discriminate.
Qed.

Lemma batchWrites_queryLog (P : Prop) (queryLog : list Effect) :
  (forall e, e ∈ queryLog ->
     e = Log "Dedup query failed, writing all" /\ P) ->
  batchWrites queryLog = [].
Proof.
  intros H. apply batchWrites_nil. intros e He d pts.
  destruct (H e He) as [-> _]. discriminate.
Qed.

Lemma batchWrites_prefix (P : Prop) (device : string)
    (reg queryLog rest : list Effect) (startMs endMs : Q) :
  (forall e, e ∈ reg ->
     e = QueryLastProcessedTime device \/ e = Log "registered") ->
  (forall e, e ∈ queryLog ->
     e = Log "Dedup query failed, writing all" /\ P) ->
  batchWrites (reg ++ QueryRawBeats device startMs endMs :: queryLog ++ rest)
  = batchWrites rest.
Proof.
  intros Hreg Hq. rewrite batchWrites_app, (batchWrites_reg _ _ Hreg).
  change (batchWrites (QueryRawBeats device startMs endMs
                       :: queryLog ++ rest))
    with (batchWrites (queryLog ++ rest)).
  by rewrite batchWrites_app, (batchWrites_queryLog _ _ Hq).
Qed.

Lemma batchWrites_written (device : string) (points : list Point)
    (logged : bool) :
  batchWrites (WriteRawBatch device points
               :: (if logged then [Log "reprocessing"] else [])
               ++ [Log "batch"])
  = [points].
Proof. by destruct logged. Qed.

(** C8, as the code has it: a write error of the raw-beat batch write is
    answered with a 500.  A failure of the dedup query is not: it is
    logged and handled as if no beat existed, so that every incoming
    point is sent in one batch write; when that write succeeds, and the
    first timestamp of the batch is a time value of a [Date], the answer
    is a success that counts every point as new. *)
Theorem post_beats_batch_store_failure (now : Q) (store : StoreAnswers)
    (req : BatchRequest) (pp pp' : gmap string PostProcessor.DeviceState)
    (resp : Response) (effs : list Effect) :
  post_beats_batch now store req pp = (resp, pp', effs) ->
  (forall device points,
     WriteRawBatch device points ∈ effs -> rawBatchWritten store = false ->
     resp = Error 500 "InfluxDB write failed")
  /\ (forall device startMs endMs,
        QueryRawBeats device startMs endMs ∈ effs ->
        rawBeatsAnswer store = None ->
        Log "Dedup query failed, writing all" ∈ effs
        /\ batchWrites effs = [incomingOf req]
        /\ WriteRawBatch device (incomingOf req) ∈ effs
        /\ (rawBatchWritten store = true ->
            PostProcessor.isTimeValue (firstTsOf (incomingOf req)) = true ->
            exists n,
              resp = BatchOk n n 0 /\ (0 < n)%Z
              /\ n = Z.of_nat (length (incomingOf req)))).
Proof.
  unfold post_beats_batch, incomingOf, firstTsOf.
  destruct (bqDevice req) as [device|];
    [|intros [= <- <- <-]; split; intros * H; by apply elem_of_nil in H].
  destruct (bqBeats req) as [beats|];
    [|intros [= <- <- <-]; split; intros * H; by apply elem_of_nil in H].
  destruct (_ || _);
    [intros [= <- <- <-]; split; intros * H; by apply elem_of_nil in H|].
  destruct (firstMissingTimestamp 0 beats);
    [intros [= <- <- <-]; split; intros * H; by apply elem_of_nil in H|].
  cbn [default].
  destruct (sort_by timestamp _) as [|p0 tl].
  { intros [= <- <- <-]. split; intros * H;
      apply registration_effects in H as [H|H]; discriminate. }
  set (incoming := p0 :: tl).
  cbn [head fmap option_fmap option_map default].
  pose proof (batchWrites_reg device _ (registration_effects pp device))
    as Hreg.
  destruct (rawBeatsAnswer store) as [rows|] eqn:Hrows.
  - destruct (0 <? _)%nat;
      [destruct (rawBatchWritten store);
       [destruct (PostProcessor.triggerReprocess _ _ _) as [[pp2 logged]|]|]|];
      intros [= <- <- <-]; (split; [|by intros]);
      intros d pts H Hw; try done.
    apply elem_of_app in H as [H|H];
      [apply registration_effects in H as [H|H]; discriminate|].
    split_elem H.
  - unfold selectNew. cbn [length Nat.eqb].
    change (0 <? length incoming)%nat with true. cbv iota.
    destruct (rawBatchWritten store);
      [destruct (PostProcessor.triggerReprocess _ _ _)
         as [[pp2 logged]|] eqn:Ht|];
      intros [= <- <- <-]; (split; [by intros|]);
      intros d a b H _;
      (apply elem_of_app in H as [H|H];
         [apply registration_effects in H as [H|H]; discriminate|]);
      assert (d = device) as ->
        by (try destruct logged; split_elem H; congruence).
    + split; [rewrite elem_of_app; right; repeat rewrite elem_of_cons; tauto|].
      split; [rewrite batchWrites_app, Hreg; by destruct logged|].
      split; [rewrite elem_of_app; right; repeat rewrite elem_of_cons; tauto|].
      intros _ _. exists (Z.of_nat (length incoming)).
      split; [f_equal; lia|]. split; [simpl; lia | done].
    + split; [rewrite elem_of_app; right; repeat rewrite elem_of_cons; tauto|].
      split; [by rewrite batchWrites_app, Hreg|].
      split; [rewrite elem_of_app; right; repeat rewrite elem_of_cons; tauto|].
      intros _ Hv. exfalso.
      apply triggerReprocess_throws in Ht as (state & _ & _ & Hf).
      unfold incoming in Hv. simpl in Hv. congruence.
    + split; [rewrite elem_of_app; right; repeat rewrite elem_of_cons; tauto|].
      split; [by rewrite batchWrites_app, Hreg|].
      split; [rewrite elem_of_app; right; repeat rewrite elem_of_cons; tauto|].
      intros Hw. discriminate Hw.
Qed.

Lemma post_beats_batch_store_failure_witness :
  post_beats_batch 0 (queryTimeoutStore false) threeBeats ∅
  = (Error 500 "InfluxDB write failed",
     snd (fst (post_beats_batch 0 (queryTimeoutStore false) threeBeats ∅)),
     snd (post_beats_batch 0 (queryTimeoutStore false) threeBeats ∅))
  /\ (exists device points,
        WriteRawBatch device points
        ∈ snd (post_beats_batch 0 (queryTimeoutStore false) threeBeats ∅))
  /\ (forall device points,
        WriteRawBatch device points
        ∈ snd (post_beats_batch 0 (queryTimeoutStore false) threeBeats ∅) ->
        rawBatchWritten (queryTimeoutStore false) = false ->
        Error 500 "InfluxDB write failed" = Error 500 "InfluxDB write failed").
Proof.
  assert (H : post_beats_batch 0 (queryTimeoutStore false) threeBeats ∅
              = (Error 500 "InfluxDB write failed",
                 snd (fst (post_beats_batch 0 (queryTimeoutStore false)
                             threeBeats ∅)),
                 snd (post_beats_batch 0 (queryTimeoutStore false)
                        threeBeats ∅)))
    by (vm_compute; reflexivity).
  split; [exact H|]. split.
  - eexists _, _. vm_compute. do 4 apply list_elem_of_further.
    apply list_elem_of_here.
  - exact (proj1 (post_beats_batch_store_failure _ _ _ _ _ _ _ H)).
Defined.

(** C8 as stated fails for the read: the dedup query times out, the
    batch is written, and the request is answered with a success. *)
Lemma post_beats_batch_query_timeout_succeeds :
  rawBeatsAnswer (queryTimeoutStore true) = None
  /\ fst (fst (post_beats_batch 0 (queryTimeoutStore true) threeBeats ∅))
     = BatchOk 3 3 0
  /\ forall error, BatchOk 3 3 0 <> Error 500 error.
Proof.
  split; [reflexivity|]. split; [vm_compute; reflexivity|]. discriminate.
Qed.

(** * Further properties *)

(** ** hrv.js: the RR buffer *)

Lemma sortedBuffer_lookup (buffer : list Hrv.Entry) (i j : nat)
    (a b : Hrv.Entry) :
  sortedBuffer buffer -> (i <= j)%nat ->
  buffer !! i = Some a -> buffer !! j = Some b -> byTimestamp a b.
Proof.
  intros Hs. revert i j.
  induction Hs as [|x l Hl IH Hx]; intros i j Hij Ha Hb; [done|].
  destruct i as [|i], j as [|j]; simpl in Ha, Hb; try lia.
  - injection Ha as <-. injection Hb as <-. unfold byTimestamp. lra.
  - injection Ha as <-. exact (Forall_lookup_1 _ _ _ _ Hx Hb).
  - apply (IH i j); [lia|done..].
Qed.

Lemma searchLoop_spec (fuel : nat) (buffer : list Hrv.Entry) (t : Q)
    (left right : nat) :
  sortedBuffer buffer ->
  (left <= right <= length buffer)%nat -> (right - left <= fuel)%nat ->
  (forall i e, (i < left)%nat -> buffer !! i = Some e ->
     (Hrv.eTimestamp e < t)%Q) ->
  (forall i e, (right <= i)%nat -> buffer !! i = Some e ->
     (t <= Hrv.eTimestamp e)%Q) ->
  (left <= Hrv.searchLoop fuel buffer t left right <= right)%nat
  /\ (forall i e, (i < Hrv.searchLoop fuel buffer t left right)%nat ->
        buffer !! i = Some e -> (Hrv.eTimestamp e < t)%Q)
  /\ (forall i e, (Hrv.searchLoop fuel buffer t left right <= i)%nat ->
        buffer !! i = Some e -> (t <= Hrv.eTimestamp e)%Q).
Proof.
  intros Hs. revert left right.
  induction fuel as [|fuel IH]; intros left right Hlr Hf Hlo Hhi;
    cbn [Hrv.searchLoop].
  { assert (left = right) as -> by lia. auto with lia. }
  destruct (left <? right)%nat eqn:Hlt.
  2:{ apply Nat.ltb_ge in Hlt. assert (left = right) as -> by lia.
      auto with lia. }
  apply Nat.ltb_lt in Hlt.
  assert (Hmid : (left <= (left + right) / 2 < right)%nat).
  { split; [apply Nat.div_le_lower_bound | apply Nat.Div0.div_lt_upper_bound];
      lia. }
  destruct (lookup_lt_is_Some_2 buffer ((left + right) / 2)) as [e He];
    [lia|].
  rewrite He. destruct (JS.ltb (Hrv.eTimestamp e) t) eqn:Hcmp.
  - apply ltb_iff in Hcmp.
    destruct (IH ((left + right) / 2 + 1)%nat right) as (Hk & H1 & H2);
      [lia | lia | | done | ].
    + intros i e' Hi He'.
      assert (Hle : byTimestamp e' e)
        by (apply (sortedBuffer_lookup buffer i ((left + right) / 2));
            [done | lia | done | done]).
      unfold byTimestamp in Hle. lra.
    + split; [lia|]. split; assumption.
  - apply not_true_iff_false in Hcmp. rewrite ltb_iff in Hcmp.
    apply Qnot_lt_le in Hcmp.
    destruct (IH left ((left + right) / 2)%nat) as (Hk & H1 & H2);
      [lia | lia | done | | ].
    + intros i e' Hi He'.
      pose proof (sortedBuffer_lookup _ _ i _ _ Hs Hi He He') as Hle.
      unfold byTimestamp in Hle. lra.
    + split; [lia|]. split; assumption.
Qed.

Lemma searchInsert_bounds (buffer : list Hrv.Entry) (timestamp : Q) :
  sortedBuffer buffer ->
  (Hrv.searchInsert buffer timestamp <= length buffer)%nat
  /\ (forall i e, (i < Hrv.searchInsert buffer timestamp)%nat ->
        buffer !! i = Some e -> (Hrv.eTimestamp e < timestamp)%Q)
  /\ (forall i e, (Hrv.searchInsert buffer timestamp <= i)%nat ->
        buffer !! i = Some e -> (timestamp <= Hrv.eTimestamp e)%Q).
Proof.
  intros Hs. unfold Hrv.searchInsert.
  destruct (searchLoop_spec (length buffer) buffer timestamp 0
              (length buffer) Hs) as (Hk & H1 & H2).
  - lia.
  - lia.
  - intros i e Hi. lia.
  - intros i e Hi He. apply lookup_lt_Some in He. lia.
  - split; [lia|]. split; assumption.
Qed.

(** X1.  The binary search of [push] finds the insertion point of a buffer in
    timestamp order: every entry before it is older than [timestamp], every
    entry from it on is not. *)
Theorem searchInsert_lower_bound (buffer : list Hrv.Entry) (timestamp : Q) :
  sortedBuffer buffer ->
  (Hrv.searchInsert buffer timestamp <= length buffer)%nat
  /\ (forall i e, (i < Hrv.searchInsert buffer timestamp)%nat ->
        buffer !! i = Some e -> (Hrv.eTimestamp e < timestamp)%Q)
  /\ (forall i e, (Hrv.searchInsert buffer timestamp <= i)%nat ->
        buffer !! i = Some e -> (timestamp <= Hrv.eTimestamp e)%Q).
Proof. apply searchInsert_bounds. Qed.


Lemma searchInsert_witness_sorted :
  sortedBuffer [{| Hrv.eTimestamp := 1000; Hrv.eRr := 800 |};
                {| Hrv.eTimestamp := 1800; Hrv.eRr := 810 |};
                {| Hrv.eTimestamp := 2610; Hrv.eRr := 790 |}].
Proof.
  unfold sortedBuffer, byTimestamp.
  repeat (constructor; simpl); discriminate.
Qed.

Lemma searchInsert_lower_bound_witness :
  sortedBuffer [{| Hrv.eTimestamp := 1000; Hrv.eRr := 800 |};
                {| Hrv.eTimestamp := 1800; Hrv.eRr := 810 |};
                {| Hrv.eTimestamp := 2610; Hrv.eRr := 790 |}]
  /\ (Hrv.searchInsert
        [{| Hrv.eTimestamp := 1000; Hrv.eRr := 800 |};
         {| Hrv.eTimestamp := 1800; Hrv.eRr := 810 |};
         {| Hrv.eTimestamp := 2610; Hrv.eRr := 790 |}] 2000
      <= 3)%nat.
Proof.
  split; [exact searchInsert_witness_sorted|].
  exact (proj1 (searchInsert_lower_bound _ 2000 searchInsert_witness_sorted)).
Defined.

Lemma splice_sorted (buffer : list Hrv.Entry) (rr t : Q) :
  sortedBuffer buffer ->
  sortedBuffer
    (Hrv.splice buffer (Hrv.searchInsert buffer t)
       {| Hrv.eTimestamp := t; Hrv.eRr := rr |}).
Proof.
  intros Hs.
  destruct (searchInsert_bounds buffer t Hs) as (Hk & Hlo & Hhi).
  set (k := Hrv.searchInsert buffer t) in *.
  unfold Hrv.splice, sortedBuffer in *.
  rewrite <- (take_drop k buffer) in Hs.
  apply StronglySorted_app in Hs as (Hcross & Hl & Hr).
  apply StronglySorted_app_2; [|done|].
  - intros x1 x2 H1 H2. apply elem_of_cons in H2 as [->|H2]; [|by apply Hcross].
    apply list_elem_of_lookup in H1 as [i Hi].
    apply lookup_take_Some in Hi as [Hi Hlt].
    unfold byTimestamp. simpl. apply Qlt_le_weak. by eapply Hlo.
  - apply StronglySorted_cons. split; [|done].
    apply Forall_lookup. intros i e He. rewrite lookup_drop in He.
    unfold byTimestamp. simpl. eapply Hhi; [|exact He]. lia.
Qed.

Lemma tail_sorted (buffer : list Hrv.Entry) :
  sortedBuffer buffer -> sortedBuffer (tail buffer).
Proof.
  destruct buffer; [done|]. intros H. by apply StronglySorted_cons in H as [_ H].
Qed.

(** X2.  [push] keeps the buffer in timestamp order and within its maximum
    size: the new length is the old one plus one, capped at [maxSize]. *)
Theorem push_sorted_bounded (maxSize : nat) (buffer : list Hrv.Entry)
    (rr timestamp : Q) :
  sortedBuffer buffer -> (length buffer <= maxSize)%nat ->
  sortedBuffer (Hrv.push maxSize buffer rr timestamp)
  /\ length (Hrv.push maxSize buffer rr timestamp)
     = Nat.min (S (length buffer)) maxSize.
Proof.
  intros Hs Hlen. unfold Hrv.push.
  pose proof (splice_sorted buffer rr timestamp Hs) as Hsp.
  destruct (searchInsert_bounds buffer timestamp Hs) as (Hk & _ & _).
  assert (Hl : length (Hrv.splice buffer (Hrv.searchInsert buffer timestamp)
                         {| Hrv.eTimestamp := timestamp; Hrv.eRr := rr |})
               = S (length buffer)).
  { unfold Hrv.splice. rewrite length_app, length_take. simpl.
    rewrite length_drop. lia. }
  rewrite Hl. destruct (maxSize <? S (length buffer))%nat eqn:Hc.
  - apply Nat.ltb_lt in Hc. split; [by apply tail_sorted|].
    destruct (Hrv.splice _ _ _); cbn [tail length] in *; lia.
  - apply Nat.ltb_ge in Hc. split; [done|]. rewrite Hl. lia.
Qed.

Lemma push_sorted_bounded_witness :
  sortedBuffer [{| Hrv.eTimestamp := 1000; Hrv.eRr := 800 |};
                {| Hrv.eTimestamp := 1800; Hrv.eRr := 810 |};
                {| Hrv.eTimestamp := 2610; Hrv.eRr := 790 |}]
  /\ (3 <= 3)%nat
  /\ sortedBuffer
       (Hrv.push 3
          [{| Hrv.eTimestamp := 1000; Hrv.eRr := 800 |};
           {| Hrv.eTimestamp := 1800; Hrv.eRr := 810 |};
           {| Hrv.eTimestamp := 2610; Hrv.eRr := 790 |}] 805 2000)
  /\ length
       (Hrv.push 3
          [{| Hrv.eTimestamp := 1000; Hrv.eRr := 800 |};
           {| Hrv.eTimestamp := 1800; Hrv.eRr := 810 |};
           {| Hrv.eTimestamp := 2610; Hrv.eRr := 790 |}] 805 2000)
     = Nat.min 4 3.
Proof.
  split; [exact searchInsert_witness_sorted|]. split; [lia|].
  apply (push_sorted_bounded 3 _ 805 2000 searchInsert_witness_sorted).
  simpl; lia.
Defined.

(** X3.  A beat newer than every entry of the buffer is appended at the end,
    and the oldest entry leaves when the buffer is full. *)
Theorem push_newest (maxSize : nat) (buffer : list Hrv.Entry)
    (rr timestamp : Q) :
  sortedBuffer buffer ->
  Forall (fun e => (Hrv.eTimestamp e < timestamp)%Q) buffer ->
  Hrv.push maxSize buffer rr timestamp
  = let buffer' :=
      buffer ++ [{| Hrv.eTimestamp := timestamp; Hrv.eRr := rr |}] in
    if (maxSize <? S (length buffer))%nat then tail buffer' else buffer'.
Proof.
  intros Hs Hold.
  destruct (searchInsert_bounds buffer timestamp Hs) as (Hk & _ & Hhi).
  assert (Hrv.searchInsert buffer timestamp = length buffer) as Heq.
  { destruct (decide (Hrv.searchInsert buffer timestamp = length buffer))
      as [|Hne]; [done|].
    destruct (lookup_lt_is_Some_2 buffer (Hrv.searchInsert buffer timestamp))
      as [e He]; [lia|].
    pose proof (Hhi _ e (Nat.le_refl _) He) as Hge.
    pose proof (Forall_lookup_1 _ _ _ _ Hold He) as Hlt. simpl in Hlt. lra. }
  unfold Hrv.push, Hrv.splice. rewrite Heq, take_ge, drop_ge by lia.
  cbv zeta. by rewrite length_app, Nat.add_1_r.
Qed.

Lemma push_newest_witness :
  sortedBuffer [{| Hrv.eTimestamp := 1000; Hrv.eRr := 800 |};
                {| Hrv.eTimestamp := 1800; Hrv.eRr := 810 |};
                {| Hrv.eTimestamp := 2610; Hrv.eRr := 790 |}]
  /\ Forall (fun e => (Hrv.eTimestamp e < 3400)%Q)
       [{| Hrv.eTimestamp := 1000; Hrv.eRr := 800 |};
        {| Hrv.eTimestamp := 1800; Hrv.eRr := 810 |};
        {| Hrv.eTimestamp := 2610; Hrv.eRr := 790 |}]
  /\ Hrv.push 3
       [{| Hrv.eTimestamp := 1000; Hrv.eRr := 800 |};
        {| Hrv.eTimestamp := 1800; Hrv.eRr := 810 |};
        {| Hrv.eTimestamp := 2610; Hrv.eRr := 790 |}] 805 3400
     = [{| Hrv.eTimestamp := 1800; Hrv.eRr := 810 |};
        {| Hrv.eTimestamp := 2610; Hrv.eRr := 790 |};
        {| Hrv.eTimestamp := 3400; Hrv.eRr := 805 |}].
Proof.
  assert (H : Forall (fun e => (Hrv.eTimestamp e < 3400)%Q)
                [{| Hrv.eTimestamp := 1000; Hrv.eRr := 800 |};
                 {| Hrv.eTimestamp := 1800; Hrv.eRr := 810 |};
                 {| Hrv.eTimestamp := 2610; Hrv.eRr := 790 |}])
    by (repeat constructor).
  split; [exact searchInsert_witness_sorted|]. split; [exact H|].
  exact (push_newest 3 _ 805 3400 searchInsert_witness_sorted H).
Defined.

Lemma getPreviousByTimestamp_snoc (buffer : list Hrv.Entry) (e : Hrv.Entry)
    (t : Q) :
  Hrv.getPreviousByTimestamp (buffer ++ [e]) t
  = if JS.ltb (Hrv.eTimestamp e) t then Some (Hrv.eRr e)
    else Hrv.getPreviousByTimestamp buffer t.
Proof.
  unfold Hrv.getPreviousByTimestamp. rewrite rev_app_distr. simpl.
  by destruct (JS.ltb _ _).
Qed.

(** X4.  [getPreviousByTimestamp] returns the RR of the last entry older than
    [timestamp], and [null] exactly when no entry is older. *)
Theorem getPreviousByTimestamp_spec (buffer : list Hrv.Entry) (timestamp : Q) :
  match Hrv.getPreviousByTimestamp buffer timestamp with
  | Some rr =>
      exists i e,
        buffer !! i = Some e /\ Hrv.eRr e = rr
        /\ (Hrv.eTimestamp e < timestamp)%Q
        /\ forall j e', (i < j)%nat -> buffer !! j = Some e' ->
             (timestamp <= Hrv.eTimestamp e')%Q
  | None =>
      Forall (fun e => (timestamp <= Hrv.eTimestamp e)%Q) buffer
  end.
Proof.
  induction buffer as [|e buffer IH] using rev_ind; [by constructor|].
  rewrite getPreviousByTimestamp_snoc.
  destruct (JS.ltb (Hrv.eTimestamp e) timestamp) eqn:Hc.
  - apply ltb_iff in Hc. exists (length buffer), e.
    split; [by rewrite lookup_app_r, Nat.sub_diag by lia|].
    split; [done|]. split; [done|].
    intros j e' Hj He'. apply lookup_lt_Some in He'.
    rewrite length_app in He'. simpl in He'. lia.
  - apply not_true_iff_false in Hc. rewrite ltb_iff in Hc.
    apply Qnot_lt_le in Hc.
    destruct (Hrv.getPreviousByTimestamp buffer timestamp) as [rr|].
    + destruct IH as (i & e0 & Hi & Hrr & Hlt & Hlast).
      exists i, e0. split; [by apply lookup_app_l_Some|].
      split; [done|]. split; [done|].
      intros j e' Hj He'.
      destruct (decide (j < length buffer)%nat) as [Hjl|Hjl].
      * rewrite lookup_app_l in He' by done. by eapply Hlast.
      * rewrite lookup_app_r in He' by lia.
        destruct (j - length buffer)%nat; [|done].
        by injection He' as <-.
    + apply Forall_app. split; [done|]. by repeat constructor.
Qed.


(** ** hrv.js: the RR validator *)

Lemma range_check (o : Hrv.ValidatorOptions) (rr : Q) :
  JS.ltb rr (Hrv.minMs o) || JS.ltb (Hrv.maxMs o) rr = false
  <-> inRange o rr.
Proof.
  unfold inRange. rewrite orb_false_iff, <- !not_true_iff_false, !ltb_iff.
  split; intros [H1 H2]; split;
    first [by apply Qnot_lt_le | by apply Qle_not_lt].
Qed.

(** X5.  A beat the validator accepts passed the range check and came after
    the warm-up; accepting a beat empties the rejected run. *)
Theorem isValidRR_accepted (o : Hrv.ValidatorOptions) (run run' : list Q)
    (rr : Q) (lastValidRR : option Q) (beatCount : nat) :
  Hrv.isValidRR o run rr lastValidRR beatCount = (true, run') ->
  inRange o rr /\ (Hrv.warmupBeats o < beatCount)%nat /\ run' = [].
Proof.
  unfold Hrv.isValidRR.
  destruct (_ || _) eqn:Hr; [done|]. apply range_check in Hr.
  destruct (beatCount <=? _)%nat eqn:Hw; [done|]. apply Nat.leb_gt in Hw.
  destruct lastValidRR as [lastValid|]; [|by intros [= <-]].
  destruct (Hrv.exceedsDiff _ _ _); [|by intros [= <-]].
  destruct (_ <=? _)%nat; [by intros [= <-] | done].
Qed.

Lemma isValidRR_accepted_witness :
  Hrv.isValidRR serverValidator [] 800 (Some 790%Q) 11 = (true, [])
  /\ inRange serverValidator 800
  /\ (Hrv.warmupBeats serverValidator < 11)%nat
  /\ @nil Q = [].
Proof.
  assert (H : Hrv.isValidRR serverValidator [] 800 (Some 790%Q) 11
              = (true, [])) by (vm_compute; reflexivity).
  split; [exact H|].
  exact (isValidRR_accepted serverValidator [] [] 800 (Some 790%Q) 11 H).
Defined.

Lemma agreeingRun_snoc (o : Hrv.ValidatorOptions) (first : Q) (rest : list Q)
    (prev rr : Q) :
  last (first :: rest) = Some prev ->
  agreeingRun o first rest -> Hrv.withinDiff o rr prev = true ->
  agreeingRun o first (rest ++ [rr]).
Proof.
  revert first. induction rest as [|x rest IH]; intros first Hl Ha Hw; simpl.
  - injection Hl as <-. done.
  - destruct Ha as [Hx Ha]. split; [done|]. apply IH; try done.
Qed.

Lemma trackRejected_ok (o : Hrv.ValidatorOptions) (run : list Q) (rr : Q) :
  inRange o rr -> runOk o run ->
  Forall (inRange o) (Hrv.trackRejected o run rr)
  /\ match Hrv.trackRejected o run rr with
     | [] => True
     | x :: rest => agreeingRun o x rest
     end.
Proof.
  intros Hrr (Hin & Hag & _). unfold Hrv.trackRejected.
  assert (Hone : Forall (inRange o) [rr]) by (by apply Forall_singleton).
  destruct (last run) as [prev|] eqn:Hl; [|by split].
  destruct (Hrv.withinDiff o rr prev) eqn:Hw; [|by split].
  split; [by apply Forall_app|].
  destruct run as [|x rest]; [done|]. simpl.
  by eapply agreeingRun_snoc.
Qed.

(** X6.  The rejected run stays well formed from call to call: its beats
    passed the range check, each agrees with the one before it, and it
    never reaches the cascade count. *)
Theorem isValidRR_run_invariant (o : Hrv.ValidatorOptions) (run : list Q)
    (rr : Q) (lastValidRR : option Q) (beatCount : nat) :
  runOk o run ->
  runOk o (snd (Hrv.isValidRR o run rr lastValidRR beatCount)).
Proof.
  intros Hok.
  assert (Hnil : runOk o []) by (split; [constructor | split; [done | by left]]).
  unfold Hrv.isValidRR.
  destruct (_ || _) eqn:Hr; [done|]. apply range_check in Hr.
  destruct (beatCount <=? _)%nat; [done|].
  destruct lastValidRR as [lastValid|]; [|done].
  destruct (Hrv.exceedsDiff _ _ _); [|done].
  destruct (_ <=? _)%nat eqn:Hc; [done|]. apply Nat.leb_gt in Hc. simpl.
  destruct (trackRejected_ok o run rr Hr Hok) as [H1 H2].
  split; [done|]. split; [done|]. by right.
Qed.

Lemma isValidRR_run_invariant_witness :
  runOk serverValidator [1000%Q]
  /\ runOk serverValidator
       (snd (Hrv.isValidRR serverValidator [1000%Q] 1010 (Some 700%Q) 12)).
Proof.
  assert (H : runOk serverValidator [1000%Q]).
  { split; [repeat constructor; discriminate|].
    split; [exact I | right; simpl; lia]. }
  split; [exact H|].
  exact (isValidRR_run_invariant serverValidator [1000%Q] 1010
           (Some 700%Q) 12 H).
Defined.

Lemma validateAll_cascade_from (o : Hrv.ValidatorOptions) (lastValid : Q)
    (rrs run : list Q) (prev : Q) (beatCount : nat) :
  last run = Some prev -> agreeingRun o prev rrs -> rrs <> [] ->
  (length run + length rrs = Hrv.cascadeResetCount o)%nat ->
  Forall (inRange o) rrs ->
  Forall (fun rr => Hrv.exceedsDiff o rr lastValid = true) rrs ->
  (Hrv.warmupBeats o < beatCount)%nat ->
  validateAll o run (Some lastValid) beatCount rrs
  = (replicate (length rrs - 1) false ++ [true], []).
Proof.
  revert run prev beatCount.
  induction rrs as [|rr rest IH]; intros run prev bc Hl Hag Hne Hlen Hin Hex Hw;
    [done|].
  destruct Hag as [Hwd Hag].
  apply Forall_cons in Hin as [Hrr Hin]. apply Forall_cons in Hex as [He Hex].
  cbn [validateAll]. unfold Hrv.isValidRR.
  apply range_check in Hrr. rewrite Hrr.
  apply Nat.leb_gt in Hw. rewrite Hw, He.
  unfold Hrv.trackRejected. rewrite Hl, Hwd, length_app.
  destruct rest as [|rr' rest]; cbn [length] in *.
  - replace (_ <=? _)%nat with true by (symmetry; apply Nat.leb_le; lia).
    reflexivity.
  - replace (_ <=? _)%nat with false by (symmetry; apply Nat.leb_gt; lia).
    apply Nat.leb_gt in Hw.
    rewrite (IH (run ++ [rr]) rr (S bc)); try done.
    + simpl. by rewrite Nat.sub_0_r.
    + by rewrite last_snoc.
    + rewrite length_app. simpl. lia.
    + lia.
Qed.

(** At a reference of 0 no beat agrees: the quotient is [NaN] or
    [Infinity].  With a lower bound of 0, three beats of 0 ms after a
    valid beat of 700 ms are all rejected, each restarting the run. *)
Lemma withinDiff_zero_reference (o : Hrv.ValidatorOptions) (rr : Q) :
  Hrv.withinDiff o rr 0 = false.
Proof. unfold Hrv.withinDiff, Hrv.shareWithin. apply andb_false_r. Qed.

Lemma validateAll_zero_beats :
  validateAll
    {| Hrv.minMs := 0; Hrv.maxMs := 2000; Hrv.maxDiffMs := 200;
       Hrv.maxDiffPct := 0.20; Hrv.warmupBeats := 10;
       Hrv.cascadeResetCount := 3 |}
    [] (Some 700%Q) 11 [0; 0; 0]%Q
  = ([false; false; false], [0%Q]).
Proof. vm_compute. reflexivity. Qed.

(** X7.  The cascade breaker: when as many consecutive beats as the cascade
    count pass the range check after the warm-up, fail the difference
    check against the last valid RR and agree with one another, all but
    the last are rejected and the last is accepted, with the run
    emptied. *)
Theorem validator_cascade (o : Hrv.ValidatorOptions) (lastValid first : Q)
    (rest : list Q) (beatCount : nat) :
  length (first :: rest) = Hrv.cascadeResetCount o ->
  Forall (inRange o) (first :: rest) ->
  Forall (fun rr => Hrv.exceedsDiff o rr lastValid = true) (first :: rest) ->
  agreeingRun o first rest ->
  (Hrv.warmupBeats o < beatCount)%nat ->
  validateAll o [] (Some lastValid) beatCount (first :: rest)
  = (replicate (length rest) false ++ [true], []).
Proof.
  intros Hlen Hin Hex Hag Hw.
  apply Forall_cons in Hin as [Hrr Hin]. apply Forall_cons in Hex as [He Hex].
  cbn [validateAll]. unfold Hrv.isValidRR.
  apply range_check in Hrr. rewrite Hrr.
  pose proof Hw as Hw'. apply Nat.leb_gt in Hw'. rewrite Hw', He.
  cbn [Hrv.trackRejected last].
  destruct rest as [|rr' rest]; cbn [length] in *.
  - replace (_ <=? _)%nat with true by (symmetry; apply Nat.leb_le; lia).
    reflexivity.
  - replace (_ <=? _)%nat with false by (symmetry; apply Nat.leb_gt; lia).
    rewrite (validateAll_cascade_from o lastValid (rr' :: rest) [first] first
               (S beatCount));
      [simpl; by rewrite ?Nat.sub_0_r | try done; simpl in *; lia ..].
Qed.

Lemma validator_cascade_witness :
  length shiftedBeats = Hrv.cascadeResetCount serverValidator
  /\ Forall (inRange serverValidator) shiftedBeats
  /\ Forall (fun rr => Hrv.exceedsDiff serverValidator rr 700 = true)
       shiftedBeats
  /\ agreeingRun serverValidator 1000 [1010; 990]%Q
  /\ (Hrv.warmupBeats serverValidator < 11)%nat
  /\ validateAll serverValidator [] (Some 700%Q) 11 shiftedBeats
     = ([false; false; true], []).
Proof.
  assert (H1 : Forall (inRange serverValidator) shiftedBeats)
    by (repeat constructor; discriminate).
  assert (H2 : Forall (fun rr => Hrv.exceedsDiff serverValidator rr 700 = true)
                 shiftedBeats) by (repeat constructor).
  assert (H3 : agreeingRun serverValidator 1000 [1010; 990]%Q)
    by (repeat split).
  assert (H4 : (Hrv.warmupBeats serverValidator < 11)%nat) by (simpl; lia).
  split; [reflexivity|]. split; [exact H1|]. split; [exact H2|].
  split; [exact H3|]. split; [exact H4|].
  exact (validator_cascade serverValidator 700 1000 [1010; 990]%Q 11
           eq_refl H1 H2 H3 H4).
Defined.


(** ** hrv.js: the metrics *)

Lemma num_of_nat_le (a b : nat) :
  (a <= b)%nat -> (JS.num_of_nat a <= JS.num_of_nat b)%Q.
Proof. intros H. unfold JS.num_of_nat. rewrite <- Zle_Qle. lia. Qed.

Lemma num_of_nat_pos (a : nat) : (0 < a)%nat -> (0 < JS.num_of_nat a)%Q.
Proof.
  intros H. unfold JS.num_of_nat. change 0%Q with (inject_Z 0).
  rewrite <- Zlt_Qlt. lia.
Qed.

Lemma round2_bounds (x : Q) :
  (0 <= x)%Q -> (x <= 100)%Q ->
  (0 <= Hrv.round2 x)%Q /\ (Hrv.round2 x <= 100)%Q.
Proof.
  intros H0 H100. unfold Hrv.round2, JS.Math_round.
  assert (Hlo : (0 <= Qfloor (x * 100 + (1 # 2)))%Z).
  { change 0%Z with (Qfloor (1 # 2)). apply Qfloor_resp_le. lra. }
  assert (Hhi : (Qfloor (x * 100 + (1 # 2)) <= 10000)%Z).
  { change 10000%Z with (Qfloor (10000 + (1 # 2))).
    apply Qfloor_resp_le. lra. }
  rewrite Zle_Qle in Hlo, Hhi. change (inject_Z 0) with 0%Q in Hlo.
  split.
  - apply Qle_shift_div_l; [reflexivity|]. lra.
  - apply Qle_shift_div_r; [reflexivity|].
    change (100 * 100)%Q with (inject_Z 10000). exact Hhi.
Qed.

(** X8.  [calculateHRV] returns all three metrics when it has at least two
    intervals, with pNN50 between 0 and 100, and no metric at all
    otherwise. *)
Theorem calculateHRV_pnn50_bounds (Math_sqrt : Q -> Q) (rrIntervals : list Q) :
  match Server.pnn50 (Hrv.calculateHRV Math_sqrt rrIntervals) with
  | Some p =>
      (2 <= length rrIntervals)%nat /\ (0 <= p)%Q /\ (p <= 100)%Q
      /\ is_Some (Server.rmssd (Hrv.calculateHRV Math_sqrt rrIntervals))
      /\ is_Some (Server.sdnn (Hrv.calculateHRV Math_sqrt rrIntervals))
  | None =>
      (length rrIntervals < 2)%nat
      /\ Hrv.calculateHRV Math_sqrt rrIntervals = Server.nullHRV
  end.
Proof.
  unfold Hrv.calculateHRV.
  destruct (length rrIntervals <? 2)%nat eqn:Hn.
  { apply Nat.ltb_lt in Hn. by split. }
  apply Nat.ltb_ge in Hn. cbn [Server.pnn50 Server.rmssd Server.sdnn].
  split; [done|].
  set (diffs := Hrv.successiveDiffs rrIntervals).
  assert (Hd : (0 < length diffs)%nat).
  { unfold diffs, Hrv.successiveDiffs. rewrite length_map, length_seq. lia. }
  set (c := length (List.filter _ diffs)).
  assert (Hc : (c <= length diffs)%nat) by apply List.filter_length_le.
  assert (Hpct : (0 <= JS.num_of_nat c / JS.num_of_nat (length diffs) * 100)%Q
                 /\ (JS.num_of_nat c / JS.num_of_nat (length diffs) * 100
                     <= 100)%Q).
  { pose proof (num_of_nat_pos _ Hd) as Hpos.
    pose proof (num_of_nat_le _ _ Hc) as Hle.
    pose proof (num_of_nat_le 0 c ltac:(lia)) as Hc0.
    change (JS.num_of_nat 0) with 0%Q in Hc0.
    assert (0 <= JS.num_of_nat c / JS.num_of_nat (length diffs))%Q
      by (apply Qle_shift_div_l; [done | lra]).
    assert (JS.num_of_nat c / JS.num_of_nat (length diffs) <= 1)%Q
      by (apply Qle_shift_div_r; [done | lra]).
    split; lra. }
  destruct Hpct as [H0 H100].
  destruct (round2_bounds _ H0 H100) as [Hr0 Hr100].
  split; [done|]. split; [done|]. split; by eexists.
Qed.


(** ** lipponen.js: the helpers *)

(** X9.  The median of a non-empty array lies between any two bounds of its
    elements. *)
Theorem median_between (arr : list Q) (lo hi : Q) :
  arr <> [] -> Forall (between lo hi) arr -> between lo hi (median arr).
Proof.
  intros Hne Hb. unfold median.
  destruct arr as [|x arr']; [done|].
  set (arr := x :: arr') in *.
  change (length arr =? 0)%nat with false. cbv iota.
  assert (Hlen : length (sort_num arr) = length arr)
    by apply sort_by_length.
  assert (Hs : Forall (between lo hi) (sort_num arr))
    by by apply sort_by_Forall.
  assert (Hn : (0 < length arr)%nat) by (simpl; lia).
  assert (Hmid : (length (sort_num arr) / 2 < length (sort_num arr))%nat)
    by (apply Nat.div_lt; lia).
  destruct (negb _).
  - by apply get_Forall.
  - assert (H1 : between lo hi (get (sort_num arr)
                                  (length (sort_num arr) / 2 - 1)))
      by (apply get_Forall; [done | lia]).
    assert (H2 : between lo hi (get (sort_num arr)
                                  (length (sort_num arr) / 2)))
      by (by apply get_Forall).
    destruct H1, H2. split.
    + apply Qle_shift_div_l; [reflexivity | lra].
    + apply Qle_shift_div_r; [reflexivity | lra].
Qed.

Lemma median_between_witness :
  [605; 612; 1210; 598]%Q <> []
  /\ Forall (between 598 1210) [605; 612; 1210; 598]%Q
  /\ between 598 1210 (median [605; 612; 1210; 598]%Q).
Proof.
  assert (H : Forall (between 598 1210) [605; 612; 1210; 598]%Q)
    by (repeat constructor; discriminate).
  split; [discriminate|]. split; [exact H|].
  apply (median_between [605; 612; 1210; 598]%Q 598 1210);
    [discriminate | exact H].
Defined.

Lemma interpolate_between (lo hi a b r : Q) :
  between lo hi a -> between lo hi b -> (0 <= r)%Q -> (r <= 1)%Q ->
  between lo hi (a + r * (b - a)).
Proof. unfold between. intros [] [] ? ?. split; nra. Qed.

(** X10.  A quantile [q] between 0 and 1 of a non-empty array lies between any
    two bounds of its elements. *)
Theorem quantile_between (arr : list Q) (q lo hi : Q) :
  arr <> [] -> (0 <= q)%Q -> (q <= 1)%Q ->
  Forall (between lo hi) arr -> between lo hi (quantile arr q).
Proof.
  intros Hne Hq0 Hq1 Hb. unfold quantile.
  destruct arr as [|x arr']; [done|].
  set (arr := x :: arr') in *.
  change (length arr =? 0)%nat with false. cbv iota.
  assert (Hlen : length (sort_num arr) = length arr)
    by apply sort_by_length.
  assert (Hs : Forall (between lo hi) (sort_num arr))
    by by apply sort_by_Forall.
  assert (Hn : (0 < length (sort_num arr))%nat) by (rewrite Hlen; simpl; lia).
  set (n := length (sort_num arr)) in *.
  set (pos := ((num_of_nat n - 1) * q)%Q).
  assert (Hn1 : (num_of_nat n - 1 == inject_Z (Z.of_nat (n - 1)))%Q).
  { unfold num_of_nat. rewrite Nat2Z.inj_sub by lia.
    unfold Zminus. rewrite inject_Z_plus, inject_Z_opp. reflexivity. }
  assert (Hn1pos : (0 <= inject_Z (Z.of_nat (n - 1)))%Q).
  { change 0%Q with (inject_Z 0). rewrite <- Zle_Qle. lia. }
  assert (Hpos0 : (0 <= pos)%Q) by (unfold pos; rewrite Hn1; nra).
  assert (Hposn : (pos <= inject_Z (Z.of_nat (n - 1)))%Q)
    by (unfold pos; rewrite Hn1; nra).
  assert (Hb0 : (0 <= Qfloor pos)%Z).
  { change 0%Z with (Qfloor 0). by apply Qfloor_resp_le. }
  assert (Hbn : (Qfloor pos <= Z.of_nat (n - 1))%Z).
  { rewrite <- (Qfloor_Z (Z.of_nat (n - 1))). by apply Qfloor_resp_le. }
  assert (Hbase : (Z.to_nat (Qfloor pos) < n)%nat) by lia.
  pose proof (Qfloor_le pos) as Hfl.
  pose proof (Qlt_floor pos) as Hfu.
  rewrite inject_Z_plus in Hfu. change (inject_Z 1) with 1%Q in Hfu.
  destruct (_ <? _)%nat eqn:Hnext.
  - apply Nat.ltb_lt in Hnext.
    apply interpolate_between; try lra; by apply get_Forall.
  - by apply get_Forall.
Qed.

Lemma quantile_between_witness :
  [605; 612; 1210; 598]%Q <> []
  /\ (0 <= 0.75)%Q /\ (0.75 <= 1)%Q
  /\ Forall (between 598 1210) [605; 612; 1210; 598]%Q
  /\ between 598 1210 (quantile [605; 612; 1210; 598]%Q 0.75).
Proof.
  assert (H : Forall (between 598 1210) [605; 612; 1210; 598]%Q)
    by (repeat constructor; discriminate).
  split; [discriminate|]. split; [discriminate|]. split; [discriminate|].
  split; [exact H|].
  apply (quantile_between [605; 612; 1210; 598]%Q 0.75 598 1210);
    [discriminate | discriminate | discriminate | exact H].
Defined.


(** X11.  The window of [rollingCentered] at index [i] holds the elements at
    most [windowSize / 2] places away from [i], in order: it shrinks at
    the edges, is never empty and never longer than
    [2 * (windowSize / 2) + 1]. *)
Theorem rollingCentered_window (arr : list Q) (windowSize i : nat) :
  (i < length arr)%nat ->
  let half := (windowSize / 2)%nat in
  exists window,
    rollingCentered arr windowSize (fun w => w) !! i = Some window
    /\ (1 <= length window <= 2 * half + 1)%nat
    /\ (forall k, window !! k
                  = if decide (i - half + k <= i + half)%nat
                    then arr !! (i - half + k)%nat else None).
Proof.
  intros Hi half. unfold rollingCentered. fold half.
  rewrite list_lookup_fmap, lookup_seq_lt by done. cbn [fmap option_fmap option_map].
  eexists. split; [reflexivity|]. split.
  - rewrite slice_length. lia.
  - intros k. unfold slice. rewrite Nat.max_0_l.
    destruct (decide (i - half + k <= i + half)%nat) as [Hk|Hk].
    + destruct (decide (i - half + k < length arr)%nat) as [Hl|Hl].
      * rewrite lookup_take_lt by lia. by rewrite lookup_drop.
      * rewrite (lookup_ge_None_2 arr) by lia.
        apply lookup_ge_None_2. rewrite length_take, length_drop. lia.
    + apply lookup_ge_None_2. rewrite length_take, length_drop. lia.
Qed.

Lemma rollingCentered_window_witness :
  (0 < length [605; 612; 1210; 598]%Q)%nat
  /\ exists window,
       rollingCentered [605; 612; 1210; 598]%Q 3 (fun w => w) !! 0%nat
       = Some window
       /\ (1 <= length window <= 2 * (3 / 2) + 1)%nat
       /\ (forall k, window !! k
                     = if decide (0 - 3 / 2 + k <= 0 + 3 / 2)%nat
                       then [605; 612; 1210; 598]%Q !! (0 - 3 / 2 + k)%nat
                       else None).
Proof.
  split; [simpl; lia|].
  apply (rollingCentered_window [605; 612; 1210; 598]%Q 3 0). simpl; lia.
Defined.

Lemma compute_dRR_length (rr : list Q) :
  (1 <= length rr)%nat -> length (compute_dRR rr) = length rr.
Proof.
  intros H. unfold compute_dRR. simpl. rewrite length_map, length_seq. lia.
Qed.

Lemma compute_dRR_get (rr : list Q) (i : nat) :
  (1 <= i < length rr)%nat ->
  get (compute_dRR rr) i = (get rr i - get rr (i - 1))%Q.
Proof.
  intros Hi. unfold compute_dRR, get at 1.
  destruct i as [|i]; [lia|]. cbn [nth].
  change (nth i ?l 0%Q) with (get l i). apply get_lookup.
  rewrite list_lookup_fmap, lookup_seq_lt by lia. done.
Qed.

Lemma telescope (rr : list Q) (k : nat) :
  (fold_left Qplus
     (map (fun i => (get rr i - get rr (i - 1))%Q) (seq 1 k)) 0
   == get rr k - get rr 0)%Q.
Proof.
  induction k as [|k IH].
  - simpl. ring.
  - rewrite seq_S, map_app, fold_left_app.
    cbn [map fold_left]. rewrite IH.
    replace (1 + k - 1)%nat with k by lia. change (1 + k)%nat with (S k).
    ring.
Qed.

(** X12.  The differences [dRR]: one per interval; from index 1 the successive
    differences of [rr], and at index 0 their mean, which is the overall
    change divided by [n - 1]. *)
Theorem compute_dRR_spec (rr : list Q) :
  (2 <= length rr)%nat ->
  length (compute_dRR rr) = length rr
  /\ (forall i, (1 <= i < length rr)%nat ->
        get (compute_dRR rr) i = (get rr i - get rr (i - 1))%Q)
  /\ (get (compute_dRR rr) 0 * (num_of_nat (length rr) - 1)
      == get rr (length rr - 1) - get rr 0)%Q.
Proof.
  intros Hn. split; [apply compute_dRR_length; lia|].
  split; [apply compute_dRR_get|].
  unfold compute_dRR, get at 1. cbn [nth]. rewrite telescope.
  assert (Hpos : (0 < num_of_nat (length rr) - 1)%Q).
  { pose proof (num_of_nat_le 2 (length rr) Hn) as H.
    change (num_of_nat 2) with 2%Q in H. lra. }
  field. lra.
Qed.

Lemma compute_dRR_spec_witness :
  (2 <= length [605; 612; 1210; 598; 610]%Q)%nat
  /\ length (compute_dRR [605; 612; 1210; 598; 610]%Q) = 5%nat
  /\ (forall i, (1 <= i < 5)%nat ->
        get (compute_dRR [605; 612; 1210; 598; 610]%Q) i
        = (get [605; 612; 1210; 598; 610]%Q i
           - get [605; 612; 1210; 598; 610]%Q (i - 1))%Q)
  /\ (get (compute_dRR [605; 612; 1210; 598; 610]%Q) 0
      * (num_of_nat 5 - 1)
      == get [605; 612; 1210; 598; 610]%Q 4
         - get [605; 612; 1210; 598; 610]%Q 0)%Q.
Proof.
  split; [simpl; lia|].
  apply (compute_dRR_spec [605; 612; 1210; 598; 610]%Q). simpl; lia.
Defined.

Lemma adaptiveThreshold_min (window : list Q) :
  (50 <= adaptiveThreshold window)%Q.
Proof.
  unfold adaptiveThreshold, Math_max, MIN_THRESHOLD.
  destruct (Qle_bool _ 50) eqn:H; [lra|].
  apply not_true_iff_false in H. rewrite Qle_bool_iff in H.
  apply Qnot_le_lt in H. lra.
Qed.

Lemma threshold_get (xs : list Q) (i : nat) :
  (i < length xs)%nat ->
  (50 <= get (rollingCentered xs QD_WINDOW adaptiveThreshold) i)%Q.
Proof.
  intros Hi. unfold rollingCentered. rewrite get_map_seq by done.
  apply adaptiveThreshold_min.
Qed.

Lemma normalize_get (xs th : list Q) (i : nat) :
  (i < length xs)%nat -> get (normalize xs th) i = (get xs i / get th i)%Q.
Proof. intros Hi. unfold normalize. by rewrite get_map_seq. Qed.

Lemma normalized_small (x th d : Q) :
  (50 <= th)%Q -> (Qabs x <= d)%Q -> (Qabs (x / th) * 50 <= d)%Q.
Proof.
  intros Hth Hx. unfold Qdiv. rewrite Qabs_Qmult.
  assert (Hinv : (0 < / th)%Q) by (apply Qinv_lt_0_compat; lra).
  rewrite (Qabs_pos (/ th)) by lra.
  assert (Hone : (/ th * th == 1)%Q) by (field; lra).
  pose proof (Qabs_nonneg x). nra.
Qed.

(** X13.  Every array the classification walk reads has one entry per
    interval; the thresholds are at least 50 ms, so the normalised
    differences are bounded by the raw ones: [|drrs[i]| * 50 <= |dRR[i]|]. *)
Theorem compute_series_arrays (rr : list Q) (i : nat) :
  (1 <= length rr)%nat ->
  let s := compute_series rr in
  (sn s = length rr /\ length (smedrr s) = length rr
   /\ length (sth2 s) = length rr /\ length (sdrrs s) = length rr
   /\ length (smrrs s) = length rr /\ length (ss12 s) = length rr
   /\ length (ss22 s) = length rr)
  /\ ((i < length rr)%nat ->
      (50 <= get (sth2 s) i)%Q
      /\ (Qabs (get (sdrrs s) i) * 50 <= Qabs (get (compute_dRR rr) i))%Q).
Proof.
  intros Hn s. split.
  - unfold s, compute_series; cbn [sn smedrr sth2 sdrrs smrrs ss12 ss22].
    unfold normalize, compute_mRR, compute_s12, compute_s22.
    rewrite !rollingCentered_length, !length_map, !length_seq,
      ?rollingCentered_length, ?length_map, ?length_seq,
      ?compute_dRR_length by done.
    done.
  - intros Hi. split.
    + unfold s, compute_series; cbn [sth2]. apply threshold_get.
      unfold compute_mRR. by rewrite length_map, length_seq.
    + unfold s, compute_series; cbn [sdrrs].
      rewrite normalize_get by (by rewrite compute_dRR_length).
      apply normalized_small; [|lra].
      apply threshold_get. by rewrite compute_dRR_length.
Qed.

Lemma compute_series_arrays_witness :
  (1 <= length [605; 612; 1210; 598; 610]%Q)%nat
  /\ sn (compute_series [605; 612; 1210; 598; 610]%Q) = 5%nat.
Proof.
  split; [simpl; lia|].
  apply (compute_series_arrays [605; 612; 1210; 598; 610]%Q 0). simpl; lia.
Defined.


(** ** lipponen.js: more on [analyzeRR] *)

Lemma sum_diffs_bound (f : nat -> Q) (d : Q) (k : nat) :
  (forall i, (1 <= i <= k)%nat -> (Qabs (f i) <= d)%Q) ->
  (Qabs (fold_left Qplus (map f (seq 1 k)) 0) <= d * num_of_nat k)%Q.
Proof.
  induction k as [|k IH]; intros Hf.
  - simpl. unfold num_of_nat. simpl. rewrite Qmult_0_r. discriminate.
  - rewrite seq_S, map_app, fold_left_app. cbn [map fold_left].
    change (1 + k)%nat with (S k).
    assert (Hk : (num_of_nat (S k) == num_of_nat k + 1)%Q).
    { unfold num_of_nat. rewrite Nat2Z.inj_succ. unfold Z.succ.
      by rewrite inject_Z_plus. }
    rewrite Hk. specialize (IH ltac:(intros; apply Hf; lia)).
    specialize (Hf (S k) ltac:(lia)).
    apply Qabs_Qle_condition in IH as [], Hf as [].
    apply Qabs_Qle_condition. split; lra.
Qed.

Lemma calm_dRR (rr : list Q) (i : nat) :
  (2 <= length rr)%nat -> calm 50 rr -> (i < length rr)%nat ->
  (Qabs (get (compute_dRR rr) i) <= 50)%Q.
Proof.
  intros Hn Hc Hi. destruct i as [|i].
  - unfold compute_dRR, get at 1. cbn [nth].
    assert (Hpos : (0 < num_of_nat (length rr) - 1)%Q).
    { pose proof (num_of_nat_le 2 (length rr) Hn) as H.
      change (num_of_nat 2) with 2%Q in H. lra. }
    assert (Hsum := sum_diffs_bound
                      (fun i => (get rr i - get rr (i - 1))%Q) 50
                      (length rr - 1) ltac:(intros; apply Hc; lia)).
    assert (Hk : (num_of_nat (length rr - 1) == num_of_nat (length rr) - 1)%Q).
    { unfold num_of_nat. rewrite Nat2Z.inj_sub by lia.
      unfold Zminus. rewrite inject_Z_plus, inject_Z_opp. reflexivity. }
    rewrite Hk in Hsum.
    apply Qabs_Qle_condition in Hsum as [Hlo Hhi].
    apply Qabs_Qle_condition. split.
    + apply Qle_shift_div_l; [done | lra].
    + apply Qle_shift_div_r; [done | lra].
  - rewrite compute_dRR_get by lia. apply Hc. lia.
Qed.

Lemma calm_drrs (rr : list Q) (i : nat) :
  (2 <= length rr)%nat -> calm 50 rr -> (i < length rr)%nat ->
  leb (Math_abs (get (sdrrs (compute_series rr)) i)) 1 = true.
Proof.
  intros Hn Hc Hi. apply leb_iff. unfold Math_abs, compute_series.
  cbn [sdrrs]. rewrite normalize_get by (rewrite compute_dRR_length; lia).
  pose proof (calm_dRR rr i Hn Hc Hi) as Hd.
  assert (Hth : (50 <= get (rollingCentered (compute_dRR rr) QD_WINDOW
                              adaptiveThreshold) i)%Q)
    by (apply threshold_get; rewrite compute_dRR_length; lia).
  pose proof (normalized_small _ _ _ Hth Hd). lra.
Qed.

Lemma walk_without_large (fuel : nat) (s : Series) (w : Walk) :
  (forall i, (i < sn s)%nat -> leb (Math_abs (get (sdrrs s) i)) 1 = true) ->
  classifications (walk fuel s w) = classifications w
  /\ ectopicPairs (walk fuel s w) = ectopicPairs w.
Proof.
  intros Hsmall. revert w. induction fuel as [|fuel IH]; intros w; [done|].
  cbn [walk]. destruct (wi w <? sn s - 2)%nat eqn:Hlt; [|done].
  apply Nat.ltb_lt in Hlt.
  destruct (IH (walkStep s w)) as [-> ->].
  unfold walkStep. by rewrite Hsmall by lia.
Qed.

Lemma fold_correctAt_none (s : Series) (cls : list string) (idxs : list nat)
    (res : list Result) :
  Forall (fun c => c = "none") cls ->
  fold_left (correctAt s cls) idxs res = res.
Proof.
  intros Hc. revert res. induction idxs as [|i idxs IH]; intros res; [done|].
  cbn [fold_left]. rewrite <- (IH res) at 2. f_equal.
  unfold correctAt. destruct (res !! i); [|done].
  destruct (cls !! i) as [c|] eqn:Hci; [|done].
  by rewrite (Forall_lookup_1 _ _ _ _ Hc Hci).
Qed.

Lemma map_get_seq {B} (f : Q -> B) (l : list Q) :
  map (fun i => f (get l i)) (seq 0 (length l)) = map f l.
Proof.
  apply list_eq. intros i. rewrite !list_lookup_fmap.
  destruct (decide (i < length l)%nat) as [Hi|Hi].
  - rewrite lookup_seq_lt by done.
    destruct (lookup_lt_is_Some_2 l i Hi) as [x Hx].
    rewrite Hx. simpl. by rewrite (get_lookup _ _ _ Hx).
  - rewrite lookup_seq_ge, (lookup_ge_None_2 l) by lia. done.
Qed.

Lemma emitClean_none (rr : list Q) :
  flat_map emitClean
    (map (fun v => {| rr_clean := Some v; artifact_type := "none" |}) rr)
  = rr.
Proof. induction rr as [|v rr IH]; simpl; [done|]. by rewrite IH. Qed.

Lemma countType_none (t : string) (rr : list Q) :
  countType t
    (map (fun v => {| rr_clean := Some v; artifact_type := "none" |}) rr)
  = if decide ("none" = t) then length rr else 0%nat.
Proof.
  induction rr as [|v rr IH]; [by case_decide|].
  cbn [map]. rewrite countType_cons, IH. cbn [artifact_type].
  case_decide; simpl; done.
Qed.

(** X14.  No false positive on a calm series: when no successive difference
    exceeds 50 ms in absolute value, every beat is classified 'none' with
    its own value, the clean series is the input, and no artifact is
    counted. *)
Theorem analyzeRR_calm (rr : list Q) :
  calm 50 rr ->
  results (analyzeRR rr)
  = map (fun v => {| rr_clean := Some v; artifact_type := "none" |}) rr
  /\ cleanSeries (analyzeRR rr) = rr
  /\ artifacts (stats (analyzeRR rr)) = 0%nat.
Proof.
  intros Hc. unfold analyzeRR.
  destruct (length rr <? 4)%nat eqn:Hn; [done|].
  apply Nat.ltb_ge in Hn. cbn [results cleanSeries stats].
  assert (Hres : correctedResults (compute_series rr)
                   (classify (compute_series rr))
                 = map (fun v => {| rr_clean := Some v;
                                    artifact_type := "none" |}) rr).
  { unfold correctedResults, classify.
    destruct (walk_without_large (sn (compute_series rr)) (compute_series rr)
                (walkStart (compute_series rr))) as [-> ->].
    { intros i Hi. apply calm_drrs; [lia | done | exact Hi]. }
    cbn [walkStart classifications ectopicPairs fold_left].
    rewrite fold_correctAt_none
      by (apply Forall_replicate; reflexivity).
    unfold initialResults. cbn [sn srr compute_series].
    rewrite <- (map_get_seq
                  (fun v => {| rr_clean := Some v; artifact_type := "none" |})).
    apply map_ext_in. intros i Hi. apply in_seq in Hi. f_equal.
    by rewrite lookup_replicate_2 by lia. }
  rewrite Hres. split; [done|]. split; [apply emitClean_none|].
  unfold computeStats. cbn [artifacts]. by rewrite !countType_none.
Qed.

Lemma analyzeRR_calm_witness :
  calm 50 [800; 810; 805; 795; 800; 790]%Q
  /\ results (analyzeRR [800; 810; 805; 795; 800; 790]%Q)
     = map (fun v => {| rr_clean := Some v; artifact_type := "none" |})
         [800; 810; 805; 795; 800; 790]%Q
  /\ cleanSeries (analyzeRR [800; 810; 805; 795; 800; 790]%Q)
     = [800; 810; 805; 795; 800; 790]%Q
  /\ artifacts (stats (analyzeRR [800; 810; 805; 795; 800; 790]%Q)) = 0%nat.
Proof.
  assert (H : calm 50 [800; 810; 805; 795; 800; 790]%Q).
  { intros i Hi. simpl in Hi.
    do 6 (destruct i as [|i]; [try lia; vm_compute; discriminate|]). lia. }
  split; [exact H|].
  exact (analyzeRR_calm [800; 810; 805; 795; 800; 790]%Q H).
Defined.

Lemma count_partition (rs : list Result) :
  Forall Shape rs ->
  (countType "ectopic" rs + countType "missed" rs + countType "extra" rs
   + countType "longshort" rs + countType "none" rs
   + countType "extra_absorbed" rs = length rs)%nat.
Proof.
  induction 1 as [|r rs Hr Hrs IH]; [done|].
  rewrite !countType_cons. cbn [length].
  destruct Hr as [Hty _]. unfold artifactTypes in Hty.
  rewrite !elem_of_cons, elem_of_nil in Hty.
  destruct Hty as [->|[->|[->|[->|[->|[->|[]]]]]]]; simpl; lia.
Qed.

(** X15.  The statistics agree with the results: [total] is the number of
    intervals, each counter is the number of results of its type,
    [artifacts] is their sum, and together with the 'none' and
    'extra_absorbed' results they account for every interval. *)
Theorem analyzeRR_stats (rr : list Q) :
  total (stats (analyzeRR rr)) = length rr
  /\ ectopic (stats (analyzeRR rr)) = countType "ectopic" (results (analyzeRR rr))
  /\ missed (stats (analyzeRR rr)) = countType "missed" (results (analyzeRR rr))
  /\ extra (stats (analyzeRR rr)) = countType "extra" (results (analyzeRR rr))
  /\ longshort (stats (analyzeRR rr))
     = countType "longshort" (results (analyzeRR rr))
  /\ artifacts (stats (analyzeRR rr))
     = (ectopic (stats (analyzeRR rr)) + missed (stats (analyzeRR rr))
        + extra (stats (analyzeRR rr)) + longshort (stats (analyzeRR rr)))%nat
  /\ (artifacts (stats (analyzeRR rr))
      + countType "none" (results (analyzeRR rr))
      + countType "extra_absorbed" (results (analyzeRR rr))
      = length rr)%nat.
Proof.
  pose proof (count_partition _ (analyzeRR_Shape rr)) as Hp.
  rewrite analyzeRR_results_length in Hp. revert Hp.
  unfold analyzeRR. destruct (length rr <? 4)%nat;
    cbn [results stats total ectopic missed extra longshort artifacts
         computeStats]; intros Hp.
  - rewrite !countType_none in *;
      repeat case_decide; try done; repeat split; lia.
  - repeat split; lia.
Qed.

(** X16.  On positive intervals the clean series holds only positive values. *)
Theorem analyzeRR_cleanSeries_positive (rr : list Q) :
  Forall positive rr -> Forall positive (cleanSeries (analyzeRR rr)).
Proof.
  intros Hpos. pose proof (analyzeRR_PosClean rr Hpos) as Hp. revert Hp.
  unfold analyzeRR. destruct (length rr <? 4)%nat;
    cbn [results cleanSeries]; [done|].
  generalize (correctedResults (compute_series rr)
                (classify (compute_series rr))).
  induction 1 as [|r rs Hr Hrs IH]; [constructor|].
  cbn [flat_map]. apply Forall_app. split; [|done].
  unfold emitClean. destruct (rr_clean r) as [v|] eqn:Hv; [|constructor].
  specialize (Hr v Hv). destruct (String.eqb _ _); repeat constructor; done.
Qed.

Lemma analyzeRR_cleanSeries_positive_witness :
  Forall positive [600; 300; 300; 600; 600]%Q
  /\ Forall positive (cleanSeries (analyzeRR [600; 300; 300; 600; 600]%Q)).
Proof.
  assert (H : Forall positive [600; 300; 300; 600; 600]%Q)
    by (repeat constructor).
  split; [exact H|].
  exact (analyzeRR_cleanSeries_positive [600; 300; 300; 600; 600]%Q H).
Defined.


Lemma tail_insert (n j : nat) (v : string) (cls : list string) :
  ((j < n - 1)%nat \/ v = "extra_absorbed") ->
  (forall k c, cls !! k = Some c -> (n - 1 <= k)%nat ->
     c = "none" \/ c = "extra_absorbed") ->
  forall k c, <[j := v]> cls !! k = Some c -> (n - 1 <= k)%nat ->
    c = "none" \/ c = "extra_absorbed".
Proof.
  intros Hj Hcls k c Hk Hn.
  apply list_lookup_insert_Some in Hk as [(-> & -> & _)|[_ Hk]].
  - destruct Hj as [Hj| ->]; [lia | by right].
  - by eapply Hcls.
Qed.

Lemma tryCandidates_tail (s : Series) (cands : list nat)
    (cls cls' : list string) (i' : nat) :
  Forall (fun j => (j < sn s - 1)%nat) cands ->
  tryCandidates s cands cls = Some (i', cls') ->
  (forall k c, cls !! k = Some c -> (sn s - 1 <= k)%nat ->
     c = "none" \/ c = "extra_absorbed") ->
  forall k c, cls' !! k = Some c -> (sn s - 1 <= k)%nat ->
    c = "none" \/ c = "extra_absorbed".
Proof.
  induction 1 as [|j rest Hj Hrest IH]; cbn [tryCandidates]; [done|].
  destruct (extraTest s j).
  { intros [= <- <-] Hcls.
    apply tail_insert; [by right|]. apply tail_insert; [by left | done]. }
  destruct (missedTest s j); [|done].
  intros [= <- <-] Hcls. apply tail_insert; [by left | done].
Qed.

Lemma walkStep_tail (s : Series) (w : Walk) :
  (wi w < sn s - 2)%nat -> TailInv s w -> TailInv s (walkStep s w).
Proof.
  intros Hi [Hty Hp]. unfold walkStep.
  destruct (leb _ _); [by constructor|].
  destruct (isEctopic _ _).
  { destruct (0 <? wi w)%nat; constructor; cbn; auto.
    - apply Forall_app. split; [done|]. repeat constructor; simpl; lia.
    - apply tail_insert; [left; lia | done]. }
  destruct (isLongShortCandidate _ _); [|by constructor].
  destruct (tryCandidates _ _ _) as [[i' cls']|] eqn:Hc.
  - constructor; cbn; [|done].
    eapply tryCandidates_tail; [|exact Hc|done].
    apply Forall_forall. intros j Hj. apply candidates_range in Hj. lia.
  - constructor; cbn; [|done]. apply tail_insert; [left; lia | done].
Qed.

Lemma walk_tail (fuel : nat) (s : Series) (w : Walk) :
  TailInv s w -> TailInv s (walk fuel s w).
Proof.
  revert w. induction fuel as [|fuel IH]; intros w Hw; simpl; [done|].
  destruct (wi w <? sn s - 2)%nat eqn:Hlt; [|done].
  apply IH, walkStep_tail; [|done]. by apply Nat.ltb_lt.
Qed.

Lemma classify_tail (s : Series) : TailInv s (classify s).
Proof.
  apply walk_tail. constructor; cbn.
  - intros k c Hk _. apply lookup_replicate in Hk as [-> _]. by left.
  - constructor.
Qed.

Lemma fold_correctEctopic_lookup (s : Series) (pairs : list (nat * nat))
    (res : list Result) (k : nat) :
  Forall (fun p => fst p <> k /\ snd p <> k) pairs ->
  fold_left (correctEctopic s) pairs res !! k = res !! k.
Proof.
  revert res. induction pairs as [|[a b] pairs IH]; intros res Hp; [done|].
  apply Forall_cons in Hp as [[Ha Hb] Hp]. cbn [fold_left].
  rewrite IH by done. unfold correctEctopic.
  by rewrite !list_lookup_insert_ne.
Qed.

(** X17.  The last interval is never corrected in value: its result is either
    its own value with type 'none', or the absorbed half of an extra
    beat. *)
Theorem analyzeRR_last_beat (rr : list Q) :
  (4 <= length rr)%nat ->
  results (analyzeRR rr) !! (length rr - 1)%nat
  = Some {| rr_clean := Some (get rr (length rr - 1));
            artifact_type := "none" |}
  \/ results (analyzeRR rr) !! (length rr - 1)%nat
     = Some {| rr_clean := None; artifact_type := "extra_absorbed" |}.
Proof.
  intros Hn. unfold analyzeRR.
  replace (length rr <? 4)%nat with false by (symmetry; apply Nat.ltb_ge; lia).
  cbn [results]. set (s := compute_series rr).
  destruct (classify_inv s) as [Hlen _ _].
  destruct (classify_tail s) as [Hty Hp].
  assert (Hsn : sn s = length rr) by reflexivity.
  unfold correctedResults. rewrite fold_correctEctopic_lookup.
  2:{ eapply Forall_impl; [exact Hp|]. intros [a b]; simpl. lia. }
  destruct (lookup_lt_is_Some_2 (classifications (classify s))
              (length rr - 1)) as [c Hc]; [lia|].
  rewrite (results1_lookup s _ _ c Hlen Hc).
  destruct (Hty _ _ Hc ltac:(lia)) as [-> | ->]; [by left | by right].
Qed.

Lemma analyzeRR_last_beat_witness :
  (4 <= length [600; 300; 300; 600; 600]%Q)%nat
  /\ (results (analyzeRR [600; 300; 300; 600; 600]%Q)
        !! (length [600; 300; 300; 600; 600]%Q - 1)%nat
      = Some {| rr_clean := Some (get [600; 300; 300; 600; 600]%Q
                                    (length [600; 300; 300; 600; 600]%Q - 1));
                artifact_type := "none" |}
      \/ results (analyzeRR [600; 300; 300; 600; 600]%Q)
           !! (length [600; 300; 300; 600; 600]%Q - 1)%nat
         = Some {| rr_clean := None; artifact_type := "extra_absorbed" |}).
Proof.
  split; [simpl; lia|].
  apply (analyzeRR_last_beat [600; 300; 300; 600; 600]%Q). simpl; lia.
Defined.

Lemma walk_index_bound (fuel : nat) (s : Series) (w : Walk) :
  (wi w <= sn s)%nat -> (wi (walk fuel s w) <= sn s)%nat.
Proof.
  revert w. induction fuel as [|fuel IH]; intros w Hw; simpl; [done|].
  destruct (wi w <? sn s - 2)%nat eqn:Hlt; [|done].
  apply Nat.ltb_lt in Hlt. apply IH.
  unfold walkStep.
  destruct (leb _ _); cbn [wi]; [lia|].
  destruct (isEctopic _ _); [destruct (0 <? wi w)%nat; cbn [wi]; lia|].
  destruct (isLongShortCandidate _ _); cbn [wi]; [|lia].
  destruct (tryCandidates _ _ _) as [[i' cls']|] eqn:Hc; cbn [wi]; [|lia].
  apply tryCandidates_Some in Hc as ((j & Hj & ->) & _).
  apply candidates_range in Hj. lia.
Qed.

(** X18.  The classification loop terminates: it is left within [n]
    iterations, with the index between [n - 2] and [n], and further
    iterations would change nothing. *)
Theorem classify_terminates (s : Series) (more : nat) :
  walk (sn s + more) s (walkStart s) = classify s
  /\ (sn s - 2 <= wi (classify s))%nat
  /\ (wi (classify s) <= sn s)%nat.
Proof.
  split; [apply walk_fuel_stable; simpl; lia|].
  split; [apply classify_exits|]. apply walk_index_bound. simpl. lia.
Qed.


(** ** server.js: more on POST /beats *)

Lemma pushBounded_drop (size : nat) (buf : list Q) (x : Q) :
  (length buf <= size)%nat ->
  pushBounded size buf x = drop (length buf + 1 - size) (buf ++ [x]).
Proof.
  intros Hl. unfold pushBounded. rewrite length_app. cbn [length].
  destruct (size <? length buf + 1)%nat eqn:Hc.
  - apply Nat.ltb_lt in Hc. replace (length buf + 1 - size)%nat with 1%nat by lia.
    by destruct (buf ++ [x]).
  - apply Nat.ltb_ge in Hc. by replace (length buf + 1 - size)%nat with 0%nat by lia.
Qed.

Lemma pushBounded_fold (size : nat) (rrs buf : list Q) :
  (length buf <= size)%nat ->
  fold_left (pushBounded size) rrs buf
  = drop (length buf + length rrs - size) (buf ++ rrs).
Proof.
  revert buf. induction rrs as [|x rrs IH]; intros buf Hl.
  - cbn [fold_left length]. rewrite app_nil_r.
    by replace (length buf + 0 - size)%nat with 0%nat by lia.
  - cbn [fold_left]. rewrite (pushBounded_drop size buf x Hl).
    assert (Hlen : length (drop (length buf + 1 - size) (buf ++ [x]))
                   = Nat.min (length buf + 1) size).
    { rewrite length_drop, length_app. simpl. lia. }
    rewrite IH by (rewrite Hlen; lia). rewrite Hlen.
    rewrite <- drop_app_le by (rewrite length_app; simpl; lia).
    rewrite drop_drop, <- app_assoc. cbn [app length]. f_equal. lia.
Qed.

Lemma beatLoop_state (device : string) (t : Q) (hr : option Q)
    (src : option string) (rrs : list Q) (acc : BeatLoop) :
  loopWindow (fold_left (beatStep device t hr src) rrs acc)
  = fold_left (pushBounded REALTIME_WINDOW_SIZE) rrs (loopWindow acc)
  /\ loopBeats (fold_left (beatStep device t hr src) rrs acc)
     = (loopBeats acc + length rrs)%nat
  /\ cumulativeRR (fold_left (beatStep device t hr src) rrs acc)
     = fold_left Qplus rrs (cumulativeRR acc).
Proof.
  revert acc. induction rrs as [|rr rrs IH]; intros acc; cbn [fold_left].
  - cbn [length]. by rewrite Nat.add_0_r.
  - destruct (IH (beatStep device t hr src acc rr)) as (-> & -> & ->).
    cbn [beatStep loopWindow loopBeats cumulativeRR length]. repeat split. lia.
Qed.

Lemma getDeviceState_spec (st : State) (device : string) :
  exists reg,
    getDeviceState st device
    = (deviceStateOf st device,
       {| deviceState := <[device := deviceStateOf st device]> (deviceState st);
          latestBeatData := latestBeatData st;
          relayState := relayState st |},
       reg).
Proof.
  unfold getDeviceState, deviceStateOf.
  destruct (deviceState st !! device) as [d|] eqn:Hd; eexists; [|done].
  cbn [default]. rewrite insert_id by done. by destruct st.
Qed.

(** X19.  An accepted request leaves the device with the last 60 intervals of
    its previous window followed by the new ones, and with its beat count
    increased by their number; the state of every other device is left
    alone. *)
Theorem post_beats_window (calculateHRV : list Q -> HRV) (now : Q)
    (req : BeatsRequest) (st : State) (device : string) (rrs : list Q) :
  rqDevice req = Some device -> device <> "" ->
  rqRrIntervals req = Some rrs -> rrs <> [] ->
  (length (rrWindow (deviceStateOf st device)) <= 60)%nat ->
  exists st' effs d',
    post_beats calculateHRV now req st = (BeatsOk (length rrs), st', effs)
    /\ deviceState st' !! device = Some d'
    /\ rrWindow d'
       = drop (length (rrWindow (deviceStateOf st device)) + length rrs - 60)
           (rrWindow (deviceStateOf st device) ++ rrs)
    /\ (length (rrWindow d') <= 60)%nat
    /\ totalBeats d'
       = (totalBeats (deviceStateOf st device) + length rrs)%nat
    /\ (forall other, other <> device ->
          deviceState st' !! other = deviceState st !! other).
Proof.
  intros Hd Hne Hr Hrrs Hw. unfold post_beats. rewrite Hd, Hr.
  apply String.eqb_neq in Hne. rewrite Hne.
  destruct rrs as [|rr0 rrs']; [done|].
  set (rrs := rr0 :: rrs') in *.
  change (length rrs =? 0)%nat with false. cbv iota.
  destruct (getDeviceState_spec st device) as [reg ->].
  destruct (windowHRV _ _ _) as [hrv windowHR].
  eexists _, _, _. split; [reflexivity|]. cbn [deviceState].
  split; [by rewrite lookup_insert_eq|].
  destruct (beatLoop_state device (beatTimestamp now req) (rqHeartRate req)
              (rqSource req) rrs
              {| cumulativeRR := 0;
                 loopBeats := totalBeats (deviceStateOf st device);
                 loopWindow := rrWindow (deviceStateOf st device);
                 loopWrites := [] |}) as (Hwin & Hbeats & _).
  cbn [rrWindow totalBeats]. rewrite Hwin, Hbeats.
  cbn [loopWindow loopBeats]. unfold REALTIME_WINDOW_SIZE.
  rewrite pushBounded_fold by done.
  split; [done|]. split; [rewrite length_drop, length_app; lia|].
  split; [done|].
  intros other Ho. by rewrite !lookup_insert_ne.
Qed.

Lemma post_beats_window_witness :
  rqDevice (beatsRequest (Some "H10") (Some 1000%Q) (Some [800; 810]%Q))
  = Some "H10"
  /\ "H10" <> ""
  /\ rqRrIntervals (beatsRequest (Some "H10") (Some 1000%Q) (Some [800; 810]%Q))
     = Some [800; 810]%Q
  /\ [800; 810]%Q <> []
  /\ (length (rrWindow (deviceStateOf emptyState "H10")) <= 60)%nat
  /\ exists st' effs d',
       post_beats noHRV 0
         (beatsRequest (Some "H10") (Some 1000%Q) (Some [800; 810]%Q))
         emptyState
       = (BeatsOk 2, st', effs)
       /\ deviceState st' !! "H10" = Some d'
       /\ rrWindow d'
          = drop (length (rrWindow (deviceStateOf emptyState "H10")) + 2 - 60)
              (rrWindow (deviceStateOf emptyState "H10") ++ [800; 810]%Q)
       /\ (length (rrWindow d') <= 60)%nat
       /\ totalBeats d'
          = (totalBeats (deviceStateOf emptyState "H10") + 2)%nat
       /\ (forall other, other <> "H10" ->
             deviceState st' !! other = deviceState emptyState !! other).
Proof.
  split; [reflexivity|]. split; [discriminate|].
  split; [reflexivity|]. split; [discriminate|].
  split; [vm_compute; lia|].
  apply (post_beats_window noHRV 0 _ emptyState "H10" [800; 810]%Q);
    [reflexivity | discriminate | reflexivity | discriminate
    | vm_compute; lia].
Defined.

Lemma offsetSeries_last (t c x : Q) (rrs : list Q) :
  last (offsetSeries t c rrs) = Some x ->
  (x + List.last rrs 0 == t + fold_left Qplus rrs c)%Q.
Proof.
  revert c. induction rrs as [|r rrs IH]; intros c; [done|].
  destruct rrs as [|r' rrs].
  - cbn. intros [= <-]. ring.
  - change (last (offsetSeries t c (r :: r' :: rrs)))
      with (last (offsetSeries t (c + r) (r' :: rrs))).
    change (List.last (r :: r' :: rrs) 0%Q) with (List.last (r' :: rrs) 0%Q).
    intros H. by rewrite (IH _ H).
Qed.

(** X20.  An accepted request calls [writeRealtime] exactly once, with the
    timestamp [beatTimestamp + cumulativeRR - rr[last]]; when the numbers
    of the request are safe integers with exact sums, this is the
    timestamp of the last raw beat written. *)
Theorem post_beats_realtime_timestamp (calculateHRV : list Q -> HRV) (now : Q)
    (req : BeatsRequest) (st : State) (device : string) (rrs : list Q) :
  rqDevice req = Some device -> device <> "" ->
  rqRrIntervals req = Some rrs -> rrs <> [] ->
  exists st' effs ts tsLast,
    post_beats calculateHRV now req st = (BeatsOk (length rrs), st', effs)
    /\ realtimeTimestamps effs = [ts]
    /\ ts = (beatTimestamp now req + fold_left Qplus rrs 0
             - List.last rrs 0)%Q
    /\ last (rawBeatTimestamps effs) = Some tsLast
    /\ (exactBeats (beatTimestamp now req) rrs = true -> (ts == tsLast)%Q).
Proof.
  intros Hd Hne Hr Hrrs. unfold post_beats. rewrite Hd, Hr.
  apply String.eqb_neq in Hne. rewrite Hne.
  destruct rrs as [|rr0 rrs']; [done|].
  set (rrs := rr0 :: rrs') in *.
  change (length rrs =? 0)%nat with false. cbv iota.
  destruct (getDeviceState st device) as [[state st1] reg] eqn:Hg.
  destruct (windowHRV _ _ _) as [hrv windowHR].
  destruct (beatLoop_state device (beatTimestamp now req) (rqHeartRate req)
              (rqSource req) rrs
              {| cumulativeRR := 0; loopBeats := totalBeats state;
                 loopWindow := rrWindow state; loopWrites := [] |})
    as (_ & _ & Hcum).
  cbn [cumulativeRR] in Hcum.
  set (loop := fold_left _ rrs _) in *.
  assert (Hraw : rawBeatTimestamps
                   (reg ++ loopWrites loop
                    ++ [WriteRealtime device
                          (beatTimestamp now req + cumulativeRR loop
                           - List.last rrs 0)%Q hrv windowHR;
                        Log "beat"; BroadcastStatus])
                 = offsetSeries (beatTimestamp now req) 0 rrs).
  { rewrite !rawBeatTimestamps_app, (getDeviceState_effects _ _ _ _ _ Hg).
    unfold loop. rewrite beatLoop_writes. cbn [loopWrites cumulativeRR].
    cbn [rawBeatTimestamps flat_map app]. by rewrite app_nil_r. }
  destruct (last (offsetSeries (beatTimestamp now req) 0 rrs)) as [tsLast|]
    eqn:Hlast.
  2:{ apply last_None in Hlast. apply (f_equal length) in Hlast.
      rewrite offsetSeries_length in Hlast. done. }
  eexists _, _, _, tsLast. split; [reflexivity|]. split.
  - unfold realtimeTimestamps. rewrite !flat_map_app.
    assert (Hreg : flat_map (fun e => match e with
                                      | WriteRealtime _ ts _ _ => [ts]
                                      | _ => []
                                      end) reg = []).
    { revert Hg. unfold getDeviceState.
      destruct (deviceState st !! device); by intros [= <- <- <-]. }
    assert (Hloop : forall acc,
               flat_map (fun e => match e with
                                  | WriteRealtime _ ts _ _ => [ts]
                                  | _ => []
                                  end) (loopWrites acc) = [] ->
               flat_map (fun e => match e with
                                  | WriteRealtime _ ts _ _ => [ts]
                                  | _ => []
                                  end)
                 (loopWrites
                    (fold_left (beatStep device (beatTimestamp now req)
                                  (rqHeartRate req) (rqSource req)) rrs acc))
               = []).
    { clear. induction rrs as [|r rrs IH]; intros acc Hacc; [done|].
      cbn [fold_left]. apply IH. cbn [beatStep loopWrites].
      rewrite flat_map_app, Hacc. done. }
    rewrite Hreg. unfold loop. rewrite Hloop by done. reflexivity.
  - split; [subst loop; by rewrite Hcum|]. split; [by rewrite Hraw|].
    intros _. pose proof (offsetSeries_last _ _ _ _ Hlast) as Hl.
    subst loop. rewrite Hcum. lra.
Qed.

Lemma post_beats_realtime_timestamp_witness :
  rqDevice (beatsRequest (Some "H10") (Some 1000%Q) (Some [800; 810]%Q))
  = Some "H10"
  /\ "H10" <> ""
  /\ rqRrIntervals (beatsRequest (Some "H10") (Some 1000%Q) (Some [800; 810]%Q))
     = Some [800; 810]%Q
  /\ [800; 810]%Q <> []
  /\ exactBeats
       (beatTimestamp 0
          (beatsRequest (Some "H10") (Some 1000%Q) (Some [800; 810]%Q)))
       [800; 810]%Q = true
  /\ exists st' effs ts tsLast,
       post_beats noHRV 0
         (beatsRequest (Some "H10") (Some 1000%Q) (Some [800; 810]%Q))
         emptyState
       = (BeatsOk 2, st', effs)
       /\ realtimeTimestamps effs = [ts]
       /\ ts = (beatTimestamp 0
                  (beatsRequest (Some "H10") (Some 1000%Q)
                     (Some [800; 810]%Q))
                + fold_left Qplus [800; 810]%Q 0
                - List.last [800; 810]%Q 0)%Q
       /\ last (rawBeatTimestamps effs) = Some tsLast
       /\ (exactBeats
             (beatTimestamp 0
                (beatsRequest (Some "H10") (Some 1000%Q)
                   (Some [800; 810]%Q)))
             [800; 810]%Q = true ->
           (ts == tsLast)%Q).
Proof.
  split; [reflexivity|]. split; [discriminate|].
  split; [reflexivity|]. split; [discriminate|].
  split; [vm_compute; reflexivity|].
  apply (post_beats_realtime_timestamp noHRV 0 _ emptyState "H10"
           [800; 810]%Q);
    [reflexivity | discriminate | reflexivity | discriminate].
Defined.

(** X21.  The only error of POST /beats is the 400 of an invalid request; it is
    answered exactly when the device is missing or empty or [rrIntervals]
    is not an array, and it changes no state and calls nothing. *)
Theorem post_beats_error (calculateHRV : list Q -> HRV) (now : Q)
    (req : BeatsRequest) (st : State) :
  (truthy_str (rqDevice req) = false \/ rqRrIntervals req = None
   <-> exists status error st' effs,
         post_beats calculateHRV now req st = (Error status error, st', effs))
  /\ forall status error st' effs,
       post_beats calculateHRV now req st = (Error status error, st', effs) ->
       status = 400%nat /\ error = "Invalid request" /\ st' = st /\ effs = [].
Proof.
  unfold post_beats, truthy_str.
  destruct (rqDevice req) as [device|].
  2:{ split; [|by intros * [= <- <- <- <-]].
      split; [intros _; by eexists _, _, _, _ | by left]. }
  destruct (rqRrIntervals req) as [rrs|].
  2:{ split; [|by intros * [= <- <- <- <-]].
      split; [intros _; by eexists _, _, _, _ | by right]. }
  destruct (String.eqb device "") eqn:He; cbn [negb].
  { split; [|by intros * [= <- <- <- <-]].
    split; [intros _; by eexists _, _, _, _ | by left]. }
  destruct (length rrs =? 0)%nat.
  { split; [|by intros * [=]].
    split; [by intros [|] | by intros (? & ? & ? & ? & [=])]. }
  destruct (getDeviceState st device) as [[state st1] reg].
  destruct (windowHRV _ _ _) as [hrv windowHR].
  split; [|by intros * [=]].
  split; [by intros [|] | by intros (? & ? & ? & ? & [=])].
Qed.


(** ** server.js: more on POST /beats/batch *)

Lemma selectNew_dense (existing : list ExistingBeat) (incoming : list Point)
    (firstTs lastTs : Q) :
  denselyCovered existing firstTs lastTs ->
  selectNew existing incoming firstTs lastTs = [].
Proof.
  intros [Hne Hno]. unfold selectNew.
  destruct existing as [|e0 rest] eqn:He; [done|]. rewrite <- He in *.
  replace (length existing =? 0)%nat with false by (by rewrite He).
  assert (Hg : detectGaps existing firstTs lastTs = []).
  { destruct (detectGaps existing firstTs lastTs) as [|g gs] eqn:Hd; [done|].
    destruct (Hno g). apply detectGaps_spec. rewrite Hd.
    apply list_elem_of_here. }
  rewrite Hg. induction incoming as [|p ps IH]; [done|]. exact IH.
Qed.

(** X22.  A batch over a range the existing beats cover without a gap writes
    nothing: every incoming point is a duplicate and the post-processor
    is only told of the device, not asked to reprocess. *)
Theorem post_beats_batch_dense (now : Q) (store : StoreAnswers)
    (req : BatchRequest) (pp pp' : gmap string PostProcessor.DeviceState)
    (resp : Response) (effs : list Effect) (existing : list ExistingBeat) :
  post_beats_batch now store req pp = (resp, pp', effs) ->
  (forall error, resp <> Error 400 error) ->
  rawBeatsAnswer store = Some existing ->
  denselyCovered existing (firstTsOf (incomingOf req))
    (lastTsOf (incomingOf req)) ->
  resp = BatchOk (Z.of_nat (length (incomingOf req))) 0
           (Z.of_nat (length (incomingOf req)))
  /\ batchWrites effs = []
  /\ exists device,
       bqDevice req = Some device
       /\ pp' = PostProcessor.registerDevice pp device
                  (lastProcessedAnswer store) now.
Proof.
  intros Hpost H400 Hex Hdense.
  destruct (post_beats_batch_cases now store req pp)
    as [[error Herr]|(device & beats & reg & Hd & _ & _ & _ & _ & Hreg & Hc)].
  { rewrite Herr in Hpost. injection Hpost as <- _ _. by destruct (H400 error). }
  cbv zeta in Hc. rewrite Hex in Hc. cbn [default] in Hc.
  rewrite (selectNew_dense _ _ _ _ Hdense) in Hc.
  destruct Hc as [[Hin Hc]|(Hin & queryLog & Hq & _
                            & [[_ Hc]|[[? _]|[[? _]|[? _]]]])];
    try done; rewrite Hc in Hpost; injection Hpost as <- <- <-.
  - rewrite Hin. split; [done|]. split; [by eapply batchWrites_reg|].
    by exists device.
  - cbn [length]. rewrite Z.sub_0_r. split; [done|]. split; [|by exists device].
    rewrite batchWrites_app, (batchWrites_reg _ _ Hreg).
    cbn [batchWrites flat_map app]. fold (batchWrites (queryLog ++ [Log "batch"])).
    by rewrite batchWrites_app, (batchWrites_queryLog _ queryLog Hq).
Qed.

Lemma denseStore_covered :
  denselyCovered
    [existingBeat 0 1000; existingBeat 1000 1000; existingBeat 2000 1000]
    (firstTsOf (incomingOf threeBeats)) (lastTsOf (incomingOf threeBeats)).
Proof.
  split; [discriminate|]. intros g Hg. apply detectGaps_spec in Hg.
  vm_compute in Hg. by apply elem_of_nil in Hg.
Qed.

Lemma post_beats_batch_dense_witness :
  post_beats_batch 0 denseStore threeBeats ∅
  = (BatchOk 3 0 3,
     snd (fst (post_beats_batch 0 denseStore threeBeats ∅)),
     snd (post_beats_batch 0 denseStore threeBeats ∅))
  /\ BatchOk 3 0 3
     = BatchOk (Z.of_nat (length (incomingOf threeBeats))) 0
         (Z.of_nat (length (incomingOf threeBeats)))
  /\ batchWrites (snd (post_beats_batch 0 denseStore threeBeats ∅)) = [].
Proof.
  assert (H : post_beats_batch 0 denseStore threeBeats ∅
              = (BatchOk 3 0 3,
                 snd (fst (post_beats_batch 0 denseStore threeBeats ∅)),
                 snd (post_beats_batch 0 denseStore threeBeats ∅)))
    by (vm_compute; reflexivity).
  split; [exact H|].
  destruct (post_beats_batch_dense 0 denseStore threeBeats ∅ _ _ _ _ H
              ltac:(discriminate) eq_refl denseStore_covered)
    as (H1 & H2 & _).
  split; [exact H1 | exact H2].
Defined.

Lemma registerDevice_registered (pp : gmap string PostProcessor.DeviceState)
    (device : string) (answer : option Q) (now : Q) :
  is_Some (PostProcessor.registerDevice pp device answer now !! device).
Proof.
  unfold PostProcessor.registerDevice.
  destruct (pp !! device) eqn:H; [by rewrite H|].
  by rewrite lookup_insert_eq.
Qed.

Lemma triggerReprocess_at_most
    (pp pp' : gmap string PostProcessor.DeviceState) (device : string)
    (fromMs : Q) (logged : bool) :
  is_Some (pp !! device) ->
  PostProcessor.triggerReprocess pp device fromMs = Some (pp', logged) ->
  exists state,
    pp' !! device = Some state
    /\ (PostProcessor.lastProcessedMs state <= fromMs)%Q.
Proof.
  intros [state Hs]. unfold PostProcessor.triggerReprocess. rewrite Hs.
  destruct (ltb fromMs _) eqn:Hc.
  - destruct (PostProcessor.isTimeValue fromMs); [|done].
    intros [= <- _]. eexists. rewrite lookup_insert_eq.
    split; [done|]. simpl. lra.
  - intros [= <- _]. exists state. split; [done|].
    apply not_true_iff_false in Hc. rewrite ltb_iff in Hc.
    by apply Qnot_lt_le.
Qed.

Lemma selectNew_incoming (existing : list ExistingBeat)
    (incoming : list Point) (firstTs lastTs : Q) (p : Point) :
  p ∈ selectNew existing incoming firstTs lastTs -> p ∈ incoming.
Proof.
  rewrite selectNew_filter, !list_elem_of_In, filter_In. tauto.
Qed.

(** X23.  When a batch is answered with new points, the points written
    are exactly the incoming points that count as new (those within a
    detected gap, or all of them when no beat exists in the queried
    range), in their order, in one call of [writeRawBatch]; and
    afterwards the post-processor's mark for the device is at or before
    the first timestamp of the batch, so the range is processed again. *)
Theorem post_beats_batch_rewinds (now : Q) (store : StoreAnswers)
    (req : BatchRequest) (pp pp' : gmap string PostProcessor.DeviceState)
    (received new duplicates : Z) (effs : list Effect) :
  post_beats_batch now store req pp
  = (BatchOk received new duplicates, pp', effs) ->
  (0 < new)%Z ->
  let existing := default [] (rawBeatsAnswer store) in
  let firstTs := firstTsOf (incomingOf req) in
  let lastTs := lastTsOf (incomingOf req) in
  exists device state points,
    bqDevice req = Some device
    /\ pp' !! device = Some state
    /\ (PostProcessor.lastProcessedMs state <= firstTs)%Q
    /\ batchWrites effs = [points]
    /\ points = List.filter (keepNew existing firstTs lastTs) (incomingOf req)
    /\ (forall p, keepNew existing firstTs lastTs p = true
                  <-> countedNew existing firstTs lastTs p)
    /\ Z.of_nat (length points) = new
    /\ (forall p, p ∈ points -> p ∈ incomingOf req).
Proof.
  intros Hpost Hnew existing firstTs lastTs.
  destruct (post_beats_batch_cases now store req pp)
    as [[error Herr]|(device & beats & reg & Hd & _ & _ & _ & _ & Hreg & Hc)].
  { rewrite Herr in Hpost. done. }
  cbv zeta in Hc.
  destruct Hc as [[Hin Hc]|(Hin & queryLog & Hq & _ & Hc)].
  { rewrite Hc in Hpost. injection Hpost as <- <- <- <- <-. lia. }
  destruct Hc as [[Hn Hc]
                 |[(Hn & _ & pp2 & logged & Ht & Hc)
                  |[(_ & _ & _ & Hc)|(_ & _ & Hc)]]];
    rewrite Hc in Hpost; try done; injection Hpost as <- <- <- <- <-.
  { rewrite Hn in Hnew. simpl in Hnew. lia. }
  destruct (triggerReprocess_at_most _ _ _ _ _
              (registerDevice_registered pp device
                 (lastProcessedAnswer store) now) Ht) as (state & Hs & Hle).
  exists device, state. eexists. split; [done|]. split; [exact Hs|].
  split; [done|]. split.
  - rewrite (batchWrites_prefix _ _ _ _ _ _ _ Hreg Hq).
    apply batchWrites_written.
  - split; [apply selectNew_filter|]. split; [intros p; apply keepNew_iff|].
    split; [done|]. intros p. apply selectNew_incoming.
Qed.

Lemma post_beats_batch_rewinds_witness :
  post_beats_batch 0 gapStore threeBeats ∅
  = (BatchOk 3 2 1,
     snd (fst (post_beats_batch 0 gapStore threeBeats ∅)),
     snd (post_beats_batch 0 gapStore threeBeats ∅))
  /\ (0 < 2)%Z
  /\ exists device state points,
       bqDevice threeBeats = Some device
       /\ snd (fst (post_beats_batch 0 gapStore threeBeats ∅)) !! device
          = Some state
       /\ (PostProcessor.lastProcessedMs state
           <= firstTsOf (incomingOf threeBeats))%Q
       /\ batchWrites (snd (post_beats_batch 0 gapStore threeBeats ∅))
          = [points]
       /\ points
          = List.filter
              (keepNew (default [] (rawBeatsAnswer gapStore))
                 (firstTsOf (incomingOf threeBeats))
                 (lastTsOf (incomingOf threeBeats)))
              (incomingOf threeBeats)
       /\ (forall p,
             keepNew (default [] (rawBeatsAnswer gapStore))
               (firstTsOf (incomingOf threeBeats))
               (lastTsOf (incomingOf threeBeats)) p = true
             <-> countedNew (default [] (rawBeatsAnswer gapStore))
                   (firstTsOf (incomingOf threeBeats))
                   (lastTsOf (incomingOf threeBeats)) p)
       /\ Z.of_nat (length points) = 2%Z
       /\ (forall p, p ∈ points -> p ∈ incomingOf threeBeats).
Proof.
  assert (H : post_beats_batch 0 gapStore threeBeats ∅
              = (BatchOk 3 2 1,
                 snd (fst (post_beats_batch 0 gapStore threeBeats ∅)),
                 snd (post_beats_batch 0 gapStore threeBeats ∅)))
    by (vm_compute; reflexivity).
  split; [exact H|]. split; [lia|].
  exact (post_beats_batch_rewinds 0 gapStore threeBeats ∅ _ 3 2 1 _ H
           ltac:(lia)).
Defined.

Lemma insert_by_sorted (x : Point) (l : list Point) :
  StronglySorted byPointTimestamp l ->
  StronglySorted byPointTimestamp (insert_by timestamp x l).
Proof.
  induction 1 as [|y l Hl IH Hy]; cbn [insert_by]; [by repeat constructor|].
  destruct (Qle_bool (timestamp x) (timestamp y)) eqn:Hc.
  - apply Qle_bool_iff in Hc. constructor; [by constructor|].
    constructor; [done|]. eapply Forall_impl; [exact Hy|].
    unfold byPointTimestamp. intros z Hz. lra.
  - apply not_true_iff_false in Hc. rewrite Qle_bool_iff in Hc.
    apply Qnot_le_lt in Hc. constructor; [done|].
    apply insert_by_Forall; [|done]. unfold byPointTimestamp. lra.
Qed.

Lemma sort_by_sorted (l : list Point) :
  StronglySorted byPointTimestamp (sort_by timestamp l).
Proof.
  induction l as [|x l IH]; [constructor|]. by apply insert_by_sorted.
Qed.

Lemma sorted_first_last (l : list Point) (p : Point) :
  StronglySorted byPointTimestamp l -> p ∈ l ->
  (firstTsOf l <= timestamp p)%Q /\ (timestamp p <= lastTsOf l)%Q.
Proof.
  intros Hs Hp. split.
  - destruct l as [|x l]; [by apply elem_of_nil in Hp|].
    apply StronglySorted_cons in Hs as [Hx _]. unfold firstTsOf. simpl.
    apply elem_of_cons in Hp as [->|Hp]; [lra|].
    rewrite Forall_forall in Hx. by apply Hx.
  - unfold lastTsOf. destruct (last l) as [z|] eqn:Hz.
    + apply last_Some in Hz as [l0 ->]. simpl.
      apply elem_of_app in Hp as [Hp|Hp].
      * apply StronglySorted_app in Hs as (Hc & _ & _).
        apply Hc; [done | apply list_elem_of_here].
      * apply list_elem_of_singleton in Hp as ->. lra.
    + apply last_None in Hz as ->. by apply elem_of_nil in Hp.
Qed.

(** X24.  The dedup query covers the whole batch: every incoming point lies at
    least 2000 ms inside the queried range. *)
Theorem post_beats_batch_query_range (now : Q) (store : StoreAnswers)
    (req : BatchRequest) (pp pp' : gmap string PostProcessor.DeviceState)
    (resp : Response) (effs : list Effect) (device : string)
    (startMs endMs : Q) :
  post_beats_batch now store req pp = (resp, pp', effs) ->
  QueryRawBeats device startMs endMs ∈ effs ->
  bqDevice req = Some device
  /\ forall p,
       p ∈ flattenBeats (bqSource req) (default [] (bqBeats req)) ->
       (startMs + 2000 <= timestamp p)%Q /\ (timestamp p <= endMs - 2000)%Q.
Proof.
  intros Hpost Hq.
  destruct (post_beats_batch_cases now store req pp)
    as [[error Herr]|(dev & beats & reg & Hd & _ & _ & _ & _ & Hreg & Hc)].
  { rewrite Herr in Hpost. injection Hpost as _ _ <-.
    by apply elem_of_nil in Hq. }
  cbv zeta in Hc.
  assert (Hcase : exists queryLog rest,
             effs = reg ++ QueryRawBeats dev
                             (firstTsOf (incomingOf req) - 2000)
                             (lastTsOf (incomingOf req) + 2000)
                           :: queryLog ++ rest
             /\ (forall e, e ∈ queryLog ->
                   e = Log "Dedup query failed, writing all"
                   /\ rawBeatsAnswer store = None)
             /\ (forall e, e ∈ rest ->
                   forall d a b, e <> QueryRawBeats d a b)).
  { destruct Hc as [[Hin Hc]
                   |(Hin & queryLog & Hql & _
                     & [[_ Hc]
                       |[(_ & _ & pp2 & logged & _ & Hc)
                        |[(_ & _ & _ & Hc)|(_ & _ & Hc)]]])];
      rewrite Hc in Hpost; injection Hpost as _ _ <-.
    - apply Hreg in Hq as [|]; discriminate.
    - exists queryLog, [Log "batch"]. split; [done|]. split; [done|].
      intros e He. apply list_elem_of_singleton in He as ->. discriminate.
    - exists queryLog. eexists. split; [done|]. split; [done|].
      intros e He.
      apply elem_of_cons in He as [->|He]; [discriminate|].
      destruct logged; cbn [app] in He;
        repeat (apply elem_of_cons in He as [->|He]; [discriminate|]);
        by apply elem_of_nil in He.
    - exists queryLog. eexists. split; [done|]. split; [done|].
      intros e He. apply list_elem_of_singleton in He as ->. discriminate.
    - exists queryLog. eexists. split; [done|]. split; [done|].
      intros e He. apply list_elem_of_singleton in He as ->. discriminate. }
  destruct Hcase as (queryLog & rest & -> & Hql & Hrest).
  apply elem_of_app in Hq as [Hq|Hq];
    [apply Hreg in Hq as [|]; discriminate|].
  apply elem_of_cons in Hq as [Hq|Hq].
  2:{ apply elem_of_app in Hq as [Hq|Hq].
      - apply Hql in Hq as [? _]. discriminate.
      - by destruct (Hrest _ Hq device startMs endMs). }
  injection Hq as -> -> ->. split; [done|].
  intros p Hp.
  assert (Hin : p ∈ incomingOf req).
  { unfold incomingOf. by rewrite sort_by_Permutation. }
  destruct (sorted_first_last _ _ (sort_by_sorted _) Hin).
  unfold incomingOf in *. split; lra.
Qed.

Lemma post_beats_batch_query_range_witness :
  post_beats_batch 0 gapStore threeBeats ∅
  = (BatchOk 3 2 1,
     snd (fst (post_beats_batch 0 gapStore threeBeats ∅)),
     snd (post_beats_batch 0 gapStore threeBeats ∅))
  /\ QueryRawBeats "H10" (-2000) 4000
     ∈ snd (post_beats_batch 0 gapStore threeBeats ∅)
  /\ bqDevice threeBeats = Some "H10"
  /\ forall p,
       p ∈ flattenBeats (bqSource threeBeats) (default [] (bqBeats threeBeats)) ->
       (-2000 + 2000 <= timestamp p)%Q /\ (timestamp p <= 4000 - 2000)%Q.
Proof.
  assert (H : post_beats_batch 0 gapStore threeBeats ∅
              = (BatchOk 3 2 1,
                 snd (fst (post_beats_batch 0 gapStore threeBeats ∅)),
                 snd (post_beats_batch 0 gapStore threeBeats ∅)))
    by (vm_compute; reflexivity).
  assert (Hq : QueryRawBeats "H10" (-2000) 4000
               ∈ snd (post_beats_batch 0 gapStore threeBeats ∅)).
  { vm_compute. do 2 apply list_elem_of_further. apply list_elem_of_here. }
  split; [exact H|]. split; [exact Hq|].
  exact (post_beats_batch_query_range 0 gapStore threeBeats ∅ _ _ _ "H10"
           (-2000) 4000 H Hq).
Defined.

Lemma firstMissingTimestamp_spec (k : nat) (beats : list BatchBeat) :
  match firstMissingTimestamp k beats with
  | Some i =>
      exists j beat,
        i = (k + j)%nat /\ beats !! j = Some beat /\ bTimestamp beat = None
        /\ forall j' beat', (j' < j)%nat -> beats !! j' = Some beat' ->
             is_Some (bTimestamp beat')
  | None => Forall (fun beat => is_Some (bTimestamp beat)) beats
  end.
Proof.
  revert k. induction beats as [|beat beats IH]; intros k; [by constructor|].
  cbn [firstMissingTimestamp].
  destruct (bTimestamp beat) as [ts|] eqn:Hts.
  - specialize (IH (S k)). destruct (firstMissingTimestamp (S k) beats).
    + destruct IH as (j & b & -> & Hb & Hn & Hbefore).
      exists (S j), b. split; [lia|]. split; [done|]. split; [done|].
      intros [|j'] beat' Hj' Hb'.
      * injection Hb' as <-. by rewrite Hts.
      * apply (Hbefore j'); [lia | done].
    + constructor; [by rewrite Hts | done].
  - exists 0%nat, beat. split; [lia|]. split; [done|]. split; [done|].
    intros j' beat' Hj'. lia.
Qed.

(** X25.  A batch with a beat that has no numeric timestamp is refused with a
    400 that names the first such beat; nothing is registered, queried or
    written. *)
Theorem post_beats_batch_missing_timestamp (now : Q) (store : StoreAnswers)
    (req : BatchRequest) (pp : gmap string PostProcessor.DeviceState)
    (device : string) (beats : list BatchBeat) (i : nat) (beat : BatchBeat) :
  bqDevice req = Some device -> device <> "" -> bqBeats req = Some beats ->
  beats !! i = Some beat -> bTimestamp beat = None ->
  (forall j beat', (j < i)%nat -> beats !! j = Some beat' ->
     is_Some (bTimestamp beat')) ->
  post_beats_batch now store req pp
  = (Error 400 ("Beat " +:+ pretty i +:+ " missing timestamp"), pp, []).
Proof.
  intros Hd Hne Hb Hi Hts Hbefore. unfold post_beats_batch.
  rewrite Hd, Hb. apply String.eqb_neq in Hne. rewrite Hne.
  replace (length beats =? 0)%nat with false
    by (symmetry; apply Nat.eqb_neq; apply lookup_lt_Some in Hi; lia).
  cbn [orb].
  pose proof (firstMissingTimestamp_spec 0 beats) as Hspec.
  destruct (firstMissingTimestamp 0 beats) as [i'|].
  - destruct Hspec as (j & b & -> & Hj & Hn & Hbef). cbn [Nat.add].
    assert (j = i) as ->; [|done].
    destruct (Nat.lt_trichotomy j i) as [Hlt|[->|Hlt]]; [|done|].
    + destruct (Hbefore _ _ Hlt Hj) as [? H]. congruence.
    + destruct (Hbef _ _ Hlt Hi) as [? H]. congruence.
  - destruct (Forall_lookup_1 _ _ _ _ Hspec Hi) as [? H]. congruence.
Qed.

Lemma post_beats_batch_missing_timestamp_witness :
  bqDevice (batchRequest (Some "H10")
              [batchBeat 0 [1000%Q]; beatWithoutTimestamp])
  = Some "H10"
  /\ "H10" <> ""
  /\ post_beats_batch 0 gapStore
       (batchRequest (Some "H10") [batchBeat 0 [1000%Q]; beatWithoutTimestamp])
       ∅
     = (Error 400 ("Beat " +:+ pretty 1%nat +:+ " missing timestamp"), ∅, []).
Proof.
  split; [reflexivity|]. split; [discriminate|].
  apply (post_beats_batch_missing_timestamp 0 gapStore _ ∅ "H10"
           [batchBeat 0 [1000%Q]; beatWithoutTimestamp] 1
           beatWithoutTimestamp);
    [reflexivity | discriminate | reflexivity | reflexivity | reflexivity |].
  intros [|j] beat' Hj Hb; [|lia]. injection Hb as <-. by eexists.
Defined.

Lemma layOut_length (ts : Q) (hr : option Q) (src : option string)
    (rrs : list Q) :
  length (layOut ts hr src rrs) = length rrs.
Proof.
  revert ts. induction rrs as [|rr rrs IH]; intros ts; simpl; [done|].
  by rewrite IH.
Qed.

(** X26.  [received] is the total number of RR intervals of the batch: beats
    without intervals count for nothing. *)
Theorem post_beats_batch_received (now : Q) (store : StoreAnswers)
    (req : BatchRequest) (pp pp' : gmap string PostProcessor.DeviceState)
    (received new duplicates : Z) (effs : list Effect) :
  post_beats_batch now store req pp
  = (BatchOk received new duplicates, pp', effs) ->
  received
  = Z.of_nat
      (sum_list
         (map (fun beat => length (default [] (bRrIntervals beat)))
            (default [] (bqBeats req)))).
Proof.
  intros Hpost.
  destruct (post_beats_batch_cases now store req pp)
    as [[error Herr]|(dev & beats & reg & Hd & _ & Hb & _ & Hf & Hreg & Hc)].
  { rewrite Herr in Hpost. done. }
  pose proof (firstMissingTimestamp_spec 0 beats) as Hall.
  rewrite Hf in Hall.
  assert (Hlen : length (incomingOf req)
                 = sum_list (map (fun beat =>
                                    length (default [] (bRrIntervals beat)))
                               beats)).
  { unfold incomingOf. rewrite sort_by_length, Hb.
    change (default [] (Some beats)) with beats.
    clear -Hall. unfold flattenBeats.
    induction Hall as [|beat beats [ts Hts] _ IH]; [done|].
    cbn [flat_map map]. rewrite length_app, IH, Hts.
    change (sum_list (?x :: ?l)) with (x + sum_list l)%nat. f_equal.
    destruct (bRrIntervals beat); [apply layOut_length | done]. }
  rewrite Hb. change (default [] (Some beats)) with beats.
  rewrite <- Hlen. cbv zeta in Hc.
  destruct Hc as [[Hin Hc]
                 |(Hin & queryLog & Hq & _
                   & [[Hn Hc]
                     |[(Hn & _ & pp2 & logged & _ & Hc)
                      |[(_ & _ & _ & Hc)|(_ & _ & Hc)]]])];
    rewrite Hc in Hpost; try done; injection Hpost as <- _ _ _ _; try done.
  by rewrite Hin.
Qed.

Lemma post_beats_batch_received_witness :
  post_beats_batch 0 gapStore threeBeats ∅
  = (BatchOk 3 2 1,
     snd (fst (post_beats_batch 0 gapStore threeBeats ∅)),
     snd (post_beats_batch 0 gapStore threeBeats ∅))
  /\ 3%Z
     = Z.of_nat
         (sum_list
            (map (fun beat => length (default [] (bRrIntervals beat)))
               (default [] (bqBeats threeBeats)))).
Proof.
  assert (H : post_beats_batch 0 gapStore threeBeats ∅
              = (BatchOk 3 2 1,
                 snd (fst (post_beats_batch 0 gapStore threeBeats ∅)),
                 snd (post_beats_batch 0 gapStore threeBeats ∅)))
    by (vm_compute; reflexivity).
  split; [exact H|].
  exact (post_beats_batch_received 0 gapStore threeBeats ∅ _ 3 2 1 _ H).
Defined.

(** ** influx.js: the chunked write *)

Lemma chunksFrom_spec {A} (size fuel : nat) (points : list A) :
  (0 < size)%nat -> (length points <= fuel)%nat ->
  concat (Influx.chunksFrom fuel size points) = points
  /\ Forall (chunkOf size) (Influx.chunksFrom fuel size points).
Proof.
  intros Hsize. revert points.
  induction fuel as [|fuel IH]; intros points Hlen.
  - destruct points; [by split | simpl in Hlen; lia].
  - destruct points as [|p points]; [by split|].
    cbn [Influx.chunksFrom].
    destruct (IH (drop size (p :: points))) as [Hcat Hall].
    { rewrite length_drop. simpl in *. lia. }
    split.
    + cbn [concat]. rewrite Hcat. apply take_drop.
    + constructor; [|exact Hall].
      unfold chunkOf. rewrite length_take. simpl. lia.
Qed.

Lemma writeChunks_spec {A} (written : nat -> bool) (cs : list (list A))
    (k : nat) :
  let '(sent, ok) := Influx.writeChunks written k cs in
  (exists rest, cs = sent ++ rest)
  /\ (forall j, (j < length sent - 1)%nat -> written (k + j)%nat = true)
  /\ if ok then sent = cs
     else (0 < length sent)%nat
          /\ written (k + (length sent - 1))%nat = false.
Proof.
  revert k. induction cs as [|c cs IH]; intros k.
  - simpl. split; [by exists [] |]. split; [intros j; simpl; lia | done].
  - cbn [Influx.writeChunks]. destruct (written k) eqn:Hk.
    + specialize (IH (S k)).
      destruct (Influx.writeChunks written (S k) cs) as [sent ok].
      destruct IH as [[rest Hrest] [Hbefore Hend]].
      split; [exists rest; by rewrite Hrest|].
      split.
      * intros j Hj. destruct j as [|j]; [by rewrite Nat.add_0_r|].
        replace (k + S j)%nat with (S k + j)%nat by lia.
        apply Hbefore. simpl in Hj. lia.
      * destruct ok; [by rewrite Hend|].
        destruct Hend as [Hpos Hfail]. split; [simpl; lia|].
        replace (k + (length (c :: sent) - 1))%nat
          with (S k + (length sent - 1))%nat by (simpl; lia).
        exact Hfail.
    + split; [by exists cs|]. split; [intros j; simpl; lia|].
      split; [simpl; lia|]. simpl. by rewrite Nat.add_0_r.
Qed.

(** X27.  [chunkedWrite] sends the points in order in chunks of 1 to 5000
    points, one [writePoints] call after the other: every call before the
    last one sent has succeeded; when the write completes the chunks sent
    are together the whole input, and otherwise the last chunk sent is
    the one whose call failed and nothing after it is sent. *)
Theorem chunkedWrite_spec {A} (written : nat -> bool) (points : list A) :
  let '(sent, ok) := Influx.chunkedWrite written points in
  Forall (chunkOf Influx.BATCH_CHUNK_SIZE) sent
  /\ (exists rest, points = concat sent ++ rest)
  /\ (forall j, (j < length sent - 1)%nat -> written j = true)
  /\ if ok then concat sent = points
     else (0 < length sent)%nat /\ written (length sent - 1)%nat = false.
Proof.
  unfold Influx.chunkedWrite, Influx.chunks.
  destruct (chunksFrom_spec Influx.BATCH_CHUNK_SIZE (length points) points)
    as [Hcat Hall]; [unfold Influx.BATCH_CHUNK_SIZE; lia | done |].
  pose proof (writeChunks_spec written
                (Influx.chunksFrom (length points) Influx.BATCH_CHUNK_SIZE
                   points) 0) as Hw.
  destruct (Influx.writeChunks written 0 _) as [sent ok].
  destruct Hw as [[rest Hrest] [Hbefore Hend]].
  split; [|split; [|split]].
  - rewrite Hrest in Hall. by apply Forall_app in Hall as [? _].
  - exists (concat rest). by rewrite <- Hcat, Hrest, concat_app.
  - exact Hbefore.
  - destruct ok; [by rewrite Hend|exact Hend].
Qed.

(** ** postprocessor.js: the points of a processing cycle *)

Lemma splitOf_mono (clean more : list Processing.CleanPoint)
    (q : Processing.InsertedPoint) :
  splitOf clean q -> splitOf (clean ++ more) q.
Proof.
  intros [Ht (p & Hin & Hrest)]. split; [exact Ht|].
  exists p. split; [|exact Hrest]. apply elem_of_app. by left.
Qed.

Lemma pointsOf_spec (beat : Processing.TargetBeat) (r : Result) :
  Shape r -> PosClean r ->
  exists p,
    fst (Processing.pointsOf beat r) = [p]
    /\ Processing.cpTimestamp p = Processing.tTime beat
    /\ wellFormedClean p
    /\ if String.eqb (Processing.cpArtifactType p) "missed"
       then exists q, snd (Processing.pointsOf beat r) = [q]
                      /\ splitOf [p] q
       else snd (Processing.pointsOf beat r) = [].
Proof.
  intros [Htype Hnull] Hpos. unfold Processing.pointsOf.
  destruct (String.eqb_spec (artifact_type r) "missed") as [Hm|Hm].
  - destruct (rr_clean r) as [v|] eqn:Hv;
      [|by destruct Hnull as [Hn _]; rewrite Hn in Hm].
    eexists; split; [reflexivity|]. cbn.
    split; [done|]. split.
    + split; [solve_elem | cbn; split; [by apply Hpos | done]].
    + eexists; split; [reflexivity|]. split; [done|].
      eexists; split; [apply list_elem_of_here|]. by cbn.
  - destruct (String.eqb_spec (artifact_type r) "extra_absorbed") as [Ha|Ha].
    + eexists; split; [reflexivity|]. cbn.
      split; [done|]. split; [|done]. split; [solve_elem | by cbn].
    + destruct (rr_clean r) as [v|] eqn:Hv;
        [|by destruct Hnull as [Hn _]; destruct Ha; apply Hn].
      eexists; split; [reflexivity|]. cbn [Processing.cpTimestamp
        Processing.cpArtifactType fst snd].
      split; [done|]. split.
      * split; [exact Htype|]. cbn [Processing.cpArtifactType
          Processing.cpRrClean Processing.cpHrClean].
        destruct (String.eqb_spec (artifact_type r) "extra_absorbed");
          [done|]. split; [by apply Hpos | done].
      * by destruct (String.eqb_spec (artifact_type r) "missed").
Qed.

Lemma buildPoints_prefix (target : list Processing.TargetBeat)
    (results : list Result) (start n : nat) :
  (n <= length target)%nat ->
  (forall i, (i < n)%nat ->
     exists r, results !! (start + i)%nat = Some r /\ Shape r /\ PosClean r) ->
  let '(clean, inserted) :=
    fold_left
      (fun acc i =>
         match target !! (i - start)%nat, results !! i with
         | Some beat, Some result =>
             let '(clean, inserted) := Processing.pointsOf beat result in
             (fst acc ++ clean, snd acc ++ inserted)
         | _, _ => acc
         end)
      (seq start n) ([], []) in
  map Processing.cpTimestamp clean = map Processing.tTime (take n target)
  /\ Forall wellFormedClean clean
  /\ Forall (splitOf clean) inserted
  /\ length inserted = length (missedPoints clean).
Proof.
  induction n as [|n IH]; intros Hn Hres.
  - simpl. by repeat split.
  - rewrite seq_S, fold_left_app. cbn [fold_left].
    specialize (IH ltac:(lia) ltac:(intros i Hi; apply Hres; lia)).
    destruct (fold_left _ (seq start n) _) as [clean inserted].
    destruct IH as (Hts & Hwf & Hsplit & Hcount).
    destruct (lookup_lt_is_Some_2 target n ltac:(lia)) as [beat Hbeat].
    destruct (Hres n ltac:(lia)) as (r & Hr & Hshape & Hpos).
    replace (start + n - start)%nat with n by lia.
    rewrite Hbeat, Hr.
    destruct (pointsOf_spec beat r Hshape Hpos)
      as (p & Hfst & Hpts & Hpwf & Hsnd).
    destruct (Processing.pointsOf beat r) as [c ins].
    cbn [fst snd] in *. subst c.
    split; [|split; [|split]].
    + rewrite map_app, Hts, (take_S_r _ _ _ Hbeat), map_app. cbn [map].
      by rewrite Hpts.
    + apply Forall_app. split; [exact Hwf | by constructor].
    + apply Forall_app. split.
      * eapply Forall_impl; [exact Hsplit|]. intros q. apply splitOf_mono.
      * destruct (String.eqb (Processing.cpArtifactType p) "missed").
        -- destruct Hsnd as (q & -> & [Ht (p' & Hin & Hrest)]).
           constructor; [|constructor]. split; [exact Ht|].
           exists p'. split; [|exact Hrest].
           apply elem_of_app. by right.
        -- subst ins. constructor.
    + unfold missedPoints in *. rewrite List.filter_app, !length_app.
      cbn [List.filter].
      destruct (String.eqb (Processing.cpArtifactType p) "missed").
      * destruct Hsnd as (q & -> & _). simpl. lia.
      * subst ins. simpl. lia.
Qed.

(** X28.  The points of a cycle: when the analysed series (left context,
    target beats, right context) is positive, the loop over the target
    range yields exactly one clean point per target beat, in order and at
    the beat's timestamp; an absorbed beat carries the sentinel 0 and
    every other point a positive interval with its heart rate; and the
    inserted points are exactly one per 'missed' clean point, typed
    'missed_inserted', with the same half interval, stamped half an
    interval after the beat. *)
Theorem buildPoints_target (leftRR rightRR : list Q)
    (target : list Processing.TargetBeat) :
  Forall positive leftRR ->
  Forall positive (map Processing.tRr target) ->
  Forall positive rightRR ->
  let '(clean, inserted) :=
    Processing.buildPoints target
      (results (analyzeRR (leftRR ++ map Processing.tRr target ++ rightRR)))
      (length leftRR) in
  map Processing.cpTimestamp clean = map Processing.tTime target
  /\ Forall wellFormedClean clean
  /\ Forall (splitOf clean) inserted
  /\ length inserted = length (missedPoints clean).
Proof.
  intros Hleft Htarget Hright. unfold Processing.buildPoints.
  set (fullRR := leftRR ++ map Processing.tRr target ++ rightRR).
  pose proof (buildPoints_prefix target (results (analyzeRR fullRR))
                (length leftRR) (length target)) as H.
  destruct (fold_left _ _ _) as [clean inserted].
  rewrite firstn_all in H. apply H; [done|].
  intros i Hi.
  assert (Hlen : (length leftRR + i < length (results (analyzeRR fullRR)))%nat).
  { rewrite analyzeRR_results_length. unfold fullRR.
    rewrite !length_app, length_map. lia. }
  destruct (lookup_lt_is_Some_2 _ _ Hlen) as [r Hr].
  exists r. split; [exact Hr|].
  assert (Hfull : Forall positive fullRR).
  { unfold fullRR. by repeat (apply Forall_app; split). }
  split.
  - exact (proj1 (Forall_lookup _ _) (analyzeRR_Shape fullRR) _ _ Hr).
  - exact (proj1 (Forall_lookup _ _) (analyzeRR_PosClean fullRR Hfull) _ _ Hr).
Qed.

Lemma buildPoints_target_witness :
  Forall positive [] /\
  Forall positive (map Processing.tRr missedBeatTarget) /\
  let '(clean, inserted) :=
    Processing.buildPoints missedBeatTarget
      (results (analyzeRR ([] ++ map Processing.tRr missedBeatTarget ++ [])))
      (length (@nil Q)) in
  map Processing.cpTimestamp clean = map Processing.tTime missedBeatTarget
  /\ Forall wellFormedClean clean
  /\ Forall (splitOf clean) inserted
  /\ length inserted = length (missedPoints clean).
Proof.
  assert (H0 : Forall positive []) by constructor.
  assert (H1 : Forall positive (map Processing.tRr missedBeatTarget))
    by (repeat constructor).
  split; [exact H0|]. split; [exact H1|].
  exact (buildPoints_target [] [] missedBeatTarget H0 H1 H0).
Defined.

(** ** postprocessor.js: the summaries and the processing mark *)

Section CycleProperties.

Variable calculateHRV : list Q -> HRV.
Variable W clock : Q.
Variable store : Processing.StoreAnswers.
Variable device : string.

Lemma loopEffect_mono (k k' : Z) (windowEnd : Q) (e : Processing.Effect) :
  (k <= k')%Z ->
  loopEffect calculateHRV W clock store device k' windowEnd e ->
  loopEffect calculateHRV W clock store device k windowEnd e.
Proof.
  intros Hk. destruct e; cbn [loopEffect]; try done.
  intros (Hd & Ha & Hc & ws & j & rr & Hts & Hws & Hj & Hrest).
  split; [done|]. split; [done|]. split; [done|].
  exists ws, j, rr. split; [done|]. split; [done|]. split; [lia | done].
Qed.

Lemma summaryLoop_effects (fuel : nat) (ws windowEnd : Q) (k : Z) :
  (ws == inject_Z k * W)%Q ->
  Forall (loopEffect calculateHRV W clock store device k windowEnd)
    (fst (fst (Processing.summaryLoop calculateHRV W clock fuel store device
                 ws windowEnd))).
Proof.
  revert ws k. induction fuel as [|fuel IH]; intros ws k Hws; [constructor|].
  cbn [Processing.summaryLoop].
  destruct (ltb ws windowEnd) eqn:Hlt; [|constructor].
  apply ltb_iff in Hlt.
  assert (Hnext : (ws + W == inject_Z (k + 1) * W)%Q).
  { rewrite inject_Z_plus, Hws. change (inject_Z 1) with 1%Q. ring. }
  specialize (IH (ws + W)%Q (k + 1)%Z Hnext).
  destruct (Processing.summaryLoop _ _ _ fuel _ _ _ _) as [[effs n] ok].
  cbn [fst] in IH.
  assert (Hrest :
    Forall (loopEffect calculateHRV W clock store device k windowEnd) effs).
  { eapply Forall_impl; [exact IH|]. intros e.
    apply loopEffect_mono. lia. }
  destruct (ltb clock (ws + W)) eqn:Hclock; [exact Hrest|].
  assert (Hdone : (ws + W <= clock)%Q).
  { apply Qnot_lt_le. intros Hc. apply ltb_iff in Hc. congruence. }
  destruct (Processing.cleanBeatsAnswer store ws (ws + W)) as [rr|] eqn:Hq;
    cbn [fst]; [|by repeat constructor].
  destruct (length rr <? 10)%nat eqn:Hten; cbn [fst];
    [by constructor|].
  apply Nat.ltb_ge in Hten.
  destruct (rmssd (calculateHRV rr)) eqn:Hr; cbn [fst]; [|by constructor].
  constructor; [done|]. constructor; [|exact Hrest].
  cbn [loopEffect]. split; [done|]. split; [done|]. split; [done|].
  exists ws, k, rr. rewrite Hr. repeat split; try done; lia.
Qed.

Lemma summaryLoop_fuel (fuel extra : nat) (ws windowEnd : Q) (k m : Z) :
  (0 < W)%Q ->
  (ws == inject_Z k * W)%Q -> (windowEnd == inject_Z m * W)%Q ->
  (m - k <= Z.of_nat fuel)%Z ->
  Processing.summaryLoop calculateHRV W clock (fuel + extra) store device ws
    windowEnd
  = Processing.summaryLoop calculateHRV W clock fuel store device ws
      windowEnd.
Proof.
  intros HW. revert ws k.
  induction fuel as [|fuel IH]; intros ws k Hws Hend Hfuel.
  - destruct extra as [|extra]; [done|]. cbn [Nat.add Processing.summaryLoop].
    destruct (ltb ws windowEnd) eqn:Hlt; [|done].
    apply ltb_iff in Hlt. exfalso.
    assert (Hmk : (inject_Z m <= inject_Z k)%Q)
      by (rewrite <- Zle_Qle; lia).
    rewrite Hws, Hend in Hlt. nra.
  - cbn [Nat.add Processing.summaryLoop].
    destruct (ltb ws windowEnd); [|done].
    rewrite (IH (ws + W)%Q (k + 1)%Z); [done| |done|lia].
    rewrite inject_Z_plus, Hws. change (inject_Z 1) with 1%Q. ring.
Qed.

Lemma recomputeSummaries_effects (startMs endMs : Q) :
  (0 < W)%Q ->
  Forall (summaryEffect W clock device startMs endMs)
    (fst (Processing.recomputeSummaries calculateHRV W clock store device
            startMs endMs)).
Proof.
  intros HW. unfold Processing.recomputeSummaries.
  set (first := Qfloor (startMs / W)). set (last := Qfloor (endMs / W)).
  pose proof (summaryLoop_effects (Z.to_nat (last + 1 - first))
                (inject_Z first * W) ((inject_Z last + 1) * W) first
                ltac:(reflexivity)) as Hloop.
  destruct (Processing.summaryLoop _ _ _ _ _ _ _ _) as [[effs n] ok].
  cbn [fst] in *.
  apply Forall_app. split; [|destruct (_ && _); by repeat constructor].
  eapply Forall_impl; [exact Hloop|].
  intros e. destruct e; cbn [loopEffect summaryEffect]; try done.
  intros (Hd & Ha & Hc & ws & j & rr & Hts & Hws & Hj & Hend & _ & _ & Hn
          & Hten & Hr).
  split; [done|]. split; [done|]. split; [lia|]. split; [done|].
  split; [done|].
  assert (Hfirst : (startMs < (inject_Z first + 1) * W)%Q).
  { pose proof (Qlt_floor (startMs / W)) as Hf. fold first in Hf.
    rewrite inject_Z_plus in Hf. change (inject_Z 1) with 1%Q in Hf.
    assert (Hdiv : (startMs == startMs / W * W)%Q) by (field; lra).
    set (x := (startMs / W)%Q) in *. nra. }
  assert (Hlast : (inject_Z last * W <= endMs)%Q).
  { pose proof (Qfloor_le (endMs / W)) as Hf. fold last in Hf.
    assert (Hdiv : (endMs == endMs / W * W)%Q) by (field; lra).
    set (x := (endMs / W)%Q) in *. nra. }
  assert (Hjk : (inject_Z first <= inject_Z j)%Q) by (by rewrite <- Zle_Qle).
  assert (Hjl : (inject_Z j <= inject_Z last)%Q).
  { rewrite <- Zle_Qle.
    assert (Hlt : (inject_Z j < inject_Z (last + 1))%Q).
    { rewrite inject_Z_plus. change (inject_Z 1) with 1%Q.
      rewrite Hws in Hend. nra. }
    rewrite <- Zlt_Qlt in Hlt. lia. }
  subst ts. split; [|split].
  - rewrite Hws. nra.
  - rewrite Hws. nra.
  - exists (j + 1)%Z. rewrite inject_Z_plus, Hws.
    change (inject_Z 1) with 1%Q. ring.
Qed.

End CycleProperties.

(** X29.  [recomputeSummaries], for a positive summary interval: the loop
    over the windows runs to its end (more iterations than the number of
    windows change nothing), and every summary it writes is for the
    device, counts at least ten clean beats and no artifacts, has an
    RMSSD, and is stamped with the end of a window of the grid that is
    complete at the clock and overlaps the processed range. *)
Theorem recomputeSummaries_windows (calculateHRV : list Q -> HRV)
    (W clock : Q) (store : Processing.StoreAnswers) (device : string)
    (startMs endMs : Q) :
  (0 < W)%Q ->
  (forall extra,
     Processing.summaryLoop calculateHRV W clock
       (Z.to_nat (Qfloor (endMs / W) + 1 - Qfloor (startMs / W)) + extra)
       store device (inject_Z (Qfloor (startMs / W)) * W)
       ((inject_Z (Qfloor (endMs / W)) + 1) * W)
     = Processing.summaryLoop calculateHRV W clock
         (Z.to_nat (Qfloor (endMs / W) + 1 - Qfloor (startMs / W)))
         store device (inject_Z (Qfloor (startMs / W)) * W)
         ((inject_Z (Qfloor (endMs / W)) + 1) * W))
  /\ Forall (summaryEffect W clock device startMs endMs)
       (fst (Processing.recomputeSummaries calculateHRV W clock store device
               startMs endMs)).
Proof.
  intros HW. split; [|by apply recomputeSummaries_effects].
  intros extra.
  apply (summaryLoop_fuel calculateHRV W clock store device _ extra _ _
           (Qfloor (startMs / W)) (Qfloor (endMs / W) + 1)); [done|done| |lia].
  rewrite inject_Z_plus. change (inject_Z 1) with 1%Q. reflexivity.
Qed.

Lemma recomputeSummaries_windows_witness :
  (0 < 300000)%Q /\
  Forall (summaryEffect 300000 1000000 "A0:9E:1A:00:00:01" 250000 480000)
    (fst (Processing.recomputeSummaries steadyHRV 300000 1000000
            tenBeatStore "A0:9E:1A:00:00:01" 250000 480000)).
Proof.
  assert (H : (0 < 300000)%Q) by reflexivity.
  split; [exact H|].
  exact (proj2 (recomputeSummaries_windows steadyHRV 300000 1000000
                  tenBeatStore "A0:9E:1A:00:00:01" 250000 480000 H)).
Defined.

Lemma recomputeSummaries_no_clean_write (calculateHRV : list Q -> HRV)
    (W clock : Q) (store : Processing.StoreAnswers) (device : string)
    (startMs endMs : Q) :
  Forall (fun e => ~ isCleanWrite e)
    (fst (Processing.recomputeSummaries calculateHRV W clock store device
            startMs endMs)).
Proof.
  unfold Processing.recomputeSummaries.
  pose proof (summaryLoop_effects calculateHRV W clock store device
                (Z.to_nat (Qfloor (endMs / W) + 1 - Qfloor (startMs / W)))
                (inject_Z (Qfloor (startMs / W)) * W)
                ((inject_Z (Qfloor (endMs / W)) + 1) * W)
                (Qfloor (startMs / W)) ltac:(reflexivity)) as Hloop.
  destruct (Processing.summaryLoop _ _ _ _ _ _ _ _) as [[effs n] ok].
  cbn [fst] in *. apply Forall_app. split.
  - eapply Forall_impl; [exact Hloop|]. intros e He Hc.
    by destruct e.
  - destruct (_ && _); repeat constructor. intros [].
Qed.

(** X30.  One cycle of [processDevice] for a registered device: the
    device stays registered and no other device's state changes; the mark
    [lastProcessedMs] never moves backward; when the cycle completes the
    mark is the larger of the old mark and the cutoff [now - 120000]; and
    when the write of the clean fields fails the cycle throws with the
    state unchanged, so the same range is processed again. *)
Theorem processDevice_mark (calculateHRV : list Q -> HRV) (W now clock : Q)
    (store : Processing.StoreAnswers)
    (deviceState : gmap string PostProcessor.DeviceState) (device : string)
    (state : PostProcessor.DeviceState) :
  deviceState !! device = Some state ->
  let '(deviceState', effs, ok) :=
    Processing.processDevice calculateHRV W now clock store deviceState
      device in
  (forall other, other <> device ->
     deviceState' !! other = deviceState !! other)
  /\ (exists state',
        deviceState' !! device = Some state'
        /\ (PostProcessor.lastProcessedMs state
            <= PostProcessor.lastProcessedMs state')%Q
        /\ (ok = true ->
            (PostProcessor.lastProcessedMs state'
             == Qmax (PostProcessor.lastProcessedMs state)
                  (now - Processing.PROCESS_BUFFER_MS))%Q))
  /\ (Processing.cleanFieldsWritten store = false ->
      Exists isCleanWrite effs ->
      deviceState' = deviceState /\ ok = false).
Proof.
  intros Hstate. unfold Processing.processDevice. rewrite Hstate.
  set (cutoff := (now - Processing.PROCESS_BUFFER_MS)%Q).
  set (last := PostProcessor.lastProcessedMs state).
  assert (Hsame :
    (forall other, other <> device ->
       deviceState !! other = deviceState !! other)
    /\ (exists state',
          deviceState !! device = Some state'
          /\ (last <= PostProcessor.lastProcessedMs state')%Q)).
  { split; [done|]. exists state. split; [done | apply Qle_refl]. }
  destruct (leb cutoff last) eqn:Hcut.
  { apply leb_iff in Hcut. destruct Hsame as [Ho _].
    split; [exact Ho|]. split.
    - exists state. split; [done|]. split; [apply Qle_refl|].
      intros _. fold last. symmetry. by apply Q.max_l.
    - intros _ Hex. by apply Exists_nil in Hex. }
  assert (Hlt : (last < cutoff)%Q).
  { apply Qnot_le_lt. intros Hle. apply leb_iff in Hle. congruence. }
  assert (Hadv :
    (forall other, other <> device ->
       <[device := {| PostProcessor.lastProcessedMs := cutoff |}]> deviceState
         !! other = deviceState !! other)
    /\ (exists state',
          <[device := {| PostProcessor.lastProcessedMs := cutoff |}]>
            deviceState !! device = Some state'
          /\ (last <= PostProcessor.lastProcessedMs state')%Q
          /\ (PostProcessor.lastProcessedMs state' == Qmax last cutoff)%Q)).
  { split; [intros other Hne; by rewrite lookup_insert_ne|].
    eexists. split; [by rewrite lookup_insert_eq|]. cbn.
    split; [by apply Qlt_le_weak|]. symmetry. apply Q.max_r.
    by apply Qlt_le_weak. }
  assert (Hunchanged :
    (forall other, other <> device ->
       deviceState !! other = deviceState !! other)
    /\ (exists state',
          deviceState !! device = Some state'
          /\ (last <= PostProcessor.lastProcessedMs state')%Q
          /\ (false = true ->
              (PostProcessor.lastProcessedMs state' == Qmax last cutoff)%Q))).
  { split; [done|]. exists state. split; [done|].
    split; [apply Qle_refl | done]. }
  assert (Hadvanced : forall ok : bool,
    (forall other, other <> device ->
       <[device := {| PostProcessor.lastProcessedMs := cutoff |}]> deviceState
         !! other = deviceState !! other)
    /\ (exists state',
          <[device := {| PostProcessor.lastProcessedMs := cutoff |}]>
            deviceState !! device = Some state'
          /\ (last <= PostProcessor.lastProcessedMs state')%Q
          /\ (ok = true ->
              (PostProcessor.lastProcessedMs state' == Qmax last cutoff)%Q))).
  { intros ok. destruct Hadv as [Ho (state' & Hs & Hle & Hmax)].
    split; [exact Ho|]. exists state'. by repeat split. }
  destruct (Processing.contextAnswer store)
    as [[[leftContext targetBeats] rightContext]|].
  2:{ destruct Hunchanged as [Ho Hs]. split; [exact Ho|]. split; [exact Hs|].
      intros _ Hex. by apply Exists_nil in Hex. }
  destruct (length (Processing.withRR targetBeats) =? 0)%nat.
  { destruct (Hadvanced true) as [Ho Hs]. split; [exact Ho|].
    split; [exact Hs|]. intros _ Hex. by apply Exists_nil in Hex. }
  destruct (length _ <? 4)%nat.
  { destruct (Hadvanced true) as [Ho Hs]. split; [exact Ho|].
    split; [exact Hs|]. intros _ Hex. by apply Exists_nil in Hex. }
  destruct (Processing.buildPoints _ _ _) as [cleanPoints insertedPoints].
  destruct (Processing.cleanFieldsWritten store) eqn:Hw.
  - rewrite andb_false_r.
    pose proof (recomputeSummaries_no_clean_write calculateHRV W clock store
                  device last cutoff) as Hsum.
    destruct (Processing.recomputeSummaries _ _ _ _ _ _ _) as [summaries ok].
    destruct (Hadvanced ok) as [Ho Hs]. split; [exact Ho|].
    split; [exact Hs|]. intros Hf. discriminate Hf.
  - rewrite andb_true_r.
    destruct (0 <? length cleanPoints)%nat.
    + destruct Hunchanged as [Ho Hs]. split; [exact Ho|].
      split; [exact Hs|]. done.
    + pose proof (recomputeSummaries_no_clean_write calculateHRV W clock
                    store device last cutoff) as Hsum.
      destruct (Processing.recomputeSummaries _ _ _ _ _ _ _)
        as [summaries ok].
      destruct (Hadvanced ok) as [Ho Hs]. split; [exact Ho|].
      split; [exact Hs|]. intros _ Hex. exfalso.
      cbn [fst] in Hsum. cbn [app] in Hex.
      rewrite <- app_assoc in Hex.
      apply Exists_app in Hex as [Hex|Hex].
      * apply Exists_exists in Hex as (e & Hin & He).
        apply list_elem_of_fmap in Hin as (p & -> & _). exact He.
      * apply Exists_cons in Hex as [He|Hex]; [exact He|].
        apply Exists_exists in Hex as (e & Hin & He).
        exact (proj1 (Forall_forall _ _) Hsum e Hin He).
Qed.

Lemma processDevice_mark_witness :
  processedUpTo5000 !! "H10" = Some {| PostProcessor.lastProcessedMs := 5000 |}
  /\ let '(deviceState', effs, ok) :=
       Processing.processDevice noHRV 300000 200000 200050 failingCleanStore
         processedUpTo5000 "H10" in
     (forall other, other <> "H10" ->
        deviceState' !! other = processedUpTo5000 !! other)
     /\ (exists state',
           deviceState' !! "H10" = Some state'
           /\ (PostProcessor.lastProcessedMs
                 {| PostProcessor.lastProcessedMs := 5000 |}
               <= PostProcessor.lastProcessedMs state')%Q
           /\ (ok = true ->
               (PostProcessor.lastProcessedMs state'
                == Qmax (PostProcessor.lastProcessedMs
                           {| PostProcessor.lastProcessedMs := 5000 |})
                     (200000 - Processing.PROCESS_BUFFER_MS))%Q))
     /\ (Processing.cleanFieldsWritten failingCleanStore = false ->
         Exists isCleanWrite effs ->
         deviceState' = processedUpTo5000 /\ ok = false).
Proof.
  assert (H : processedUpTo5000 !! "H10"
              = Some {| PostProcessor.lastProcessedMs := 5000 |})
    by (vm_compute; reflexivity).
  split; [exact H|].
  exact (processDevice_mark noHRV 300000 200000 200050 failingCleanStore
           processedUpTo5000 "H10" _ H).
Defined.
